(** * VideoBricks: the segment-timeline gesture engine of [TrimSlider.tsx]

    A shallow embedding of the trim timeline of VideoBricks
    ([src/components/TrimSlider.tsx], together with the parts of the edit
    screen that own the segment list and the detail thumbnails) and the
    properties its specification states about it.

    Conventions of the embedding.
    - The handlers compute on exact rationals ([Q]): the rounding of the
      binary64 numbers of JavaScript is not part of them.  Statements about
      lengths of time therefore carry [roundingSlack], a bound on what the
      rounding of one operation on the timeline costs, and module [Double]
      evaluates single expressions of the source in binary64 where the
      rounding itself is the point.
      A division whose divisor is a run-time quantity goes through [js_div],
      which answers [None] when the divisor is zero (JavaScript yields [NaN]
      or an infinity there).  A handler that reads a missing array element
      and dereferences it throws; that is [None] as well.
    - React state and refs are fields of one record, [State]; callbacks of the
      host ([onSegmentsChange], [onSeek], ...) are applied to that record.
    - Time is a logical clock in milliseconds carried by the events; a timer
      is its due time together with the arguments captured by its closure.
    - [Math.exp] has no counterpart here: the handlers, which only store the
      value of [rubberBandPx] as carpet geometry, take that function from
      the environment. *)

From Stdlib Require Import QArith Qminmax Qabs Lqa Lia.
From Stdlib Require Import PrimFloat FloatOps SpecFloat.
From Stdlib Require Import DecimalString DecimalNat Decimal Sorted.
From stdpp Require Import gmap strings list fin_maps.

Local Open Scope Q_scope.
#[local] Set Warnings "-inexact-float".

(** ** JavaScript arithmetic on finite numbers *)

Definition Qltb (x y : Q) : bool := negb (Qle_bool y x).

Definition Math_max (a b : Q) : Q := if Qle_bool a b then b else a.
Definition Math_min (a b : Q) : Q := if Qle_bool a b then a else b.
Definition Math_abs (a : Q) : Q := if Qle_bool 0 a then a else - a.

(** [x / y] for a divisor known only at run time. *)
Definition js_div (x y : Q) : option Q :=
  if Qeq_bool y 0 then None else Some (x / y).

(** [String(n)] for an array index. *)
Definition String_of_index (n : nat) : string :=
  NilEmpty.string_of_uint (Nat.to_uint n).

(** [[x, y].sort()]: the default comparator orders the elements by their
    string conversions, code unit by code unit. *)
Definition js_default_sort2 (x y : nat) : nat * nat :=
  if String.ltb (String_of_index y) (String_of_index x) then (y, x) else (x, y).

(** ** Constants of [TrimSlider.tsx] *)

Definition HANDLE_SNAP_PX : Q := 10.
Definition HANDLE_WIDTH_PX : Q := 10.
Definition DELETE_THRESHOLD_PX : Q := 100.
Definition MERGE_THRESHOLD_PX : Q := 100.
Definition DWELL_MS : nat := 600.
Definition PREFETCH_MS : nat := 200.
Definition MERGE_FADE_MS : nat := 450.
(** The minimum separation written [0.1] in the clamps of the drag. *)
Definition MIN_SEPARATION : Q := 0.1.

(** ** Data model *)

Inductive Edge := EdgeStart | EdgeEnd.
Inductive Direction := DirRight | DirLeft.

#[global] Instance Edge_eq_dec : EqDecision Edge.
Proof. solve_decision. Defined.

(** [TrimSegment] of [lib/types.ts]; [active] is optional. *)
Record TrimSegment := {
  seg_id : string;
  seg_start : Q;
  seg_end : Q;
  seg_active : option bool;
}.

(** [{ ...seg, start: t }] and [{ ...seg, end: t }]. *)
Definition with_start (seg : TrimSegment) (t : Q) : TrimSegment :=
  {| seg_id := seg_id seg; seg_start := t; seg_end := seg_end seg;
     seg_active := seg_active seg |}.
Definition with_end (seg : TrimSegment) (t : Q) : TrimSegment :=
  {| seg_id := seg_id seg; seg_start := seg_start seg; seg_end := t;
     seg_active := seg_active seg |}.

(** [seg.active !== false]. *)
Definition is_active (seg : TrimSegment) : bool :=
  match seg_active seg with Some false => false | _ => true end.

(** [getBoundingClientRect()] of the track element, as far as it is read. *)
Record DOMRect := { rect_left : Q; rect_width : Q }.

Record DetailMode := {
  viewStart : Q;
  viewEnd : Q;
  handleTime : Q;
  dm_segmentIndex : nat;
  dm_edge : Edge;
}.

(** What a handler reads from its props and from the DOM. *)
Record Env := {
  duration : Q;
  container : option DOMRect;          (* containerRef.current *)
  memoContainer : option DOMRect;      (* the same, as [useMemo] last saw it *)
  frameDuration : Q;                   (* 1 / metadata.frameRate *)
  rubberBand : Q -> Q;                 (* rubberBandPx *)
}.

(** The environment the record of [handleProximity] was computed in:
    [useMemo] keeps the record of the last render in which [segments] or
    [duration] changed, with the track as it was measured then (no track at
    all on the first render). *)
Definition atMemo (env : Env) : Env :=
  {| duration := duration env; container := memoContainer env;
     memoContainer := memoContainer env;
     frameDuration := frameDuration env; rubberBand := rubberBand env |}.

(** ** Ephemeral gesture state *)

Inductive DragTarget :=
| DragHandle (edge : Edge) (segmentIndex : nat)
| DragShared (leftIndex rightIndex : nat) (startX : Q) (resolved : bool)
| DragPlayhead.

Record DeleteIntent := {
  di_segmentIndex : nat;
  di_progress : Q;
  di_anchorPct : Q;
  di_segExtentPct : Q;
  di_cursorPct : Q;
  di_direction : Direction;
}.

Record SnapBack := {
  sb_segmentIndex : nat;
  sb_leftPct : Q;
  sb_rightPct : Q;
  sb_direction : Direction;
  deleteAfter : bool;
  sb_initialOpacity : Q;
}.

Record MergeIntent := {
  mi_segmentIndex : nat;
  mi_targetSegmentIndex : nat;
  mi_progress : Q;
  mi_anchorPct : Q;
  mi_cursorPct : Q;
  mi_direction : Direction;
}.

Record MergeSnapBack := {
  msb_segmentIndex : nat;
  msb_targetSegmentIndex : nat;
  msb_leftPct : Q;
  msb_rightPct : Q;
  msb_direction : Direction;
  commitAfter : bool;
  msb_initialOpacity : Q;
}.

(** A pending [setTimeout] of [startDetailTimers]: when it is due and the
    arguments its closure captured. *)
Record Timer := {
  due : nat;
  tm_handleTime : Q;
  tm_segmentIndex : nat;
  tm_edge : Edge;
}.

(** The state of the slider and of the edit screen around it.
    [detailMode] stands for both [detailMode] and [detailModeRef], which are
    always assigned together; [requests] logs the calls of
    [getVideoThumbnailsRange] and [settled] the ones that have answered;
    [fadeTimers] are the pending second phases of merges. *)
Record State := {
  segments : list TrimSegment;
  currentTime : Q;
  detailThumbnails : option (list string);
  requests : list (Q * Q);
  settled : list nat;
  dragging : option DragTarget;
  deleteIntent : option DeleteIntent;
  snapBack : option SnapBack;
  snapStarted : bool;
  mergeIntent : option MergeIntent;
  mergeSnapBack : option MergeSnapBack;
  mergeSnapStarted : bool;
  mergeFading : option string;
  fadeTimers : list (nat * string);
  detailMode : option DetailMode;
  pendingDetail : option DetailMode;
  dwellTimer : option Timer;
  prefetchTimer : option Timer;
  lastMouseX : Q;
}.

Definition setSegments (v : list TrimSegment) (s : State) : State :=
  {| segments := v; currentTime := currentTime s;
     detailThumbnails := detailThumbnails s; requests := requests s;
     settled := settled s; dragging := dragging s;
     deleteIntent := deleteIntent s; snapBack := snapBack s;
     snapStarted := snapStarted s; mergeIntent := mergeIntent s;
     mergeSnapBack := mergeSnapBack s;
     mergeSnapStarted := mergeSnapStarted s; mergeFading := mergeFading s;
     fadeTimers := fadeTimers s; detailMode := detailMode s;
     pendingDetail := pendingDetail s; dwellTimer := dwellTimer s;
     prefetchTimer := prefetchTimer s; lastMouseX := lastMouseX s |}.
Definition setCurrentTime (v : Q) (s : State) : State :=
  {| segments := segments s; currentTime := v;
     detailThumbnails := detailThumbnails s; requests := requests s;
     settled := settled s; dragging := dragging s;
     deleteIntent := deleteIntent s; snapBack := snapBack s;
     snapStarted := snapStarted s; mergeIntent := mergeIntent s;
     mergeSnapBack := mergeSnapBack s;
     mergeSnapStarted := mergeSnapStarted s; mergeFading := mergeFading s;
     fadeTimers := fadeTimers s; detailMode := detailMode s;
     pendingDetail := pendingDetail s; dwellTimer := dwellTimer s;
     prefetchTimer := prefetchTimer s; lastMouseX := lastMouseX s |}.
Definition setDetailThumbnails (v : option (list string)) (s : State) : State :=
  {| segments := segments s; currentTime := currentTime s;
     detailThumbnails := v; requests := requests s; settled := settled s;
     dragging := dragging s; deleteIntent := deleteIntent s;
     snapBack := snapBack s; snapStarted := snapStarted s;
     mergeIntent := mergeIntent s; mergeSnapBack := mergeSnapBack s;
     mergeSnapStarted := mergeSnapStarted s; mergeFading := mergeFading s;
     fadeTimers := fadeTimers s; detailMode := detailMode s;
     pendingDetail := pendingDetail s; dwellTimer := dwellTimer s;
     prefetchTimer := prefetchTimer s; lastMouseX := lastMouseX s |}.
Definition setRequests (v : list (Q * Q)) (s : State) : State :=
  {| segments := segments s; currentTime := currentTime s;
     detailThumbnails := detailThumbnails s; requests := v;
     settled := settled s; dragging := dragging s;
     deleteIntent := deleteIntent s; snapBack := snapBack s;
     snapStarted := snapStarted s; mergeIntent := mergeIntent s;
     mergeSnapBack := mergeSnapBack s;
     mergeSnapStarted := mergeSnapStarted s; mergeFading := mergeFading s;
     fadeTimers := fadeTimers s; detailMode := detailMode s;
     pendingDetail := pendingDetail s; dwellTimer := dwellTimer s;
     prefetchTimer := prefetchTimer s; lastMouseX := lastMouseX s |}.
Definition setSettled (v : list nat) (s : State) : State :=
  {| segments := segments s; currentTime := currentTime s;
     detailThumbnails := detailThumbnails s; requests := requests s;
     settled := v; dragging := dragging s; deleteIntent := deleteIntent s;
     snapBack := snapBack s; snapStarted := snapStarted s;
     mergeIntent := mergeIntent s; mergeSnapBack := mergeSnapBack s;
     mergeSnapStarted := mergeSnapStarted s; mergeFading := mergeFading s;
     fadeTimers := fadeTimers s; detailMode := detailMode s;
     pendingDetail := pendingDetail s; dwellTimer := dwellTimer s;
     prefetchTimer := prefetchTimer s; lastMouseX := lastMouseX s |}.
Definition setDragging (v : option DragTarget) (s : State) : State :=
  {| segments := segments s; currentTime := currentTime s;
     detailThumbnails := detailThumbnails s; requests := requests s;
     settled := settled s; dragging := v; deleteIntent := deleteIntent s;
     snapBack := snapBack s; snapStarted := snapStarted s;
     mergeIntent := mergeIntent s; mergeSnapBack := mergeSnapBack s;
     mergeSnapStarted := mergeSnapStarted s; mergeFading := mergeFading s;
     fadeTimers := fadeTimers s; detailMode := detailMode s;
     pendingDetail := pendingDetail s; dwellTimer := dwellTimer s;
     prefetchTimer := prefetchTimer s; lastMouseX := lastMouseX s |}.
Definition setDeleteIntent (v : option DeleteIntent) (s : State) : State :=
  {| segments := segments s; currentTime := currentTime s;
     detailThumbnails := detailThumbnails s; requests := requests s;
     settled := settled s; dragging := dragging s; deleteIntent := v;
     snapBack := snapBack s; snapStarted := snapStarted s;
     mergeIntent := mergeIntent s; mergeSnapBack := mergeSnapBack s;
     mergeSnapStarted := mergeSnapStarted s; mergeFading := mergeFading s;
     fadeTimers := fadeTimers s; detailMode := detailMode s;
     pendingDetail := pendingDetail s; dwellTimer := dwellTimer s;
     prefetchTimer := prefetchTimer s; lastMouseX := lastMouseX s |}.
Definition setSnapBack (v : option SnapBack) (s : State) : State :=
  {| segments := segments s; currentTime := currentTime s;
     detailThumbnails := detailThumbnails s; requests := requests s;
     settled := settled s; dragging := dragging s;
     deleteIntent := deleteIntent s; snapBack := v;
     snapStarted := snapStarted s; mergeIntent := mergeIntent s;
     mergeSnapBack := mergeSnapBack s;
     mergeSnapStarted := mergeSnapStarted s; mergeFading := mergeFading s;
     fadeTimers := fadeTimers s; detailMode := detailMode s;
     pendingDetail := pendingDetail s; dwellTimer := dwellTimer s;
     prefetchTimer := prefetchTimer s; lastMouseX := lastMouseX s |}.
Definition setSnapStarted (v : bool) (s : State) : State :=
  {| segments := segments s; currentTime := currentTime s;
     detailThumbnails := detailThumbnails s; requests := requests s;
     settled := settled s; dragging := dragging s;
     deleteIntent := deleteIntent s; snapBack := snapBack s;
     snapStarted := v; mergeIntent := mergeIntent s;
     mergeSnapBack := mergeSnapBack s;
     mergeSnapStarted := mergeSnapStarted s; mergeFading := mergeFading s;
     fadeTimers := fadeTimers s; detailMode := detailMode s;
     pendingDetail := pendingDetail s; dwellTimer := dwellTimer s;
     prefetchTimer := prefetchTimer s; lastMouseX := lastMouseX s |}.
Definition setMergeIntent (v : option MergeIntent) (s : State) : State :=
  {| segments := segments s; currentTime := currentTime s;
     detailThumbnails := detailThumbnails s; requests := requests s;
     settled := settled s; dragging := dragging s;
     deleteIntent := deleteIntent s; snapBack := snapBack s;
     snapStarted := snapStarted s; mergeIntent := v;
     mergeSnapBack := mergeSnapBack s;
     mergeSnapStarted := mergeSnapStarted s; mergeFading := mergeFading s;
     fadeTimers := fadeTimers s; detailMode := detailMode s;
     pendingDetail := pendingDetail s; dwellTimer := dwellTimer s;
     prefetchTimer := prefetchTimer s; lastMouseX := lastMouseX s |}.
Definition setMergeSnapBack (v : option MergeSnapBack) (s : State) : State :=
  {| segments := segments s; currentTime := currentTime s;
     detailThumbnails := detailThumbnails s; requests := requests s;
     settled := settled s; dragging := dragging s;
     deleteIntent := deleteIntent s; snapBack := snapBack s;
     snapStarted := snapStarted s; mergeIntent := mergeIntent s;
     mergeSnapBack := v; mergeSnapStarted := mergeSnapStarted s;
     mergeFading := mergeFading s; fadeTimers := fadeTimers s;
     detailMode := detailMode s; pendingDetail := pendingDetail s;
     dwellTimer := dwellTimer s; prefetchTimer := prefetchTimer s;
     lastMouseX := lastMouseX s |}.
Definition setMergeSnapStarted (v : bool) (s : State) : State :=
  {| segments := segments s; currentTime := currentTime s;
     detailThumbnails := detailThumbnails s; requests := requests s;
     settled := settled s; dragging := dragging s;
     deleteIntent := deleteIntent s; snapBack := snapBack s;
     snapStarted := snapStarted s; mergeIntent := mergeIntent s;
     mergeSnapBack := mergeSnapBack s; mergeSnapStarted := v;
     mergeFading := mergeFading s; fadeTimers := fadeTimers s;
     detailMode := detailMode s; pendingDetail := pendingDetail s;
     dwellTimer := dwellTimer s; prefetchTimer := prefetchTimer s;
     lastMouseX := lastMouseX s |}.
Definition setMergeFading (v : option string) (s : State) : State :=
  {| segments := segments s; currentTime := currentTime s;
     detailThumbnails := detailThumbnails s; requests := requests s;
     settled := settled s; dragging := dragging s;
     deleteIntent := deleteIntent s; snapBack := snapBack s;
     snapStarted := snapStarted s; mergeIntent := mergeIntent s;
     mergeSnapBack := mergeSnapBack s;
     mergeSnapStarted := mergeSnapStarted s; mergeFading := v;
     fadeTimers := fadeTimers s; detailMode := detailMode s;
     pendingDetail := pendingDetail s; dwellTimer := dwellTimer s;
     prefetchTimer := prefetchTimer s; lastMouseX := lastMouseX s |}.
Definition setFadeTimers (v : list (nat * string)) (s : State) : State :=
  {| segments := segments s; currentTime := currentTime s;
     detailThumbnails := detailThumbnails s; requests := requests s;
     settled := settled s; dragging := dragging s;
     deleteIntent := deleteIntent s; snapBack := snapBack s;
     snapStarted := snapStarted s; mergeIntent := mergeIntent s;
     mergeSnapBack := mergeSnapBack s;
     mergeSnapStarted := mergeSnapStarted s; mergeFading := mergeFading s;
     fadeTimers := v; detailMode := detailMode s;
     pendingDetail := pendingDetail s; dwellTimer := dwellTimer s;
     prefetchTimer := prefetchTimer s; lastMouseX := lastMouseX s |}.
Definition setDetailMode (v : option DetailMode) (s : State) : State :=
  {| segments := segments s; currentTime := currentTime s;
     detailThumbnails := detailThumbnails s; requests := requests s;
     settled := settled s; dragging := dragging s;
     deleteIntent := deleteIntent s; snapBack := snapBack s;
     snapStarted := snapStarted s; mergeIntent := mergeIntent s;
     mergeSnapBack := mergeSnapBack s;
     mergeSnapStarted := mergeSnapStarted s; mergeFading := mergeFading s;
     fadeTimers := fadeTimers s; detailMode := v;
     pendingDetail := pendingDetail s; dwellTimer := dwellTimer s;
     prefetchTimer := prefetchTimer s; lastMouseX := lastMouseX s |}.
Definition setPendingDetail (v : option DetailMode) (s : State) : State :=
  {| segments := segments s; currentTime := currentTime s;
     detailThumbnails := detailThumbnails s; requests := requests s;
     settled := settled s; dragging := dragging s;
     deleteIntent := deleteIntent s; snapBack := snapBack s;
     snapStarted := snapStarted s; mergeIntent := mergeIntent s;
     mergeSnapBack := mergeSnapBack s;
     mergeSnapStarted := mergeSnapStarted s; mergeFading := mergeFading s;
     fadeTimers := fadeTimers s; detailMode := detailMode s;
     pendingDetail := v; dwellTimer := dwellTimer s;
     prefetchTimer := prefetchTimer s; lastMouseX := lastMouseX s |}.
Definition setDwellTimer (v : option Timer) (s : State) : State :=
  {| segments := segments s; currentTime := currentTime s;
     detailThumbnails := detailThumbnails s; requests := requests s;
     settled := settled s; dragging := dragging s;
     deleteIntent := deleteIntent s; snapBack := snapBack s;
     snapStarted := snapStarted s; mergeIntent := mergeIntent s;
     mergeSnapBack := mergeSnapBack s;
     mergeSnapStarted := mergeSnapStarted s; mergeFading := mergeFading s;
     fadeTimers := fadeTimers s; detailMode := detailMode s;
     pendingDetail := pendingDetail s; dwellTimer := v;
     prefetchTimer := prefetchTimer s; lastMouseX := lastMouseX s |}.
Definition setPrefetchTimer (v : option Timer) (s : State) : State :=
  {| segments := segments s; currentTime := currentTime s;
     detailThumbnails := detailThumbnails s; requests := requests s;
     settled := settled s; dragging := dragging s;
     deleteIntent := deleteIntent s; snapBack := snapBack s;
     snapStarted := snapStarted s; mergeIntent := mergeIntent s;
     mergeSnapBack := mergeSnapBack s;
     mergeSnapStarted := mergeSnapStarted s; mergeFading := mergeFading s;
     fadeTimers := fadeTimers s; detailMode := detailMode s;
     pendingDetail := pendingDetail s; dwellTimer := dwellTimer s;
     prefetchTimer := v; lastMouseX := lastMouseX s |}.
Definition setLastMouseX (v : Q) (s : State) : State :=
  {| segments := segments s; currentTime := currentTime s;
     detailThumbnails := detailThumbnails s; requests := requests s;
     settled := settled s; dragging := dragging s;
     deleteIntent := deleteIntent s; snapBack := snapBack s;
     snapStarted := snapStarted s; mergeIntent := mergeIntent s;
     mergeSnapBack := mergeSnapBack s;
     mergeSnapStarted := mergeSnapStarted s; mergeFading := mergeFading s;
     fadeTimers := fadeTimers s; detailMode := detailMode s;
     pendingDetail := pendingDetail s; dwellTimer := dwellTimer s;
     prefetchTimer := prefetchTimer s; lastMouseX := v |}.

(** ** Coordinate mapper *)

Definition timeToPercent (env : Env) (time : Q) : Q :=
  if Qltb 0 (duration env) then (time / duration env) * 100 else 0.

Definition percentToTime (env : Env) (percent : Q) : Q :=
  (percent / 100) * duration env.

Definition getPercentFromEvent (env : Env) (clientX : Q) : option Q :=
  match container env with
  | None => Some 0
  | Some rect =>
      let x := clientX - rect_left rect in
      r ← js_div x (rect_width rect);
      Some (Math_max 0 (Math_min 100 (r * 100)))
  end.

Definition getPxFromEvent (env : Env) (clientX : Q) : Q :=
  match container env with
  | None => 0
  | Some rect => clientX - rect_left rect
  end.

Definition getContainerWidth (env : Env) : Q :=
  match container env with
  | Some rect => rect_width rect
  | None => 1
  end.

(** ** Detail window *)

Definition computeDetailWindow (env : Env) (handleTime : Q)
    (segmentIndex : nat) (edge : Edge) : option DetailMode :=
  handlePct ← js_div handleTime (duration env);
  let windowSize := duration env / 2 in
  let vStart := handleTime - handlePct * windowSize in
  let vEnd := vStart + windowSize in
  let '(vStart, vEnd) :=
    if Qltb vStart 0 then (0, Math_min (duration env) windowSize)
    else (vStart, vEnd) in
  let '(vStart, vEnd) :=
    if Qltb (duration env) vEnd
    then (Math_max 0 (duration env - windowSize), duration env)
    else (vStart, vEnd) in
  Some {| viewStart := vStart; viewEnd := vEnd; handleTime := handleTime;
          dm_segmentIndex := segmentIndex; dm_edge := edge |}.

(** ** Host callbacks (edit screen) *)

Notation "s |> f" := (f s) (at level 50, left associativity, only parsing).

Definition onSegmentsChange (updated : list TrimSegment) (s : State) : State :=
  setSegments updated s.

Definition onSeek (time : Q) (s : State) : State := setCurrentTime time s.

(** [api.getVideoThumbnailsRange(...).then(setDetailThumbnails)]: the call
    is recorded; its answer is the event [EvDetailThumbnails] below. *)
Definition onRequestDetailThumbnails (startTime endTime : Q) (s : State)
    : State :=
  setRequests (requests s ++ [(startTime, endTime)]) s.

Definition onClearDetailThumbnails (s : State) : State :=
  setDetailThumbnails None s.

(** The promise of request [request] resolves with [thumbs]. *)
Definition resolveDetailThumbnails (request : nat) (thumbs : list string)
    (s : State) : State :=
  s |> setSettled (request :: settled s) |> setDetailThumbnails (Some thumbs).

(** ** Proximity blender *)

Definition SEGMENT_COLORS : list string :=
  ["#FFB74D"; "#4DD0E1"; "#AED581"; "#BA68C8";
   "#FF8A65"; "#4FC3F7"; "#DCE775"; "#F06292"]%string.

Definition segmentColor (i : nat) : string :=
  nth (i mod length SEGMENT_COLORS) SEGMENT_COLORS ""%string.

Record ProximityInfo := {
  proximity : Q;
  neighborColor : string;
  neighborIndex : nat;
}.

(** The keys [`start-${i}`] and [`end-${i}`]. *)
Definition handleKey (edge : Edge) (i : nat) : string :=
  match edge with
  | EdgeStart => "start-" +:+ String_of_index i
  | EdgeEnd => "end-" +:+ String_of_index i
  end.
Arguments handleKey : simpl never.

(** One turn of the loop of [handleProximity], for the pair [(i, i+1)]. *)
Definition proximityStep (env : Env) (segs : list TrimSegment)
    (info : gmap string ProximityInfo) (i : nat)
    : option (gmap string ProximityInfo) :=
  let cw := getContainerWidth env in
  l ← segs !! i;
  r ← segs !! (i + 1)%nat;
  let leftActive := is_active l in
  let rightActive := is_active r in
  if negb (eqb leftActive rightActive) then Some info
  else
    endFrac ← js_div (seg_end l) (duration env);
    startFrac ← js_div (seg_start r) (duration env);
    let endPx := endFrac * cw in
    let startPx := startFrac * cw in
    let gapPx := startPx - endPx in
    if Qltb gapPx HANDLE_WIDTH_PX then
      let proximity := Math_max 0 (Math_min 1 (1 - gapPx / HANDLE_WIDTH_PX)) in
      let leftColor := segmentColor i in
      let rightColor := segmentColor (i + 1) in
      Some (<[handleKey EdgeStart (i + 1) :=
                {| proximity := proximity; neighborColor := leftColor;
                   neighborIndex := i |}]>
            (<[handleKey EdgeEnd i :=
                {| proximity := proximity; neighborColor := rightColor;
                   neighborIndex := (i + 1)%nat |}]> info))
    else Some info.

Fixpoint proximityLoop (env : Env) (segs : list TrimSegment)
    (indices : list nat) (info : gmap string ProximityInfo)
    : option (gmap string ProximityInfo) :=
  match indices with
  | [] => Some info
  | i :: rest =>
      info' ← proximityStep env segs info i;
      proximityLoop env segs rest info'
  end.

Definition handleProximity (env : Env) (segs : list TrimSegment)
    : option (gmap string ProximityInfo) :=
  proximityLoop env segs (seq 0 (length segs - 1)) ∅.

(** [blend && blend.proximity > 0.5]. *)
Definition significantOverlap (blend : option ProximityInfo) : bool :=
  match blend with
  | Some b => Qltb 0.5 (proximity b)
  | None => false
  end.

(** ** Detail magnifier *)

Definition prefetchDetailThumbnails (env : Env) (handleTime : Q)
    (segmentIndex : nat) (edge : Edge) (s : State) : option State :=
  dm ← computeDetailWindow env handleTime segmentIndex edge;
  Some (s |> setPendingDetail (Some dm)
          |> onRequestDetailThumbnails (viewStart dm) (viewEnd dm)).

Definition withHandleTime (dm : DetailMode) (t : Q) : DetailMode :=
  {| viewStart := viewStart dm; viewEnd := viewEnd dm; handleTime := t;
     dm_segmentIndex := dm_segmentIndex dm; dm_edge := dm_edge dm |}.

(** [dm.handleTime = handleTime] writes into the object that
    [pendingDetailRef] still points to, when there is one. *)
Definition activateDetailMode (env : Env) (handleTime : Q)
    (segmentIndex : nat) (edge : Edge) (s : State) : option State :=
  match detailMode s with
  | Some _ => Some s
  | None =>
      match pendingDetail s with
      | Some p =>
          let dm := withHandleTime p handleTime in
          Some (s |> setPendingDetail (Some dm) |> setDetailMode (Some dm))
      | None =>
          dm ← computeDetailWindow env handleTime segmentIndex edge;
          Some (s |> setDetailMode (Some (withHandleTime dm handleTime)))
      end
  end.

Definition exitDetailMode (s : State) : State :=
  s |> setDwellTimer None |> setPrefetchTimer None
    |> setDetailMode None |> setPendingDetail None
    |> onClearDetailThumbnails.

Definition startDetailTimers (now : nat) (handleTime : Q) (segmentIndex : nat)
    (edge : Edge) (clientX : Q) (s : State) : State :=
  s |> setLastMouseX clientX
    |> setPrefetchTimer (Some {| due := (now + PREFETCH_MS)%nat;
                                 tm_handleTime := handleTime;
                                 tm_segmentIndex := segmentIndex;
                                 tm_edge := edge |})
    |> setDwellTimer (Some {| due := (now + DWELL_MS)%nat;
                              tm_handleTime := handleTime;
                              tm_segmentIndex := segmentIndex;
                              tm_edge := edge |}).

(** The callback of the 200 ms timer. *)
Definition prefetchTimeout (env : Env) (s : State) : option State :=
  match prefetchTimer s with
  | None => Some s
  | Some tm =>
      match detailMode s with
      | None => prefetchDetailThumbnails env (tm_handleTime tm)
                  (tm_segmentIndex tm) (tm_edge tm) (setPrefetchTimer None s)
      | Some _ => Some (setPrefetchTimer None s)
      end
  end.

(** The callback of the [DWELL_MS] timer. *)
Definition dwellTimeout (env : Env) (s : State) : option State :=
  match dwellTimer s with
  | None => Some s
  | Some tm =>
      match detailMode s with
      | None => activateDetailMode env (tm_handleTime tm)
                  (tm_segmentIndex tm) (tm_edge tm) (setDwellTimer None s)
      | Some _ => Some (setDwellTimer None s)
      end
  end.

(** ** Gesture resolver: pointer presses *)

Definition handleHandleMouseDown (now : nat) (clientX : Q)
    (segmentIndex : nat) (edge : Edge) (s : State) : option State :=
  seg ← segments s !! segmentIndex;
  let handleTime :=
    match edge with EdgeStart => seg_start seg | EdgeEnd => seg_end seg end in
  Some (s |> setDragging (Some (DragHandle edge segmentIndex))
          |> setDeleteIntent None |> setSnapBack None
          |> exitDetailMode
          |> startDetailTimers now handleTime segmentIndex edge clientX).

Definition handleSharedHandleMouseDown (clientX : Q)
    (leftIndex rightIndex : nat) (s : State) : State :=
  s |> setDragging (Some (DragShared leftIndex rightIndex clientX false))
    |> setDeleteIntent None |> setSnapBack None
    |> exitDetailMode.

(** [onMouseDown] of the handle element of segment [i]: the render chooses
    the shared handler when the memoised record says that the handle
    overlaps its neighbour. *)
Definition handle_onMouseDown (env : Env) (now : nat) (clientX : Q)
    (i : nat) (edge : Edge) (s : State) : option State :=
  info ← handleProximity (atMemo env) (segments s);
  let blend := info !! handleKey edge i in
  match blend with
  | Some b =>
      if significantOverlap blend then
        match edge with
        | EdgeStart =>
            Some (handleSharedHandleMouseDown clientX (neighborIndex b) i s)
        | EdgeEnd =>
            Some (handleSharedHandleMouseDown clientX i (neighborIndex b) s)
        end
      else handleHandleMouseDown now clientX i edge s
  | None => handleHandleMouseDown now clientX i edge s
  end.

(** The drag target a handle yields when it is the closest one. *)
Definition handleTarget (info : gmap string ProximityInfo) (clientX : Q)
    (edge : Edge) (i : nat) : DragTarget :=
  let blend := info !! handleKey edge i in
  match blend with
  | Some b =>
      if significantOverlap blend then
        match edge with
        | EdgeStart => DragShared (neighborIndex b) i clientX false
        | EdgeEnd => DragShared i (neighborIndex b) clientX false
        end
      else DragHandle edge i
  | None => DragHandle edge i
  end.

(** The body of the loop of [handleTrackMouseDown] for segment [i]. *)
Definition closestStep (env : Env) (info : gmap string ProximityInfo)
    (rect : DOMRect) (clickX clientX : Q)
    (acc : option DragTarget * Q) (i : nat) (seg : TrimSegment)
    : option DragTarget * Q :=
  let '(closest, closestDist) := acc in
  let startPx := (timeToPercent env (seg_start seg) / 100) * rect_width rect in
  let endPx := (timeToPercent env (seg_end seg) / 100) * rect_width rect in
  let distToStart := Math_abs (clickX - startPx) in
  let '(closest, closestDist) :=
    if Qltb distToStart closestDist
    then (Some (handleTarget info clientX EdgeStart i), distToStart)
    else (closest, closestDist) in
  let distToEnd := Math_abs (clickX - endPx) in
  if Qltb distToEnd closestDist
  then (Some (handleTarget info clientX EdgeEnd i), distToEnd)
  else (closest, closestDist).

Fixpoint closestLoop (env : Env) (info : gmap string ProximityInfo)
    (rect : DOMRect) (clickX clientX : Q) (i : nat)
    (segs : list TrimSegment) (acc : option DragTarget * Q)
    : option DragTarget * Q :=
  match segs with
  | [] => acc
  | seg :: rest =>
      closestLoop env info rect clickX clientX (S i) rest
        (closestStep env info rect clickX clientX acc i seg)
  end.

Definition closestHandle (env : Env) (info : gmap string ProximityInfo)
    (rect : DOMRect) (clientX : Q) (segs : list TrimSegment)
    : option DragTarget :=
  let clickX := clientX - rect_left rect in
  fst (closestLoop env info rect clickX clientX 0 segs (None, HANDLE_SNAP_PX)).

Definition handleTrackMouseDown (env : Env) (now : nat) (clientX : Q)
    (s : State) : option State :=
  percent ← getPercentFromEvent env clientX;
  let time := percentToTime env percent in
  closest ←
    match container env with
    | Some rect =>
        info ← handleProximity (atMemo env) (segments s);
        Some (closestHandle env info rect clientX (segments s))
    | None => Some None
    end;
  match closest with
  | Some target =>
      let s' := s |> setDragging (Some target)
                  |> setDeleteIntent None |> setSnapBack None
                  |> exitDetailMode in
      match target with
      | DragHandle edge segmentIndex =>
          seg ← segments s !! segmentIndex;
          let handleTime :=
            match edge with
            | EdgeStart => seg_start seg
            | EdgeEnd => seg_end seg
            end in
          Some (startDetailTimers now handleTime segmentIndex edge clientX s')
      | _ => Some s'
      end
  | None =>
      Some (s |> setDragging (Some DragPlayhead)
              |> onSeek (Math_max 0 (Math_min (duration env) time)))
  end.

(** ** Drag state machine *)

(** Which branch of [handleMouseMove] handled the move. *)
Inductive MoveKind :=
| MoveIgnored          (* no drag in progress: no listener *)
| MovePlayhead
| MoveSharedWait       (* shared handle, less than 2 px *)
| MoveSharedResolved
| MoveDetail           (* detail trim mode *)
| MoveDeleteIntent
| MoveDeleteCommit     (* delete progress reached 1.0 *)
| MoveMergeIntent
| MoveMergeCommit      (* merge progress reached 1.0 *)
| MoveNormal.

Definition currentOpacity (progress : Q) : Q :=
  Math_min 1 (0.6 + progress * 0.8).

(** [clearTimeout] of both timers. *)
Definition clearTimers (s : State) : State :=
  s |> setDwellTimer None |> setPrefetchTimer None.

(** [segments[idx - 1].end] when there is a previous segment, else [0]. *)
Definition minStartOf (segs : list TrimSegment) (idx : nat) : option Q :=
  if (0 <? idx)%nat then seg_end <$> segs !! (idx - 1)%nat else Some 0.

(** [segments[idx + 1].start] when there is a next segment, else
    [duration]. *)
Definition maxEndOf (env : Env) (segs : list TrimSegment) (idx : nat)
    : option Q :=
  if (idx <? length segs - 1)%nat then seg_start <$> segs !! (idx + 1)%nat
  else Some (duration env).

(** Detail trim mode: the pointer is mapped through the zoomed window. *)
Definition detailScrub (env : Env) (clientX : Q) (edge : Edge) (idx : nat)
    (seg : TrimSegment) (dm : DetailMode) (s : State) : option State :=
  detailPct ← getPercentFromEvent env clientX;
  let detailRange := viewEnd dm - viewStart dm in
  let detailTime := viewStart dm + (detailPct / 100) * detailRange in
  '(newTime, updated) ←
    match edge with
    | EdgeStart =>
        minStart ← minStartOf (segments s) idx;
        let newTime :=
          Math_max minStart (Math_min detailTime (seg_end seg - 0.1)) in
        Some (newTime, <[idx := with_start seg newTime]> (segments s))
    | EdgeEnd =>
        maxEnd ← maxEndOf env (segments s) idx;
        let newTime :=
          Math_min maxEnd (Math_max detailTime (seg_start seg + 0.1)) in
        Some (newTime, <[idx := with_end seg newTime]> (segments s))
    end;
  Some (s |> onSegmentsChange updated
          |> setDetailMode (Some (withHandleTime dm newTime))
          |> onSeek newTime
          |> setDwellTimer None
          |> setLastMouseX clientX).

(** Normal handle drag of a start handle. *)
Definition startHandleMove (env : Env) (now : nat) (clientX time : Q)
    (idx : nat) (seg : TrimSegment) (s : State) : option (MoveKind * State) :=
  let segs := segments s in
  let canDelete := (1 <? length segs)%nat in
  let cw := getContainerWidth env in
  let hasPrev := (0 <? idx)%nat in
  minStart ← minStartOf segs idx;
  let anchorPct := timeToPercent env (seg_end seg) in
  let segExtentPct := timeToPercent env (seg_start seg) in
  if canDelete && Qltb (seg_end seg) time then
    (* 1) delete intent: start handle crossed past own end handle *)
    let s := setMergeIntent None s in
    let endPx := (anchorPct / 100) * cw in
    let cursorPx := getPxFromEvent env clientX in
    let overshootPx := Math_max 0 (cursorPx - endPx) in
    let progress := Math_min 1 (overshootPx / DELETE_THRESHOLD_PX) in
    let dampenedPx := rubberBand env overshootPx in
    d ← js_div dampenedPx cw;
    let dampenedCursorPct := anchorPct + d * 100 in
    if Qle_bool 1 progress then
      Some (MoveDeleteCommit,
            s |> setDeleteIntent None |> setDragging None
              |> setSnapBack (Some {| sb_segmentIndex := idx;
                                      sb_leftPct := segExtentPct;
                                      sb_rightPct := dampenedCursorPct;
                                      sb_direction := DirRight;
                                      deleteAfter := true;
                                      sb_initialOpacity :=
                                        currentOpacity progress |})
              |> setSnapStarted false |> clearTimers)
    else
      Some (MoveDeleteIntent,
            s |> setDeleteIntent (Some {| di_segmentIndex := idx;
                                          di_progress := progress;
                                          di_anchorPct := anchorPct;
                                          di_segExtentPct := segExtentPct;
                                          di_cursorPct := dampenedCursorPct;
                                          di_direction := DirRight |})
              |> clearTimers)
  else if hasPrev && Qltb time minStart then
    (* 2) merge intent: start handle crossed past previous out-point *)
    let s := setDeleteIntent None s in
    let boundaryPx := (timeToPercent env minStart / 100) * cw in
    let cursorPx := getPxFromEvent env clientX in
    let overshootPx := Math_max 0 (boundaryPx - cursorPx) in
    let progress := Math_min 1 (overshootPx / MERGE_THRESHOLD_PX) in
    let dampenedPx := rubberBand env overshootPx in
    let boundaryPct := timeToPercent env minStart in
    d ← js_div dampenedPx cw;
    let dampenedCursorPct := boundaryPct - d * 100 in
    if Qle_bool 1 progress then
      Some (MoveMergeCommit,
            s |> setMergeIntent None |> setDragging None
              |> setMergeSnapBack
                   (Some {| msb_segmentIndex := idx;
                            msb_targetSegmentIndex := (idx - 1)%nat;
                            msb_leftPct := dampenedCursorPct;
                            msb_rightPct := boundaryPct;
                            msb_direction := DirLeft;
                            commitAfter := true;
                            msb_initialOpacity := currentOpacity progress |})
              |> setMergeSnapStarted false |> clearTimers)
    else
      Some (MoveMergeIntent,
            s |> setMergeIntent
                   (Some {| mi_segmentIndex := idx;
                            mi_targetSegmentIndex := (idx - 1)%nat;
                            mi_progress := progress;
                            mi_anchorPct := boundaryPct;
                            mi_cursorPct := dampenedCursorPct;
                            mi_direction := DirLeft |})
              |> clearTimers)
  else
    (* 3) normal drag *)
    let s := s |> setDeleteIntent None |> setMergeIntent None in
    let newStart := Math_max minStart (Math_min time (seg_end seg - 0.1)) in
    let updated := <[idx := with_start seg newStart]> segs in
    Some (MoveNormal,
          s |> onSegmentsChange updated |> onSeek newStart
            |> startDetailTimers now newStart idx EdgeStart clientX).

(** Normal handle drag of an end handle. *)
Definition endHandleMove (env : Env) (now : nat) (clientX time : Q)
    (idx : nat) (seg : TrimSegment) (s : State) : option (MoveKind * State) :=
  let segs := segments s in
  let canDelete := (1 <? length segs)%nat in
  let cw := getContainerWidth env in
  let hasNext := (idx <? length segs - 1)%nat in
  maxEnd ← maxEndOf env segs idx;
  let anchorPct := timeToPercent env (seg_start seg) in
  let segExtentPct := timeToPercent env (seg_end seg) in
  if canDelete && Qltb time (seg_start seg) then
    (* 1) delete intent: end handle crossed past own start handle *)
    let s := setMergeIntent None s in
    let startPx := (anchorPct / 100) * cw in
    let cursorPx := getPxFromEvent env clientX in
    let overshootPx := Math_max 0 (startPx - cursorPx) in
    let progress := Math_min 1 (overshootPx / DELETE_THRESHOLD_PX) in
    let dampenedPx := rubberBand env overshootPx in
    d ← js_div dampenedPx cw;
    let dampenedCursorPct := anchorPct - d * 100 in
    if Qle_bool 1 progress then
      Some (MoveDeleteCommit,
            s |> setDeleteIntent None |> setDragging None
              |> setSnapBack (Some {| sb_segmentIndex := idx;
                                      sb_leftPct := dampenedCursorPct;
                                      sb_rightPct := segExtentPct;
                                      sb_direction := DirLeft;
                                      deleteAfter := true;
                                      sb_initialOpacity :=
                                        currentOpacity progress |})
              |> setSnapStarted false |> clearTimers)
    else
      Some (MoveDeleteIntent,
            s |> setDeleteIntent (Some {| di_segmentIndex := idx;
                                          di_progress := progress;
                                          di_anchorPct := anchorPct;
                                          di_segExtentPct := segExtentPct;
                                          di_cursorPct := dampenedCursorPct;
                                          di_direction := DirLeft |})
              |> clearTimers)
  else if hasNext && Qltb maxEnd time then
    (* 2) merge intent: end handle crossed past next in-point *)
    let s := setDeleteIntent None s in
    let boundaryPx := (timeToPercent env maxEnd / 100) * cw in
    let cursorPx := getPxFromEvent env clientX in
    let overshootPx := Math_max 0 (cursorPx - boundaryPx) in
    let progress := Math_min 1 (overshootPx / MERGE_THRESHOLD_PX) in
    let dampenedPx := rubberBand env overshootPx in
    let boundaryPct := timeToPercent env maxEnd in
    d ← js_div dampenedPx cw;
    let dampenedCursorPct := boundaryPct + d * 100 in
    if Qle_bool 1 progress then
      Some (MoveMergeCommit,
            s |> setMergeIntent None |> setDragging None
              |> setMergeSnapBack
                   (Some {| msb_segmentIndex := idx;
                            msb_targetSegmentIndex := (idx + 1)%nat;
                            msb_leftPct := boundaryPct;
                            msb_rightPct := dampenedCursorPct;
                            msb_direction := DirRight;
                            commitAfter := true;
                            msb_initialOpacity := currentOpacity progress |})
              |> setMergeSnapStarted false |> clearTimers)
    else
      Some (MoveMergeIntent,
            s |> setMergeIntent
                   (Some {| mi_segmentIndex := idx;
                            mi_targetSegmentIndex := (idx + 1)%nat;
                            mi_progress := progress;
                            mi_anchorPct := boundaryPct;
                            mi_cursorPct := dampenedCursorPct;
                            mi_direction := DirRight |})
              |> clearTimers)
  else
    (* 3) normal drag *)
    let s := s |> setDeleteIntent None |> setMergeIntent None in
    let newEnd := Math_min maxEnd (Math_max time (seg_start seg + 0.1)) in
    let updated := <[idx := with_end seg newEnd]> segs in
    Some (MoveNormal,
          s |> onSegmentsChange updated |> onSeek newEnd
            |> startDetailTimers now newEnd idx EdgeEnd clientX).

(** Is the detail view active for exactly this handle? *)
Definition detailFor (s : State) (edge : Edge) (idx : nat)
    : option DetailMode :=
  match detailMode s with
  | Some dm =>
      if (dm_segmentIndex dm =? idx)%nat && bool_decide (dm_edge dm = edge)
      then Some dm else None
  | None => None
  end.

Definition handleMouseMove (env : Env) (now : nat) (clientX : Q) (s : State)
    : option (MoveKind * State) :=
  match dragging s with
  | None => Some (MoveIgnored, s)
  | Some target =>
      percent ← getPercentFromEvent env clientX;
      let time := percentToTime env percent in
      match target with
      | DragPlayhead =>
          Some (MovePlayhead,
                onSeek (Math_max 0 (Math_min (duration env) time)) s)
      | DragShared leftIndex rightIndex startX false =>
          let dx := clientX - startX in
          if Qltb (Math_abs dx) 2 then Some (MoveSharedWait, s)
          else if Qltb 0 dx then
            rightSeg ← segments s !! rightIndex;
            Some (MoveSharedResolved,
                  s |> setDragging (Some (DragHandle EdgeStart rightIndex))
                    |> startDetailTimers now (seg_start rightSeg) rightIndex
                         EdgeStart clientX)
          else
            leftSeg ← segments s !! leftIndex;
            Some (MoveSharedResolved,
                  s |> setDragging (Some (DragHandle EdgeEnd leftIndex))
                    |> startDetailTimers now (seg_end leftSeg) leftIndex
                         EdgeEnd clientX)
      | DragShared _ _ _ true => Some (MoveSharedWait, s)
      | DragHandle edge idx =>
          seg ← segments s !! idx;
          match detailFor s edge idx with
          | Some dm =>
              s' ← detailScrub env clientX edge idx seg dm s;
              Some (MoveDetail, s')
          | None =>
              match edge with
              | EdgeStart => startHandleMove env now clientX time idx seg s
              | EdgeEnd => endHandleMove env now clientX time idx seg s
              end
          end
      end
  end.

(** The snap-back a release builds from the live delete intent
    ([deleteAfter: false]). *)
Definition revertSnapBack (di : DeleteIntent) : SnapBack :=
  let leftPct :=
    match di_direction di with
    | DirRight => di_segExtentPct di
    | DirLeft => di_cursorPct di
    end in
  let rightPct :=
    match di_direction di with
    | DirRight => di_cursorPct di
    | DirLeft => di_segExtentPct di
    end in
  {| sb_segmentIndex := di_segmentIndex di;
     sb_leftPct := leftPct;
     sb_rightPct := rightPct;
     sb_direction := di_direction di;
     deleteAfter := false;
     sb_initialOpacity := currentOpacity (di_progress di) |}.

(** The snap-back a release builds from the live merge intent
    ([commitAfter: false]). *)
Definition revertMergeSnapBack (mi : MergeIntent) : MergeSnapBack :=
  let leftPct :=
    match mi_direction mi with
    | DirLeft => mi_cursorPct mi
    | DirRight => mi_anchorPct mi
    end in
  let rightPct :=
    match mi_direction mi with
    | DirLeft => mi_anchorPct mi
    | DirRight => mi_cursorPct mi
    end in
  {| msb_segmentIndex := mi_segmentIndex mi;
     msb_targetSegmentIndex := mi_targetSegmentIndex mi;
     msb_leftPct := leftPct;
     msb_rightPct := rightPct;
     msb_direction := mi_direction mi;
     commitAfter := false;
     msb_initialOpacity := currentOpacity (mi_progress mi) |}.

Definition handleMouseUp (s : State) : State :=
  match dragging s with
  | None => s
  | Some target =>
      let s := clearTimers s in
      match target with
      | DragShared _ _ _ _ => setDragging None s
      | _ =>
          let s :=
            match target, deleteIntent s, mergeIntent s with
            | DragPlayhead, _, _ => s          (* onScrubEnd *)
            | _, Some di, _ =>
                s |> setSnapBack (Some (revertSnapBack di))
                  |> setSnapStarted false
            | _, None, Some mi =>
                s |> setMergeSnapBack (Some (revertMergeSnapBack mi))
                  |> setMergeSnapStarted false
            | _, None, None => s
            end in
          s |> exitDetailMode |> setDeleteIntent None |> setMergeIntent None
            |> setDragging None
      end
  end.

(** ** Intent commit engine *)

Definition handleSnapTransitionEnd (propertyName : string) (s : State)
    : State :=
  if bool_decide (propertyName = "width"%string) then
    let s :=
      match snapBack s with
      | Some sb =>
          if deleteAfter sb
          then onSegmentsChange (delete (sb_segmentIndex sb) (segments s)) s
          else s
      | None => s
      end in
    s |> setSnapBack None |> setSnapStarted false
  else s.

(** Phase 1 of the merge: the segment at [a] is widened, the one at [b]
    stays until the fade timer fires. *)
Definition handleMergeSnapTransitionEnd (now : nat) (propertyName : string)
    (s : State) : option State :=
  if bool_decide (propertyName = "width"%string) then
    s' ←
      match mergeSnapBack s with
      | Some msb =>
          if commitAfter msb then
            let '(a, b) :=
              js_default_sort2 (msb_segmentIndex msb)
                (msb_targetSegmentIndex msb) in
            segB ← segments s !! b;
            let absorbedId := seg_id segB in
            segA ← segments s !! a;
            let expanded :=
              {| seg_id := seg_id segA; seg_start := seg_start segA;
                 seg_end := seg_end segB; seg_active := None |} in
            let updated := <[a := expanded]> (segments s) in
            Some (s |> onSegmentsChange updated
                    |> setMergeFading (Some absorbedId)
                    |> setFadeTimers
                         (fadeTimers s ++
                          [((now + MERGE_FADE_MS)%nat, absorbedId)]))
          else Some s
      | None => Some s
      end;
    Some (s' |> setMergeSnapBack None |> setMergeSnapStarted false)
  else Some s.

Definition idIsNot (absorbedId : string) (seg : TrimSegment) : bool :=
  negb (String.eqb (seg_id seg) absorbedId).

(** Phase 2 of the merge: the callback of the 450 ms timer. *)
Definition mergeFadeTimeout (timer : nat * string) (s : State) : State :=
  let absorbedId := snd timer in
  let current := segments s in
  let filtered := List.filter (idIsNot absorbedId) current in
  let s :=
    if negb (length filtered =? length current)%nat
    then onSegmentsChange filtered s else s in
  s |> setMergeFading None
    |> setFadeTimers
         (List.filter
            (fun t => negb ((fst t =? fst timer)%nat
                            && String.eqb (snd t) (snd timer)))
            (fadeTimers s)).

(** ** Edit screen: keyboard marking, shot detection, activation toggle *)

Fixpoint findIndex {A : Type} (p : A -> bool) (l : list A) : option nat :=
  match l with
  | [] => None
  | x :: rest => if p x then Some 0%nat else S <$> findIndex p rest
  end.

(** [currentTime >= s.start && currentTime <= s.end]. *)
Definition playheadInside (t : Q) (seg : TrimSegment) : bool :=
  Qle_bool (seg_start seg) t && Qle_bool t (seg_end seg).

(** [.sort((a, b) => a.start - b.start)]: a stable sort by [start]. *)
Fixpoint insertByStart (x : TrimSegment) (l : list TrimSegment)
    : list TrimSegment :=
  match l with
  | [] => [x]
  | y :: rest =>
      if Qle_bool (seg_start x) (seg_start y) then x :: y :: rest
      else y :: insertByStart x rest
  end.

Definition sortByStart (l : list TrimSegment) : list TrimSegment :=
  foldr insertByStart [] l.

Definition handleKeyDown (env : Env) (key : string) (newId : string)
    (s : State) : State :=
  let ct := currentTime s in
  if bool_decide (key = "["%string) then
    match findIndex (playheadInside ct) (segments s) with
    | Some insideIdx =>
        match segments s !! insideIdx with
        | Some seg =>
            setSegments (<[insideIdx := with_start seg ct]> (segments s)) s
        | None => s
        end
    | None =>
        let newSeg :=
          {| seg_id := newId; seg_start := ct;
             seg_end := Math_min (ct + frameDuration env) (duration env);
             seg_active := None |} in
        setSegments (sortByStart (segments s ++ [newSeg])) s
    end
  else if bool_decide (key = "]"%string) then
    match findIndex (playheadInside ct) (segments s) with
    | Some insideIdx =>
        match segments s !! insideIdx with
        | Some seg =>
            setSegments (<[insideIdx := with_end seg ct]> (segments s)) s
        | None => s
        end
    | None =>
        let newSeg :=
          {| seg_id := newId;
             seg_start := Math_max (ct - frameDuration env) 0;
             seg_end := ct; seg_active := None |} in
        setSegments (sortByStart (segments s ++ [newSeg])) s
    end
  else s.

(** [handleFindShots] once [api.findShots] has answered: each scene comes
    with the identifier [newSegmentId()] gave it. *)
Definition sceneSegment (env : Env) (scene : string * Q * Q) : TrimSegment :=
  let '(newId, sceneStart, sceneEnd) := scene in
  {| seg_id := newId; seg_start := sceneStart;
     seg_end := Math_min sceneEnd (duration env); seg_active := Some true |}.

Definition handleFindShots (env : Env) (scenes : list (string * Q * Q))
    (s : State) : State :=
  match scenes with
  | [] => s
  | _ => setSegments (sceneSegment env <$> scenes) s
  end.

Definition toggleActive (seg : TrimSegment) : TrimSegment :=
  {| seg_id := seg_id seg; seg_start := seg_start seg; seg_end := seg_end seg;
     seg_active := Some (negb (is_active seg)) |}.

(** [onDoubleClick] of the overlay of segment [i]. *)
Definition handleDoubleClick (i : nat) (s : State) : State :=
  onSegmentsChange (imap (fun idx seg => if (idx =? i)%nat
                                         then toggleActive seg else seg)
                         (segments s)) s.

(** ** Events and runs *)

Inductive Event :=
| EvHandleMouseDown (clientX : Q) (segmentIndex : nat) (edge : Edge)
| EvTrackMouseDown (clientX : Q)
| EvMouseMove (clientX : Q)
| EvMouseUp
| EvSnapFrame
| EvMergeSnapFrame
| EvSnapTransitionEnd (propertyName : string)
| EvMergeSnapTransitionEnd (propertyName : string)
| EvMergeFadeTimeout (timer : nat * string)
| EvPrefetchTimeout
| EvDwellTimeout
| EvDetailThumbnails (request : nat) (thumbs : list string)
| EvKeyDown (key : string) (newId : string)
| EvFindShots (scenes : list (string * Q * Q))
| EvDoubleClick (i : nat)
| EvTimeUpdate (time : Q).

Definition step (env : Env) (now : nat) (ev : Event) (s : State)
    : option State :=
  match ev with
  | EvHandleMouseDown clientX i edge => handle_onMouseDown env now clientX i edge s
  | EvTrackMouseDown clientX => handleTrackMouseDown env now clientX s
  | EvMouseMove clientX => snd <$> handleMouseMove env now clientX s
  | EvMouseUp => Some (handleMouseUp s)
  | EvSnapFrame => Some (setSnapStarted true s)
  | EvMergeSnapFrame => Some (setMergeSnapStarted true s)
  | EvSnapTransitionEnd p => Some (handleSnapTransitionEnd p s)
  | EvMergeSnapTransitionEnd p => handleMergeSnapTransitionEnd now p s
  | EvMergeFadeTimeout timer => Some (mergeFadeTimeout timer s)
  | EvPrefetchTimeout => prefetchTimeout env s
  | EvDwellTimeout => dwellTimeout env s
  | EvDetailThumbnails request thumbs =>
      Some (resolveDetailThumbnails request thumbs s)
  | EvKeyDown key newId => Some (handleKeyDown env key newId s)
  | EvFindShots scenes => Some (handleFindShots env scenes s)
  | EvDoubleClick i => Some (handleDoubleClick i s)
  | EvTimeUpdate time => Some (setCurrentTime time s)
  end.

Definition timerDue (now : nat) (t : option Timer) : bool :=
  match t with
  | Some tm => (due tm <=? now)%nat
  | None => false
  end.

Definition isSome {A : Type} (o : option A) : bool :=
  match o with Some _ => true | None => false end.

(** When the environment can deliver an event: a handle is pressed where
    one is rendered, a timer fires no earlier than it is due, a transition
    ends on a rendered carpet, a promise settles once.  A press can come at
    any time, also during a drag (a second button): no handler looks at
    the button or at the drag in progress. *)
Definition enabled (now : nat) (ev : Event) (s : State) : bool :=
  match ev with
  | EvHandleMouseDown _ i _ => isSome (segments s !! i)
  | EvSnapFrame | EvSnapTransitionEnd _ => isSome (snapBack s)
  | EvMergeSnapFrame | EvMergeSnapTransitionEnd _ => isSome (mergeSnapBack s)
  | EvMergeFadeTimeout timer =>
      (fst timer <=? now)%nat
      && existsb (fun t => (fst t =? fst timer)%nat
                           && String.eqb (snd t) (snd timer)) (fadeTimers s)
  | EvPrefetchTimeout => timerDue now (prefetchTimer s)
  | EvDwellTimeout => timerDue now (dwellTimer s)
  | EvDetailThumbnails request _ =>
      (request <? length (requests s))%nat
      && negb (existsb (Nat.eqb request) (settled s))
  | _ => true
  end.

(** A run: timed events, in order of time, each enabled when it occurs. *)
Fixpoint run (env : Env) (now : nat) (s : State) (tr : list (nat * Event))
    : option (nat * State) :=
  match tr with
  | [] => Some (now, s)
  | (t, ev) :: rest =>
      if (now <=? t)%nat && enabled t ev s then
        s' ← step env t ev s;
        run env t s' rest
      else None
  end.

(** The state on load: one segment spanning the whole duration. *)
Definition seedSegment (env : Env) (newId : string) : TrimSegment :=
  {| seg_id := newId; seg_start := 0; seg_end := duration env;
     seg_active := None |}.

Definition initialState (env : Env) (newId : string) : State :=
  {| segments := [seedSegment env newId]; currentTime := 0;
     detailThumbnails := None; requests := []; settled := [];
     dragging := None; deleteIntent := None; snapBack := None;
     snapStarted := false; mergeIntent := None; mergeSnapBack := None;
     mergeSnapStarted := false; mergeFading := None; fadeTimers := [];
     detailMode := None; pendingDetail := None; dwellTimer := None;
     prefetchTimer := None; lastMouseX := 0 |}.

(** ** Statements of the specification *)

(** What the rounding of one operation on times of the timeline can cost:
    the binary64 numbers up to [duration] are at most [duration / 2^52]
    apart, and an operation rounded to the nearest of them is off by at most
    half of that. *)
Definition roundingSlack (env : Env) : Q :=
  duration env * (1 # 1125899906842624).

(** Detail window containment: the window holds the handle, lies in the
    timeline and is, up to rounding, at most half of it wide. *)
Definition detailWindowContains (env : Env) (h : Q) (dm : DetailMode) : Prop :=
  0 <= viewStart dm /\ viewStart dm <= h /\ h <= viewEnd dm /\
  viewEnd dm <= duration env /\
  viewEnd dm - viewStart dm <= duration env / 2 + roundingSlack env.

(** The window of handle time [h] exists and contains it. *)
Definition detailWindowOk (env : Env) (h : Q) : Prop :=
  exists dm, computeDetailWindow env h 0 EdgeStart = Some dm /\
             detailWindowContains env h dm.

(** A track of [width] pixels at the left of the viewport, over a timeline
    of [d] seconds at 30 frames per second; the record of [handleProximity]
    is up to date and the carpet is drawn undamped. *)
Definition trackEnv (d width : Q) : Env :=
  {| duration := d;
     container := Some {| rect_left := 0; rect_width := width |};
     memoContainer := Some {| rect_left := 0; rect_width := width |};
     frameDuration := 1 # 30;
     rubberBand := fun rawPx => rawPx |}.

Definition segment (name : string) (a b : Q) : TrimSegment :=
  {| seg_id := name; seg_start := a; seg_end := b; seg_active := None |}.

(** The pair [(k, k+1)] exists and both segments have the same activity. *)
Definition sameFlags (segs : list TrimSegment) (k : nat) : Prop :=
  exists l r, segs !! k = Some l /\ segs !! (k + 1)%nat = Some r /\
              is_active l = is_active r.

(** Every proximity entry was written for a pair with equal activity, and
    names the other segment of that pair. *)
Definition entriesOfPairs (segs : list TrimSegment)
    (info : gmap string ProximityInfo) : Prop :=
  forall e j b, info !! handleKey e j = Some b ->
    match e with
    | EdgeEnd => neighborIndex b = (j + 1)%nat /\ sameFlags segs j
    | EdgeStart =>
        exists k, j = (k + 1)%nat /\ neighborIndex b = k /\ sameFlags segs k
    end.

(** A drag target that is either concrete or shared between an
    equal-activity pair. *)
Definition targetOfPairs (segs : list TrimSegment) (t : DragTarget) : Prop :=
  match t with
  | DragShared l r _ _ => r = (l + 1)%nat /\ sameFlags segs l
  | _ => True
  end.

(** A state holding the given segments, with no gesture in progress. *)
Definition storeState (env : Env) (segs : list TrimSegment) : State :=
  setSegments segs (initialState env "seed").

(** The segment [[i, i+1]] named [s<i>]. *)
Definition unitSegment (i : nat) : TrimSegment :=
  segment ("s" +:+ String_of_index i)
    (inject_Z (Z.of_nat i)) (inject_Z (Z.of_nat (S i))).

Definition unitSegments (n : nat) : list TrimSegment :=
  unitSegment <$> seq 0 n.




(** The pointer, in clamped timeline time, is past the sibling boundary of
    the dragged handle: past [seg.end] for a start handle, before
    [seg.start] for an end handle. *)
Definition pastSibling (env : Env) (clientX : Q) (edge : Edge)
    (seg : TrimSegment) : Prop :=
  exists percent, getPercentFromEvent env clientX = Some percent /\
    match edge with
    | EdgeStart => seg_end seg < percentToTime env percent
    | EdgeEnd => percentToTime env percent < seg_start seg
    end.

(** The pixels by which the pointer is beyond the sibling handle. *)
Definition siblingOvershootPx (env : Env) (clientX : Q) (edge : Edge)
    (seg : TrimSegment) : Q :=
  match edge with
  | EdgeStart =>
      getPxFromEvent env clientX
      - (timeToPercent env (seg_end seg) / 100) * getContainerWidth env
  | EdgeEnd =>
      (timeToPercent env (seg_start seg) / 100) * getContainerWidth env
      - getPxFromEvent env clientX
  end.

(** A segment that is not inverted and, up to rounding, at least [0.1]
    long. *)
Definition longEnough (env : Env) (seg : TrimSegment) : Prop :=
  seg_start seg <= seg_end seg /\
  seg_start seg + MIN_SEPARATION - roundingSlack env <= seg_end seg.

(** A segment inside the timeline and long enough. *)
Definition segmentOk (env : Env) (seg : TrimSegment) : Prop :=
  0 <= seg_start seg /\ longEnough env seg /\ seg_end seg <= duration env.

(** The detail-thumbnail channel, seen from the edit screen: a request is
    issued, the thumbnails are cleared, or the promise of a request
    resolves. *)
Inductive ThumbEvent :=
| Requested (startTime endTime : Q)
| Cleared
| Answered (request : nat) (thumbs : list string).

Definition thumbStep (s : State) (ev : ThumbEvent) : State :=
  match ev with
  | Requested startTime endTime =>
      onRequestDetailThumbnails startTime endTime s
  | Cleared => onClearDetailThumbnails s
  | Answered request thumbs => resolveDetailThumbnails request thumbs s
  end.

Definition thumbRun (s : State) (evs : list ThumbEvent) : State :=
  foldl thumbStep s evs.

(** The thumbnails of the latest answer to arrive since the last clear. *)
Fixpoint latestArrival (shown : option (list string)) (evs : list ThumbEvent)
    : option (list string) :=
  match evs with
  | [] => shown
  | Requested _ _ :: rest => latestArrival shown rest
  | Cleared :: rest => latestArrival None rest
  | Answered _ thumbs :: rest => latestArrival (Some thumbs) rest
  end.

Definition isAnswer (ev : Event) : bool :=
  match ev with EvDetailThumbnails _ _ => true | _ => false end.

(** ** The invariant of the segment store *)

Definition sortedByStart (segs : list TrimSegment) : Prop :=
  forall i l r, segs !! i = Some l -> segs !! S i = Some r ->
                seg_start l <= seg_start r.

Definition nonOverlapping (segs : list TrimSegment) : Prop :=
  forall i l r, segs !! i = Some l -> segs !! S i = Some r ->
                seg_end l <= seg_start r.

(** Sorted by start, adjacent segments do not overlap, every segment is
    long enough and lies within [[0, duration]]. *)
Definition storeInvariant (env : Env) (segs : list TrimSegment) : Prop :=
  sortedByStart segs /\ nonOverlapping segs /\ Forall (segmentOk env) segs.

(** The same invariant, threaded along the list: each segment starts no
    earlier than [lo], the end of the one before it. *)
Fixpoint chain (env : Env) (lo : Q) (segs : list TrimSegment) : Prop :=
  match segs with
  | [] => True
  | seg :: rest =>
      lo <= seg_start seg /\ longEnough env seg /\
      seg_end seg <= duration env /\ chain env (seg_end seg) rest
  end.

(** The bounds between which the clamps of a drag keep the handle. *)
Definition prevBound (lo : Q) (segs : list TrimSegment) (idx : nat) : Q :=
  match idx with
  | O => lo
  | S k => from_option seg_end lo (segs !! k)
  end.

Definition nextBound (env : Env) (segs : list TrimSegment) (idx : nat) : Q :=
  from_option seg_start (duration env) (segs !! S idx).

(** Stores reached from the seed by the gestures of the slider: any pointer
    move of a drag (normal, detail or overshoot), the end of a delete
    snap-back, a merge commit run through both of its phases on a pair the
    index sort orders as [(a, a+1)], and a bulk replace by segments that
    satisfy the invariant themselves. *)
Inductive gestureStore (env : Env) : list TrimSegment -> Prop :=
| gs_seed newId : gestureStore env [seedSegment env newId]
| gs_move s now x k s' :
    gestureStore env (segments s) ->
    handleMouseMove env now x s = Some (k, s') ->
    gestureStore env (segments s')
| gs_delete s :
    gestureStore env (segments s) ->
    gestureStore env (segments (handleSnapTransitionEnd "width" s))
| gs_merge s now msb a s1 absorbedId :
    gestureStore env (segments s) ->
    mergeSnapBack s = Some msb -> commitAfter msb = true ->
    js_default_sort2 (msb_segmentIndex msb) (msb_targetSegmentIndex msb)
      = (a, S a) ->
    handleMergeSnapTransitionEnd now "width" s = Some s1 ->
    mergeFading s1 = Some absorbedId ->
    gestureStore env
      (segments (mergeFadeTimeout ((now + MERGE_FADE_MS)%nat, absorbedId) s1))
| gs_replace s scenes :
    gestureStore env (segments s) ->
    storeInvariant env (segments (handleFindShots env scenes s)) ->
    gestureStore env (segments (handleFindShots env scenes s)).

(** ** Dwell timing *)

(** Presses, moves and releases of the pointer. *)
Definition isPointerEvent (ev : Event) : bool :=
  match ev with
  | EvHandleMouseDown _ _ _ | EvTrackMouseDown _ | EvMouseMove _
  | EvMouseUp => true
  | _ => false
  end.

(** The timer, if any, was set at [now] for [delay] ms on the handle [edge]
    of segment [idx], anchored at time [t]. *)
Definition timerSetAt (now delay : nat) (t : Q) (idx : nat) (edge : Edge)
    (timer : option Timer) : Prop :=
  timer = Some {| due := (now + delay)%nat; tm_handleTime := t;
                  tm_segmentIndex := idx; tm_edge := edge |}.

(** A pending timer belongs to the handle being dragged. *)
Definition timersOfDrag (s : State) : Prop :=
  forall tm, dwellTimer s = Some tm \/ prefetchTimer s = Some tm ->
    dragging s = Some (DragHandle (tm_edge tm) (tm_segmentIndex tm)).

(** An active detail view belongs to the handle being dragged. *)
Definition detailOfDrag (s : State) : Prop :=
  forall dm, detailMode s = Some dm ->
    dragging s = Some (DragHandle (dm_edge dm) (dm_segmentIndex dm)).

(** A prefetched window belongs to the handle being dragged, if a handle or
    a shared handle is being dragged at all. *)
Definition pendingOfDrag (s : State) : Prop :=
  forall p, pendingDetail s = Some p ->
    match dragging s with
    | Some (DragHandle e i) => e = dm_edge p /\ i = dm_segmentIndex p
    | Some (DragShared _ _ _ _) => False
    | _ => True
    end.

(** Every pointer event of the history lies at least [DWELL_MS] before the
    due time of the dwell timer. *)
Definition quietSince (hist : list (nat * Event)) (s : State) : Prop :=
  forall t0 e0 tm, In (t0, e0) hist -> isPointerEvent e0 = true ->
    dwellTimer s = Some tm -> (t0 + DWELL_MS <= due tm)%nat.

(** What holds after every run: the history is no later than the clock, and
    timers, detail view and prefetched window belong to the drag. *)
Definition dwellInvariant (hist : list (nat * Event)) (now : nat)
    (s : State) : Prop :=
  (forall t0 e0, In (t0, e0) hist -> (t0 <= now)%nat) /\
  timersOfDrag s /\ detailOfDrag s /\ pendingOfDrag s /\ quietSince hist s.

(** The time of the handle [edge] of a segment. *)
Definition boundaryTime (edge : Edge) (seg : TrimSegment) : Q :=
  match edge with EdgeStart => seg_start seg | EdgeEnd => seg_end seg end.

(** What a pointer move handled as [k] does to the drag, the timers and
    the detail view. *)
Definition moveEffect (t : nat) (k : MoveKind) (s s' : State) : Prop :=
  pendingDetail s' = pendingDetail s /\
  match k with
  | MoveIgnored => s' = s /\ dragging s = None
  | MovePlayhead =>
      dragging s = Some DragPlayhead /\ dragging s' = dragging s /\
      dwellTimer s' = dwellTimer s /\ prefetchTimer s' = prefetchTimer s /\
      detailMode s' = detailMode s
  | MoveSharedWait =>
      s' = s /\ exists l r sx res, dragging s = Some (DragShared l r sx res)
  | MoveSharedResolved =>
      exists l r sx e i seg,
        dragging s = Some (DragShared l r sx false) /\
        dragging s' = Some (DragHandle e i) /\
        segments s !! i = Some seg /\
        timerSetAt t DWELL_MS (boundaryTime e seg) i e (dwellTimer s') /\
        timerSetAt t PREFETCH_MS (boundaryTime e seg) i e (prefetchTimer s') /\
        detailMode s' = detailMode s
  | MoveDetail =>
      exists e i dm h,
        dragging s = Some (DragHandle e i) /\ dragging s' = dragging s /\
        detailFor s e i = Some dm /\
        detailMode s' = Some (withHandleTime dm h) /\
        dwellTimer s' = None /\ prefetchTimer s' = prefetchTimer s
  | MoveDeleteIntent | MoveMergeIntent =>
      exists e i,
        dragging s = Some (DragHandle e i) /\ detailFor s e i = None /\
        dragging s' = dragging s /\ segments s' = segments s /\
        dwellTimer s' = None /\ prefetchTimer s' = None /\
        detailMode s' = detailMode s
  | MoveDeleteCommit | MoveMergeCommit =>
      exists e i,
        dragging s = Some (DragHandle e i) /\ detailFor s e i = None /\
        dragging s' = None /\ segments s' = segments s /\
        dwellTimer s' = None /\ prefetchTimer s' = None /\
        detailMode s' = detailMode s
  | MoveNormal =>
      exists e i seg,
        dragging s = Some (DragHandle e i) /\ detailFor s e i = None /\
        dragging s' = dragging s /\ segments s' !! i = Some seg /\
        currentTime s' = boundaryTime e seg /\
        timerSetAt t DWELL_MS (boundaryTime e seg) i e (dwellTimer s') /\
        timerSetAt t PREFETCH_MS (boundaryTime e seg) i e (prefetchTimer s') /\
        detailMode s' = detailMode s
  end.

(** What a press does: it tears the detail state down and starts a shared
    drag, or the drag of a handle with both timers; a press on the track
    away from every handle starts a playhead drag and touches neither. *)
Definition pressEffect (t : nat) (s s' : State) : Prop :=
  (detailMode s' = None /\ pendingDetail s' = None /\
   dwellTimer s' = None /\ prefetchTimer s' = None /\
   exists l r sx res, dragging s' = Some (DragShared l r sx res)) \/
  (detailMode s' = None /\ pendingDetail s' = None /\
   exists e i seg,
     dragging s' = Some (DragHandle e i) /\ segments s !! i = Some seg /\
     timerSetAt t DWELL_MS (boundaryTime e seg) i e (dwellTimer s') /\
     timerSetAt t PREFETCH_MS (boundaryTime e seg) i e (prefetchTimer s')) \/
  (dragging s' = Some DragPlayhead /\ detailMode s' = detailMode s /\
   pendingDetail s' = pendingDetail s /\ dwellTimer s' = dwellTimer s /\
   prefetchTimer s' = prefetchTimer s).

(** The drag, the timers and the detail state are untouched. *)
Definition sameDrag (s s' : State) : Prop :=
  dragging s' = dragging s /\ dwellTimer s' = dwellTimer s /\
  prefetchTimer s' = prefetchTimer s /\ detailMode s' = detailMode s /\
  pendingDetail s' = pendingDetail s.

(** A target the closest-handle search can produce. *)
Definition isHandleTarget (target : DragTarget) : Prop :=
  match target with DragPlayhead => False | _ => True end.

Definition dragInvariant (s : State) : Prop :=
  timersOfDrag s /\ detailOfDrag s /\ pendingOfDrag s.

(** No timer set before [now] is still pending: a pending timer, if any, was
    set at [now]. *)
Definition timerFresh (now delay : nat) (timer : option Timer) : Prop :=
  forall tm, timer = Some tm -> due tm = (now + delay)%nat.

Definition timersCancelled (now : nat) (s : State) : Prop :=
  timerFresh now DWELL_MS (dwellTimer s) /\
  timerFresh now PREFETCH_MS (prefetchTimer s).

Definition isPress (ev : Event) : bool :=
  match ev with
  | EvHandleMouseDown _ _ _ | EvTrackMouseDown _ => true
  | _ => false
  end.

(** What a pointer move handled as [k] at [t] leaves of the timers: a normal
    move and the resolution of a shared handle set both anew on the handle,
    an overshoot clears both. *)
Definition moveTimers (t : nat) (k : MoveKind) (s s' : State) : Prop :=
  match k with
  | MoveNormal =>
      exists e i seg,
        dragging s' = Some (DragHandle e i) /\ segments s' !! i = Some seg /\
        timerSetAt t DWELL_MS (boundaryTime e seg) i e (dwellTimer s') /\
        timerSetAt t PREFETCH_MS (boundaryTime e seg) i e (prefetchTimer s')
  | MoveSharedResolved =>
      exists e i seg,
        dragging s' = Some (DragHandle e i) /\ segments s !! i = Some seg /\
        timerSetAt t DWELL_MS (boundaryTime e seg) i e (dwellTimer s') /\
        timerSetAt t PREFETCH_MS (boundaryTime e seg) i e (prefetchTimer s')
  | MoveDeleteIntent | MoveMergeIntent | MoveDeleteCommit | MoveMergeCommit =>
      dwellTimer s' = None /\ prefetchTimer s' = None
  | _ => True
  end.

(** The handle a timer, a detail view or a prefetched window was set up
    for. *)
Definition timerHandle (tm : Timer) : Edge * nat :=
  (tm_edge tm, tm_segmentIndex tm).

Definition detailHandle (dm : DetailMode) : Edge * nat :=
  (dm_edge dm, dm_segmentIndex dm).

(** Timers, detail view and prefetched window all belong to the handle
    [h], and so does the drag when it is the drag of a handle. *)
Definition ownedBy (h : Edge * nat) (s : State) : Prop :=
  (forall tm, dwellTimer s = Some tm \/ prefetchTimer s = Some tm ->
     timerHandle tm = h) /\
  (forall dm, detailMode s = Some dm \/ pendingDetail s = Some dm ->
     detailHandle dm = h) /\
  (forall e i, dragging s = Some (DragHandle e i) -> (e, i) = h).

(** Without a drag no timer is pending and no detail view is active; during
    the drag of a shared handle there is no prefetched window either. *)
Definition idleWithoutHandle (s : State) : Prop :=
  match dragging s with
  | None =>
      dwellTimer s = None /\ prefetchTimer s = None /\ detailMode s = None
  | Some (DragShared _ _ _ _) =>
      dwellTimer s = None /\ prefetchTimer s = None /\ detailMode s = None /\
      pendingDetail s = None
  | _ => True
  end.

(** What holds of the drag and the detail state in every state, whatever
    the presses: they have one owner, which a playhead drag started by a
    press on the track leaves in place. *)
Definition ownerInvariant (s : State) : Prop :=
  (exists h, ownedBy h s) /\ idleWithoutHandle s.

(** The event at [t] left a dwell timer due [DWELL_MS] later. *)
Definition setsDwell (t : nat) (s' : State) : bool :=
  match dwellTimer s' with
  | Some tm => (due tm =? t + DWELL_MS)%nat
  | None => false
  end.

(** The times of the pointer events of a run that left a dwell timer of
    their own time: the presses of a handle, the normal moves and the
    resolutions of a shared handle. *)
Fixpoint dwellStarts (env : Env) (s : State) (tr : list (nat * Event))
    : list nat :=
  match tr with
  | [] => []
  | (t, ev) :: rest =>
      match step env t ev s with
      | Some s' =>
          (if isPointerEvent ev && setsDwell t s' then [t] else [])
          ++ dwellStarts env s' rest
      | None => []
      end
  end.

(** Every press of the run comes with the pointer up: no drag is in
    progress. *)
Fixpoint pressesWhenUp (env : Env) (s : State) (tr : list (nat * Event))
    : bool :=
  match tr with
  | [] => true
  | (t, ev) :: rest =>
      (negb (isPress ev) || negb (isSome (dragging s)))
      && match step env t ev s with
         | Some s' => pressesWhenUp env s' rest
         | None => true
         end
  end.

(** The dwell timer, if pending, is due no earlier than [DWELL_MS] after
    each of the times [marks]. *)
Definition dueAfter (marks : list nat) (s : State) : Prop :=
  forall t0 tm, In t0 marks -> dwellTimer s = Some tm ->
    (t0 + DWELL_MS <= due tm)%nat.

(** What a press leaves of the timers: none that was set before it, unless
    it is a press on the track that starts a playhead drag, which leaves
    both as they were. *)
Definition pressTimers (t : nat) (ev : Event) (s s' : State) : Prop :=
  timersCancelled t s' \/
  (exists x, ev = EvTrackMouseDown x) /\ dragging s' = Some DragPlayhead /\
  dwellTimer s' = dwellTimer s /\ prefetchTimer s' = prefetchTimer s.

(** ** Rendered geometry of the slider *)

Definition playheadPercent (env : Env) (s : State) : Q :=
  Math_max 0 (Math_min 100 (timeToPercent env (currentTime s))).

Record Tab := {
  tab_left : Q;
  tab_width : Q;
  tab_direction : Direction;
  tab_progress : Q;
}.

(** The red carpet of a delete intent. *)
Definition deleteTab (s : State) : option Tab :=
  match deleteIntent s with
  | Some di =>
      match di_direction di with
      | DirRight =>
          Some {| tab_left := di_segExtentPct di;
                  tab_width := Math_max 0 (di_cursorPct di - di_segExtentPct di);
                  tab_direction := DirRight; tab_progress := di_progress di |}
      | DirLeft =>
          Some {| tab_left := di_cursorPct di;
                  tab_width := Math_max 0 (di_segExtentPct di - di_cursorPct di);
                  tab_direction := DirLeft; tab_progress := di_progress di |}
      end
  | None => None
  end.

(** The green carpet of a merge intent. *)
Definition mergeTab (s : State) : option Tab :=
  match mergeIntent s with
  | Some mi =>
      match mi_direction mi with
      | DirRight =>
          Some {| tab_left := mi_anchorPct mi;
                  tab_width := Math_max 0 (mi_cursorPct mi - mi_anchorPct mi);
                  tab_direction := DirRight; tab_progress := mi_progress mi |}
      | DirLeft =>
          Some {| tab_left := mi_cursorPct mi;
                  tab_width := Math_max 0 (mi_anchorPct mi - mi_cursorPct mi);
                  tab_direction := DirLeft; tab_progress := mi_progress mi |}
      end
  | None => None
  end.

(** ** Edit screen: activation of segments *)

(** [segments.filter((s) => s.active !== false)]. *)
Definition activeSegments (segs : list TrimSegment) : list TrimSegment :=
  List.filter is_active segs.

(** [segments.every((s) => s.active !== false)]. *)
Definition allActive (segs : list TrimSegment) : bool :=
  forallb is_active segs.

Definition with_active (b : bool) (seg : TrimSegment) : TrimSegment :=
  {| seg_id := seg_id seg; seg_start := seg_start seg; seg_end := seg_end seg;
     seg_active := Some b |}.

Definition handleActivateAll (s : State) : State :=
  setSegments (with_active true <$> segments s) s.

Definition handleDeactivateAll (s : State) : State :=
  setSegments (with_active false <$> segments s) s.

Definition handleInverseActive (s : State) : State :=
  setSegments (toggleActive <$> segments s) s.

(** [onClick] of the button that reads "Deactivate All" when every segment
    is active and "Activate All" otherwise. *)
Definition handleToggleAll (s : State) : State :=
  if allActive (segments s) then handleDeactivateAll s
  else handleActivateAll s.

(** The pixel position of a handle on the track, and the distance of a
    click from it, as [handleTrackMouseDown] computes them. *)
Definition handlePx (env : Env) (rect : DOMRect) (edge : Edge)
    (seg : TrimSegment) : Q :=
  (timeToPercent env (boundaryTime edge seg) / 100) * rect_width rect.

Definition clickDistance (env : Env) (rect : DOMRect) (clickX : Q)
    (edge : Edge) (seg : TrimSegment) : Q :=
  Math_abs (clickX - handlePx env rect edge seg).

(** What the search for the closest handle has found among the segments
    [seen]: nothing within [dist = HANDLE_SNAP_PX], or a handle at distance
    [dist] below it, and no handle seen is closer than [dist]. *)
Definition closestOf (env : Env) (info : gmap string ProximityInfo)
    (rect : DOMRect) (clickX clientX : Q) (seen : list TrimSegment)
    (acc : option DragTarget * Q) : Prop :=
  (forall j seg e, seen !! j = Some seg ->
     snd acc <= clickDistance env rect clickX e seg) /\
  match fst acc with
  | Some target =>
      exists i seg e,
        seen !! i = Some seg /\ target = handleTarget info clientX e i /\
        snd acc = clickDistance env rect clickX e seg /\
        snd acc < HANDLE_SNAP_PX
  | None => snd acc = HANDLE_SNAP_PX
  end.

(** The window of a detail view or of a prefetched one. *)
Definition windowOf (dm : DetailMode) : Q * Q := (viewStart dm, viewEnd dm).

(** The prefetched window is the one last requested, and an active view
    shows the prefetched window when there is one. *)
Definition windowInvariant (s : State) : Prop :=
  (forall p, pendingDetail s = Some p ->
     last (requests s) = Some (windowOf p)) /\
  (forall dm p, detailMode s = Some dm -> pendingDetail s = Some p ->
     windowOf dm = windowOf p).

(** A segment without its activity flag. *)
Definition segmentSpan (seg : TrimSegment) : string * Q * Q :=
  (seg_id seg, seg_start seg, seg_end seg).

(** [a.start <= b.start], the order of [sort((a, b) => a.start - b.start)]. *)
Definition startsBefore (a b : TrimSegment) : Prop :=
  seg_start a <= seg_start b.

(** The segment the key "[" (or "]") creates when the playhead is outside
    every segment. *)
Definition keyedSegment (env : Env) (key newId : string) (ct : Q)
    : TrimSegment :=
  if bool_decide (key = "["%string) then
    {| seg_id := newId; seg_start := ct;
       seg_end := Math_min (ct + frameDuration env) (duration env);
       seg_active := None |}
  else
    {| seg_id := newId; seg_start := Math_max (ct - frameDuration env) 0;
       seg_end := ct; seg_active := None |}.

(** Two pending timers come from the same call of [startDetailTimers]: the
    prefetch is due [DWELL_MS - PREFETCH_MS] before the activation, for the
    same handle and the same anchor time. *)
Definition timersPaired (s : State) : Prop :=
  forall d p, dwellTimer s = Some d -> prefetchTimer s = Some p ->
    (due d = due p + (DWELL_MS - PREFETCH_MS))%nat /\
    tm_handleTime d = tm_handleTime p /\
    tm_segmentIndex d = tm_segmentIndex p /\ tm_edge d = tm_edge p.

(** A drag target whose indices are in the store. *)
Definition targetInStore (segs : list TrimSegment) (target : DragTarget)
    : Prop :=
  match target with
  | DragHandle _ idx => (idx < length segs)%nat
  | DragShared l r _ _ => (l < length segs)%nat /\ (r < length segs)%nat
  | DragPlayhead => True
  end.

(** The identifiers an event brings in are new and distinct. *)
Definition freshIds (ev : Event) (s : State) : Prop :=
  match ev with
  | EvKeyDown _ newId => newId ∉ seg_id <$> segments s
  | EvFindShots scenes => NoDup (fst <$> (fst <$> scenes))
  | _ => True
  end.

(** Does the default sort leave the pair [(a, a+1)] in numeric order, from
    whichever side it is given? *)
Definition sortKeepsPair (a : nat) : bool :=
  bool_decide (js_default_sort2 a (S a) = (a, S a))
  && bool_decide (js_default_sort2 (S a) a = (a, S a)).

(** Does it turn the pair around, from whichever side it is given? *)
Definition sortSwapsPair (a : nat) : bool :=
  bool_decide (js_default_sort2 a (S a) = (S a, a))
  && bool_decide (js_default_sort2 (S a) a = (S a, a)).

Definition lastBeforePowerOfTen (a : nat) : bool :=
  (a =? 9)%nat || (a =? 99)%nat || (a =? 999)%nat.

(** ** Arithmetic that rounds *)

(** The unit roundoff of binary64, [2^-53]. *)
Definition unitRoundoff : Q := 1 # 9007199254740992.

(** The standard model of an arithmetic that rounds to nearest: [rnd] takes
    the exact result of an operation to the number that is stored; it is
    monotone and off by at most one unit roundoff, relatively.  binary64
    meets both for results in its normal range, and with them for every sum
    and difference. *)
Definition roundsToNearest (rnd : Q -> Q) : Prop :=
  (forall x y, x <= y -> rnd x <= rnd y) /\
  (forall x, Qabs (rnd x - x) <= unitRoundoff * Qabs x).


(** The clamps of a drag and the detail window with every operation
    rounded. *)
Module Rounded.

(** [Math.max(minStart, Math.min(time, seg.end - 0.1))]. *)
Definition clampStart (rnd : Q -> Q) (minStart time segEnd : Q) : Q :=
  Math_max minStart (Math_min time (rnd (segEnd - rnd 0.1))).

(** [Math.min(maxEnd, Math.max(time, seg.start + 0.1))]. *)
Definition clampEnd (rnd : Q -> Q) (maxEnd time segStart : Q) : Q :=
  Math_min maxEnd (Math_max time (rnd (segStart + rnd 0.1))).

(** The window of [computeDetailWindow], for a duration that is not zero. *)
Definition computeDetailWindow (rnd : Q -> Q) (handleTime d : Q) : Q * Q :=
  let handlePct := rnd (handleTime / d) in
  let windowSize := rnd (d / 2) in
  let vStart := rnd (handleTime - rnd (handlePct * windowSize)) in
  let vEnd := rnd (vStart + windowSize) in
  let '(vStart, vEnd) :=
    if Qltb vStart 0 then (0, Math_min d windowSize)
    else (vStart, vEnd) in
  if Qltb d vEnd
  then (Math_max 0 (rnd (d - windowSize)), d)
  else (vStart, vEnd).

End Rounded.

(** ** Single expressions in binary64 *)

(** The expressions of the source whose rounding matters, evaluated on the
    binary64 numbers of JavaScript ([Math.max] and [Math.min] as on
    ordered, non-zero arguments). *)
Module Double.

Definition Math_max (a b : float) : float :=
  if PrimFloat.leb a b then b else a.
Definition Math_min (a b : float) : float :=
  if PrimFloat.leb a b then a else b.

(** The rational number a finite binary64 number stands for. *)
Definition toQ (x : float) : option Q :=
  match Prim2SF x with
  | S754_zero _ => Some 0
  | S754_finite sign m e =>
      Some ((if sign then -1 else 1) * inject_Z (Z.pos m) * Qpower 2 e)
  | _ => None
  end.

(** [Math.max(minStart, Math.min(time, seg.end - 0.1))]. *)
Definition clampStart (minStart time segEnd : float) : float :=
  Math_max minStart (Math_min time (segEnd - 0.1))%float.

(** [Math.min(maxEnd, Math.max(time, seg.start + 0.1))]. *)
Definition clampEnd (maxEnd time segStart : float) : float :=
  Math_min maxEnd (Math_max time (segStart + 0.1))%float.

(** The window of [computeDetailWindow]. *)
Definition computeDetailWindow (handleTime duration : float)
    : float * float :=
  let handlePct := (handleTime / duration)%float in
  let windowSize := (duration / 2)%float in
  let vStart := (handleTime - handlePct * windowSize)%float in
  let vEnd := (vStart + windowSize)%float in
  let '(vStart, vEnd) :=
    if PrimFloat.ltb vStart 0 then (0%float, Math_min duration windowSize)
    else (vStart, vEnd) in
  if PrimFloat.ltb duration vEnd
  then (Math_max 0 (duration - windowSize)%float, duration)
  else (vStart, vEnd).

(** The factor [a] of [rubberBandPx]. *)
Definition dampingFactor : float := (100 * 0.55)%float.

End Double.
Lemma Qltb_lt (x y : Q) : Qltb x y = true <-> x < y.
Proof.
  unfold Qltb. rewrite negb_true_iff. split.
  - intros H. apply Qnot_le_lt. intros Hle.
    apply Qle_bool_iff in Hle. congruence.
  - intros H. destruct (Qle_bool y x) eqn:E; [|reflexivity].
    apply Qle_bool_iff in E. lra.
Qed.

Lemma Qltb_ge (x y : Q) : Qltb x y = false <-> y <= x.
Proof.
  unfold Qltb. rewrite negb_false_iff. apply Qle_bool_iff.
Qed.

Lemma Qle_bool_false (x y : Q) : Qle_bool x y = false <-> y < x.
Proof.
  split.
  - intros H. apply Qnot_le_lt. intros Hle.
    apply Qle_bool_iff in Hle. congruence.
  - intros H. destruct (Qle_bool x y) eqn:E; [|reflexivity].
    apply Qle_bool_iff in E. lra.
Qed.

Lemma Math_max_spec (a b : Q) :
  (a <= b /\ Math_max a b = b) \/ (b < a /\ Math_max a b = a).
Proof.
  unfold Math_max. destruct (Qle_bool a b) eqn:E.
  - left. split; [by apply Qle_bool_iff | reflexivity].
  - right. split; [by apply Qle_bool_false | reflexivity].
Qed.

Lemma Math_min_spec (a b : Q) :
  (a <= b /\ Math_min a b = a) \/ (b < a /\ Math_min a b = b).
Proof.
  unfold Math_min. destruct (Qle_bool a b) eqn:E.
  - left. split; [by apply Qle_bool_iff | reflexivity].
  - right. split; [by apply Qle_bool_false | reflexivity].
Qed.

Lemma js_div_Some (x y : Q) : ~ y == 0 -> js_div x y = Some (x / y).
Proof.
  intros H. unfold js_div. destruct (Qeq_bool y 0) eqn:E; [|reflexivity].
  apply Qeq_bool_iff in E. contradiction.
Qed.

Lemma js_div_None (x y : Q) : y == 0 -> js_div x y = None.
Proof.
  intros H. unfold js_div. apply Qeq_bool_iff in H. by rewrite H.
Qed.

(** Case analysis on every [Math.max]/[Math.min] of the goal. *)
Ltac minmax :=
  repeat match goal with
  | |- context [Math_max ?a ?b] =>
      let H := fresh "Hmax" in
      destruct (Math_max_spec a b) as [[? H]|[? H]]; rewrite !H in *; clear H
  | |- context [Math_min ?a ?b] =>
      let H := fresh "Hmin" in
      destruct (Math_min_spec a b) as [[? H]|[? H]]; rewrite !H in *; clear H
  end.

(** Case analysis on every [Math.max]/[Math.min], also in the hypotheses. *)
Ltac minmax_all :=
  repeat match goal with
  | |- context [Math_max ?a ?b] =>
      destruct (Math_max_spec a b) as [[? ->]|[? ->]]
  | |- context [Math_min ?a ?b] =>
      destruct (Math_min_spec a b) as [[? ->]|[? ->]]
  | H : context [Math_max ?a ?b] |- _ =>
      let E := fresh "E" in
      destruct (Math_max_spec a b) as [[? E]|[? E]]; rewrite E in H; clear E
  | H : context [Math_min ?a ?b] |- _ =>
      let E := fresh "E" in
      destruct (Math_min_spec a b) as [[? E]|[? E]]; rewrite E in H; clear E
  end.

(** [lra] after the inverses of numerals have been computed. *)
Ltac qconst :=
  unfold Qdiv in *;
  repeat match goal with
  | |- context [Qinv (Qmake ?n ?d)] =>
      let v := eval vm_compute in (Qinv (Qmake n d)) in
      progress change (Qinv (Qmake n d)) with v
  | H : context [Qinv (Qmake ?n ?d)] |- _ =>
      let v := eval vm_compute in (Qinv (Qmake n d)) in
      progress change (Qinv (Qmake n d)) with v in H
  end.
Ltac qlra := qconst; lra.

(** * Properties *)

(** ** Detail window (C6) *)

Lemma half_window_offset (h d : Q) : 0 < d -> h - h / d * (d / 2) == h / 2.
Proof. intros Hd. field. lra. Qed.

Lemma roundingSlack_nonneg (env : Env) :
  0 <= duration env -> 0 <= roundingSlack env.
Proof. unfold roundingSlack. intros H. lra. Qed.

(** C6, as amended: for a timeline of positive duration and a handle time
    inside it, [computeDetailWindow] returns a window with
    [0 <= viewStart <= h <= viewEnd <= duration] that is at most half the
    timeline wide, up to the rounding of [vStart + windowSize]:
    [viewEnd - viewStart <= duration / 2 + duration / 2^50]. *)
Theorem computeDetailWindow_contains (env : Env) (h : Q) (i : nat) (e : Edge) :
  0 < duration env -> 0 <= h -> h <= duration env ->
  exists dm, computeDetailWindow env h i e = Some dm /\
             detailWindowContains env h dm.
Proof.
  intros Hd Hlo Hhi. unfold computeDetailWindow.
  rewrite js_div_Some by lra. cbn [mbind option_bind].
  pose proof (half_window_offset h (duration env) Hd) as E.
  pose proof (roundingSlack_nonneg env ltac:(lra)) as Hslack.
  set (vs := h - h / duration env * (duration env / 2)) in *.
  destruct (Qltb vs 0) eqn:E1.
  { apply Qltb_lt in E1. qlra. }
  destruct (Qltb (duration env) (vs + duration env / 2)) eqn:E2.
  { apply Qltb_lt in E2. qlra. }
  eexists. split; [reflexivity|].
  unfold detailWindowContains; cbn. qlra.
Qed.

Lemma computeDetailWindow_contains_witness :
  exists dm, computeDetailWindow (trackEnv 10 1000) 3 0 EdgeStart = Some dm /\
             detailWindowContains (trackEnv 10 1000) 3 dm.
Proof.
  apply (computeDetailWindow_contains (trackEnv 10 1000) 3 0 EdgeStart);
    cbn; lra.
Defined.

(** C6 fails as stated: with a zero duration the division [handleTime /
    duration] has no finite value; a handle time beyond the duration is
    left outside the window; and in binary64 the window of [h = 6.1] on a
    timeline of 10 s, [[3.05, 8.05]], is wider than 5 s, by less than the
    slack. *)
Lemma computeDetailWindow_not_contained :
  ~ detailWindowOk (trackEnv 0 1000) 0 /\
  ~ detailWindowOk (trackEnv 10 1000) 20 /\
  exists vs ve,
    Double.toQ (fst (Double.computeDetailWindow 6.1 10)) = Some vs /\
    Double.toQ (snd (Double.computeDetailWindow 6.1 10)) = Some ve /\
    ~ ve - vs <= 10 / 2 /\
    ve - vs <= 10 / 2 + roundingSlack (trackEnv 10 1000).
Proof.
  split; [|split].
  - intros (dm & Hdm & Hc). vm_compute in Hdm. discriminate.
  - intros (dm & Hdm & Hc). vm_compute in Hdm. injection Hdm as <-.
    destruct Hc as (_ & _ & Hc & _). cbn in Hc. lra.
  - eexists _, _.
    split; [vm_compute; reflexivity|]. split; [vm_compute; reflexivity|].
    split.
    + intros H. vm_compute in H. by apply H.
    + vm_compute. discriminate.
Qed.

(** ** Track width (C9) *)

Lemma getPercentFromEvent_range (env : Env) (x p : Q) :
  getPercentFromEvent env x = Some p -> 0 <= p /\ p <= 100.
Proof.
  unfold getPercentFromEvent. destruct (container env) as [rect|].
  - destruct (js_div _ _) as [r|]; cbn; [|discriminate].
    intros [= <-]. minmax; lra.
  - intros [= <-]. lra.
Qed.

Lemma proximityStep_total (env : Env) (segs : list TrimSegment)
    (info : gmap string ProximityInfo) (i : nat) :
  ~ duration env == 0 -> (i + 1 < length segs)%nat ->
  exists info', proximityStep env segs info i = Some info'.
Proof.
  intros Hd Hi. unfold proximityStep.
  destruct (lookup_lt_is_Some_2 segs i ltac:(lia)) as [l ->].
  destruct (lookup_lt_is_Some_2 segs (i + 1) ltac:(lia)) as [r ->].
  cbn. destruct (negb _); [eauto|].
  rewrite !js_div_Some by assumption. cbn.
  destruct (Qltb _ _); eauto.
Qed.

Lemma proximityLoop_total (env : Env) (segs : list TrimSegment)
    (indices : list nat) :
  ~ duration env == 0 ->
  Forall (fun i => (i + 1 < length segs)%nat) indices ->
  forall info, exists info', proximityLoop env segs indices info = Some info'.
Proof.
  intros Hd. induction 1 as [|i rest Hi _ IH]; intros info; cbn; [eauto|].
  destruct (proximityStep_total env segs info i Hd Hi) as [info' ->]. cbn.
  apply IH.
Qed.

Lemma handleProximity_total (env : Env) (segs : list TrimSegment) :
  ~ duration env == 0 -> exists info, handleProximity env segs = Some info.
Proof.
  intros Hd. apply proximityLoop_total; [assumption|].
  apply Forall_forall. intros i Hi. apply elem_of_seq in Hi. lia.
Qed.

(** C9 fails as stated: a measured width of zero is returned as zero, and
    the pixel-to-percent mapping then divides by it. *)
Lemma zero_width_not_treated_as_one :
  getContainerWidth (trackEnv 10 0) = 0 /\
  ~ getContainerWidth (trackEnv 10 0) == 1 /\
  getPercentFromEvent (trackEnv 10 0) 5 = None.
Proof.
  split; [reflexivity|]. split; [|reflexivity].
  cbn. intros H. discriminate H.
Qed.

(** C9, as amended: the width falls back to 1 only when the track element
    is absent, and the pixel-to-percent mapping then answers 0; a measured
    width is used as it is, so the mapping divides by zero exactly when the
    measured width is zero and otherwise yields a percentage in [0, 100];
    the proximity computation divides by the duration only. *)
Theorem track_width_fallback (env : Env) (x : Q) (segs : list TrimSegment) :
  match container env with
  | None => getContainerWidth env = 1 /\ getPercentFromEvent env x = Some 0
  | Some rect =>
      getContainerWidth env = rect_width rect /\
      (rect_width rect == 0 -> getPercentFromEvent env x = None) /\
      (~ rect_width rect == 0 ->
       exists p, getPercentFromEvent env x = Some p /\ 0 <= p /\ p <= 100)
  end /\
  (~ duration env == 0 -> exists info, handleProximity env segs = Some info).
Proof.
  split; [|apply handleProximity_total].
  unfold getContainerWidth, getPercentFromEvent.
  destruct (container env) as [rect|]; [|split; reflexivity].
  split; [reflexivity|]. split.
  - intros H. by rewrite js_div_None.
  - intros H. rewrite js_div_Some by assumption. cbn.
    eexists. split; [reflexivity|]. minmax; lra.
Qed.

Lemma track_width_fallback_witness :
  exists p, getPercentFromEvent (trackEnv 10 1000) 250 = Some p /\
            0 <= p /\ p <= 100.
Proof.
  pose proof (track_width_fallback (trackEnv 10 1000) 250 []) as [H _].
  cbn in H. destruct H as (_ & _ & H). apply H.
  intros E. discriminate E.
Defined.

(** ** Mixed activity never blends (C10) *)

Lemma String_of_index_inj (a b : nat) :
  String_of_index a = String_of_index b -> a = b.
Proof.
  unfold String_of_index. intros H.
  apply (f_equal NilEmpty.uint_of_string) in H.
  rewrite !NilEmpty.usu in H. injection H as H.
  by apply Unsigned.to_uint_inj.
Qed.

Lemma handleKey_inj (e e' : Edge) (i j : nat) :
  handleKey e i = handleKey e' j -> e = e' /\ i = j.
Proof.
  destruct e, e'; unfold handleKey; cbn; intros H; try discriminate.
  - injection H as H. split; [reflexivity|]. by apply String_of_index_inj.
  - injection H as H. split; [reflexivity|]. by apply String_of_index_inj.
Qed.

Lemma entriesOfPairs_empty (segs : list TrimSegment) : entriesOfPairs segs ∅.
Proof. intros e j b H. by rewrite lookup_empty in H. Qed.

Lemma proximityStep_entries (env : Env) (segs : list TrimSegment)
    (info info' : gmap string ProximityInfo) (i : nat) :
  entriesOfPairs segs info ->
  proximityStep env segs info i = Some info' ->
  entriesOfPairs segs info'.
Proof.
  intros Hinv. unfold proximityStep.
  destruct (segs !! i) as [l|] eqn:El; cbn; [|discriminate].
  destruct (segs !! (i + 1)%nat) as [r|] eqn:Er; cbn; [|discriminate].
  destruct (eqb (is_active l) (is_active r)) eqn:Ef; cbn;
    [|by intros [= <-]].
  apply eqb_prop in Ef.
  destruct (js_div (seg_end l) _); cbn; [|discriminate].
  destruct (js_div (seg_start r) _); cbn; [|discriminate].
  destruct (Qltb _ _); [|by intros [= <-]].
  intros [= <-]. intros e j b.
  assert (Hsame : sameFlags segs i) by (exists l, r; auto).
  destruct (decide (handleKey EdgeStart (i + 1) = handleKey e j)) as [E|N].
  { rewrite E, lookup_insert_eq. intros [= <-].
    apply handleKey_inj in E as [<- <-]. cbn. eauto. }
  rewrite lookup_insert_ne by assumption.
  destruct (decide (handleKey EdgeEnd i = handleKey e j)) as [E|N'].
  { rewrite E, lookup_insert_eq. intros [= <-].
    apply handleKey_inj in E as [<- <-]. cbn. eauto. }
  rewrite lookup_insert_ne by assumption. apply Hinv.
Qed.

Lemma proximityLoop_entries (env : Env) (segs : list TrimSegment)
    (indices : list nat) :
  forall info info', entriesOfPairs segs info ->
    proximityLoop env segs indices info = Some info' ->
    entriesOfPairs segs info'.
Proof.
  induction indices as [|i rest IH]; cbn; intros info info' Hinv.
  - by intros [= <-].
  - destruct (proximityStep env segs info i) as [info1|] eqn:E; cbn;
      [|discriminate].
    apply IH. eapply proximityStep_entries; eauto.
Qed.

Lemma handleProximity_entries (env : Env) (segs : list TrimSegment)
    (info : gmap string ProximityInfo) :
  handleProximity env segs = Some info -> entriesOfPairs segs info.
Proof. apply proximityLoop_entries, entriesOfPairs_empty. Qed.

Lemma mixed_pair_not_same (segs : list TrimSegment) (i : nat)
    (l r : TrimSegment) :
  segs !! i = Some l -> segs !! (i + 1)%nat = Some r ->
  is_active l <> is_active r -> ~ sameFlags segs i.
Proof.
  intros Hl Hr Hne (l' & r' & Hl' & Hr' & E). congruence.
Qed.

Lemma mixed_pair_no_entry (env : Env) (segs : list TrimSegment)
    (info : gmap string ProximityInfo) (i : nat) :
  handleProximity env segs = Some info -> ~ sameFlags segs i ->
  info !! handleKey EdgeEnd i = None /\
  info !! handleKey EdgeStart (i + 1) = None.
Proof.
  intros Hinfo Hns. apply handleProximity_entries in Hinfo. split.
  - destruct (info !! handleKey EdgeEnd i) as [b|] eqn:E; [|reflexivity].
    apply Hinfo in E as [_ E]. contradiction.
  - destruct (info !! handleKey EdgeStart (i + 1)) as [b|] eqn:E;
      [|reflexivity].
    apply Hinfo in E as (k & Hk & _ & E).
    assert (k = i) by lia. subst k. contradiction.
Qed.

Lemma handleTarget_of_pairs (segs : list TrimSegment)
    (info : gmap string ProximityInfo) (x : Q) (e : Edge) (j : nat) :
  entriesOfPairs segs info -> targetOfPairs segs (handleTarget info x e j).
Proof.
  intros Hinv. unfold handleTarget.
  destruct (info !! handleKey e j) as [b|] eqn:E; [|exact I].
  destruct (significantOverlap _); [|exact I].
  apply Hinv in E. destruct e; cbn.
  - destruct E as (k & -> & -> & Hs). split; [reflexivity | assumption].
  - destruct E as [-> Hs]. split; [reflexivity | assumption].
Qed.

Lemma closestLoop_of_pairs (env : Env) (segs0 : list TrimSegment)
    (info : gmap string ProximityInfo) (rect : DOMRect) (clickX x : Q) :
  entriesOfPairs segs0 info ->
  forall segs i acc,
    from_option (targetOfPairs segs0) True (fst acc) ->
    from_option (targetOfPairs segs0) True
      (fst (closestLoop env info rect clickX x i segs acc)).
Proof.
  intros Hinv. induction segs as [|seg rest IH]; intros i acc Hacc; cbn;
    [assumption|].
  apply IH. unfold closestStep. destruct acc as [closest dist].
  destruct (Qltb _ dist).
  - destruct (Qltb _ _); cbn; by apply handleTarget_of_pairs.
  - destruct (Qltb _ _); cbn; [by apply handleTarget_of_pairs | assumption].
Qed.

Lemma handleHandleMouseDown_dragging (now : nat) (x : Q) (i : nat) (e : Edge)
    (s s' : State) :
  handleHandleMouseDown now x i e s = Some s' ->
  dragging s' = Some (DragHandle e i).
Proof.
  unfold handleHandleMouseDown. cbn.
  destruct (segments s !! i); cbn; [|discriminate]. by intros [= <-].
Qed.

Lemma handleHandleMouseDown_total (now : nat) (x : Q) (i : nat) (e : Edge)
    (s : State) :
  is_Some (segments s !! i) ->
  exists s', handleHandleMouseDown now x i e s = Some s'.
Proof.
  intros [seg Hseg]. unfold handleHandleMouseDown. cbn.
  rewrite Hseg. cbn. eauto.
Qed.

Lemma handleTrackMouseDown_of_pairs (env : Env) (now : nat) (x : Q)
    (s s' : State) (t : DragTarget) :
  handleTrackMouseDown env now x s = Some s' ->
  dragging s' = Some t -> targetOfPairs (segments s) t.
Proof.
  unfold handleTrackMouseDown.
  destruct (getPercentFromEvent env x) as [p|]; cbn; [|discriminate].
  destruct (container env) as [rect|]; cbn.
  - destruct (handleProximity (atMemo env) (segments s)) as [info|] eqn:Ei;
      cbn; [|discriminate].
    apply handleProximity_entries in Ei.
    pose proof (closestLoop_of_pairs env (segments s) info rect
                  (x - rect_left rect) x Ei (segments s) 0%nat
                  (None, HANDLE_SNAP_PX) I) as Hc.
    unfold closestHandle.
    destruct (fst (closestLoop _ _ _ _ _ _ _ _)) as [target|]; cbn in *.
    + destruct target as [e j|l r sx b|]; cbn.
      * destruct (segments s !! j); cbn; [|discriminate].
        intros [= <-] [= <-]. exact I.
      * intros [= <-] [= <-]. exact Hc.
      * intros [= <-] [= <-]. exact I.
    + intros [= <-] [= <-]. exact I.
  - intros [= <-] [= <-]. exact I.
Qed.

Lemma closestStep_closestOf (env : Env) (info : gmap string ProximityInfo)
    (rect : DOMRect) (clickX clientX : Q) (seen : list TrimSegment)
    (acc : option DragTarget * Q) (seg : TrimSegment) :
  closestOf env info rect clickX clientX seen acc ->
  closestOf env info rect clickX clientX (seen ++ [seg])
    (closestStep env info rect clickX clientX acc (length seen) seg).
Proof.
  destruct acc as [closest dist]. intros [Hmin Hfound]. cbn [fst snd] in *.
  assert (Hold : forall t, (exists i seg0 e,
              seen !! i = Some seg0 /\ t = handleTarget info clientX e i /\
              dist = clickDistance env rect clickX e seg0 /\
              dist < HANDLE_SNAP_PX) ->
            exists i seg0 e,
              (seen ++ [seg]) !! i = Some seg0 /\
              t = handleTarget info clientX e i /\
              dist = clickDistance env rect clickX e seg0 /\
              dist < HANDLE_SNAP_PX).
  { intros t (i & seg0 & e & Hi & Ht & Hd & Hlt). exists i, seg0, e.
    split; [|by repeat split]. by apply lookup_app_l_Some. }
  assert (Hnew : (seen ++ [seg]) !! length seen = Some seg).
  { rewrite lookup_app_r by lia. by rewrite Nat.sub_diag. }
  assert (Hcases : forall j seg0, (seen ++ [seg]) !! j = Some seg0 ->
            seen !! j = Some seg0 \/ seg0 = seg).
  { intros j seg0 Hj. apply lookup_app_Some in Hj as [Hj|[_ Hj]];
      [by left|right].
    destruct (j - length seen)%nat; cbn in Hj; [congruence|discriminate]. }
  unfold closestStep.
  change (Math_abs (clickX
            - timeToPercent env (seg_start seg) / 100 * rect_width rect))
    with (clickDistance env rect clickX EdgeStart seg).
  change (Math_abs (clickX
            - timeToPercent env (seg_end seg) / 100 * rect_width rect))
    with (clickDistance env rect clickX EdgeEnd seg).
  set (dS := clickDistance env rect clickX EdgeStart seg).
  set (dE := clickDistance env rect clickX EdgeEnd seg).
  assert (Hle : dist <= HANDLE_SNAP_PX).
  { destruct closest; [|rewrite Hfound; lra].
    destruct Hfound as (_ & _ & _ & _ & _ & _ & H). lra. }
  destruct (Qltb dS dist) eqn:E1; [apply Qltb_lt in E1|apply Qltb_ge in E1].
  - destruct (Qltb dE dS) eqn:E2; [apply Qltb_lt in E2|apply Qltb_ge in E2];
      (split; cbn [fst snd];
       [intros j seg0 e Hj; destruct (Hcases j seg0 Hj) as [Hj'| ->];
        [specialize (Hmin j seg0 e Hj'); lra
        |destruct e; fold dS dE; lra]
       |]).
    + exists (length seen), seg, EdgeEnd. split; [exact Hnew|].
      split; [reflexivity|]. split; [reflexivity|]. lra.
    + exists (length seen), seg, EdgeStart. split; [exact Hnew|].
      split; [reflexivity|]. split; [reflexivity|]. lra.
  - destruct (Qltb dE dist) eqn:E2; [apply Qltb_lt in E2|apply Qltb_ge in E2];
      (split; cbn [fst snd];
       [intros j seg0 e Hj; destruct (Hcases j seg0 Hj) as [Hj'| ->];
        [specialize (Hmin j seg0 e Hj'); lra
        |destruct e; fold dS dE; lra]
       |]).
    + exists (length seen), seg, EdgeEnd. split; [exact Hnew|].
      split; [reflexivity|]. split; [reflexivity|]. lra.
    + destruct closest; [by apply Hold|exact Hfound].
Qed.

Lemma closestLoop_closestOf (env : Env) (info : gmap string ProximityInfo)
    (rect : DOMRect) (clickX clientX : Q) (rest : list TrimSegment) :
  forall seen acc,
    closestOf env info rect clickX clientX seen acc ->
    closestOf env info rect clickX clientX (seen ++ rest)
      (closestLoop env info rect clickX clientX (length seen) rest acc).
Proof.
  induction rest as [|seg rest IH]; intros seen acc Hacc; cbn [closestLoop].
  - by rewrite app_nil_r.
  - replace (seen ++ seg :: rest) with ((seen ++ [seg]) ++ rest)
      by (by rewrite <- app_assoc).
    replace (S (length seen)) with (length (seen ++ [seg]))
      by (rewrite length_app; cbn; lia).
    apply IH. by apply closestStep_closestOf.
Qed.

Lemma closestHandle_closestOf (env : Env) (info : gmap string ProximityInfo)
    (rect : DOMRect) (clientX : Q) (segs : list TrimSegment) :
  closestOf env info rect (clientX - rect_left rect) clientX segs
    (closestLoop env info rect (clientX - rect_left rect) clientX 0 segs
       (None, HANDLE_SNAP_PX)).
Proof.
  apply (closestLoop_closestOf env info rect _ clientX segs []
           (None, HANDLE_SNAP_PX)).
  split; [|reflexivity]. intros j seg e Hj. discriminate Hj.
Qed.

(** Whether the record of [handleProximity] is defined depends on the
    segments and on the duration only, not on the track. *)
Lemma proximityLoop_defined (env env' : Env) (segs : list TrimSegment)
    (indices : list nat) :
  duration env' = duration env ->
  forall info info1 info',
    proximityLoop env segs indices info = Some info1 ->
    exists info1', proximityLoop env' segs indices info' = Some info1'.
Proof.
  intros Hd. induction indices as [|i rest IH]; intros info info1 info' H;
    cbn in H |- *; [eauto|].
  destruct (proximityStep env segs info i) as [info2|] eqn:E; cbn in H;
    [|discriminate].
  assert (exists info2', proximityStep env' segs info' i = Some info2')
    as [info2' ->].
  { unfold proximityStep in E |- *. rewrite Hd.
    destruct (segs !! i); [|discriminate E].
    destruct (segs !! (i + 1)%nat); [|discriminate E].
    cbn [mbind option_bind] in E |- *.
    destruct (negb _); [eauto|].
    destruct (js_div (seg_end _) _); [|discriminate E].
    destruct (js_div (seg_start _) _); [|discriminate E].
    cbn [mbind option_bind]. clear E. destruct (Qltb _ _); eauto. }
  cbn. by eapply IH.
Qed.

Lemma handleProximity_memo (env : Env) (segs : list TrimSegment)
    (info : gmap string ProximityInfo) :
  handleProximity env segs = Some info ->
  exists memo, handleProximity (atMemo env) segs = Some memo.
Proof. by apply proximityLoop_defined. Qed.

(** C10: for an adjacent pair whose activity flags differ no proximity
    entry is written, whatever the gap and whatever the track; a press on
    either facing handle element starts a concrete drag of that handle; no
    press on the track yields a shared drag of that pair; and a press on
    the track that has one of the two facing handles within
    [HANDLE_SNAP_PX], closer than every other handle, starts a concrete
    drag of one of them. *)
Theorem mixed_activity_never_shared (env : Env) (segs : list TrimSegment)
    (i : nat) (l r : TrimSegment) :
  segs !! i = Some l -> segs !! (i + 1)%nat = Some r ->
  is_active l <> is_active r ->
  (~ duration env == 0 -> exists info, handleProximity env segs = Some info) /\
  (forall info, handleProximity env segs = Some info ->
     info !! handleKey EdgeEnd i = None /\
     info !! handleKey EdgeStart (i + 1) = None /\
     (forall x, handleTarget info x EdgeEnd i = DragHandle EdgeEnd i) /\
     (forall x, handleTarget info x EdgeStart (i + 1)
                = DragHandle EdgeStart (i + 1)) /\
     (forall now x s, segments s = segs ->
        exists s', handle_onMouseDown env now x i EdgeEnd s = Some s' /\
                   dragging s' = Some (DragHandle EdgeEnd i)) /\
     (forall now x s, segments s = segs ->
        exists s', handle_onMouseDown env now x (i + 1) EdgeStart s = Some s' /\
                   dragging s' = Some (DragHandle EdgeStart (i + 1)))) /\
  (forall now x s s' a b sx res, segments s = segs ->
     handleTrackMouseDown env now x s = Some s' ->
     dragging s' = Some (DragShared a b sx res) ->
     a <> i /\ b <> (i + 1)%nat) /\
  (forall now x s rect, segments s = segs ->
     container env = Some rect -> ~ rect_width rect == 0 ->
     ~ duration env == 0 ->
     let clickX := x - rect_left rect in
     let nearest := Math_min (clickDistance env rect clickX EdgeEnd l)
                      (clickDistance env rect clickX EdgeStart r) in
     nearest < HANDLE_SNAP_PX ->
     (forall j seg e, segs !! j = Some seg ->
        (e, j) <> (EdgeEnd, i) -> (e, j) <> (EdgeStart, (i + 1)%nat) ->
        nearest < clickDistance env rect clickX e seg) ->
     exists s', handleTrackMouseDown env now x s = Some s' /\
       (dragging s' = Some (DragHandle EdgeEnd i) \/
        dragging s' = Some (DragHandle EdgeStart (i + 1)))).
Proof.
  intros Hl Hr Hne.
  pose proof (mixed_pair_not_same segs i l r Hl Hr Hne) as Hns.
  split; [apply handleProximity_total|]. split; [|split].
  - intros info Hinfo.
    destruct (mixed_pair_no_entry env segs info i Hinfo Hns) as [He Hs].
    split; [assumption|]. split; [assumption|].
    split; [intros x; unfold handleTarget; by rewrite He|].
    split; [intros x; unfold handleTarget; by rewrite Hs|].
    destruct (handleProximity_memo env segs info Hinfo) as [memo Hmemo].
    destruct (mixed_pair_no_entry (atMemo env) segs memo i Hmemo Hns)
      as [He' Hs'].
    split; intros now x s <-; unfold handle_onMouseDown;
      rewrite Hmemo; cbn; rewrite ?He', ?Hs'.
    + destruct (handleHandleMouseDown_total now x i EdgeEnd s) as [s' Hs1];
        [by rewrite Hl|].
      exists s'. split; [assumption|].
      by eapply handleHandleMouseDown_dragging.
    + destruct (handleHandleMouseDown_total now x (i + 1) EdgeStart s)
        as [s' Hs1]; [by rewrite Hr|].
      exists s'. split; [assumption|].
      by eapply handleHandleMouseDown_dragging.
  - intros now x s s' a b sx res <- Hdown Hdrag.
    pose proof (handleTrackMouseDown_of_pairs _ _ _ _ _ _ Hdown Hdrag)
      as [-> Hsame].
    split; [|intros E; assert (a = i) by lia]; congruence.
  - intros now x s rect <- Hc Hw Hd clickX nearest Hnear Hothers.
    destruct (handleProximity_total (atMemo env) (segments s) Hd)
      as [memo Hmemo].
    destruct (mixed_pair_no_entry (atMemo env) _ memo i Hmemo Hns)
      as [He Hs].
    unfold handleTrackMouseDown, getPercentFromEvent.
    rewrite Hc, js_div_Some by assumption. cbn [mbind option_bind].
    rewrite Hmemo. cbn [mbind option_bind].
    pose proof (closestHandle_closestOf env memo rect x (segments s)) as Hof.
    unfold closestHandle. fold clickX in Hof |- *.
    destruct (closestLoop env memo rect clickX x 0 (segments s)
                (None, HANDLE_SNAP_PX)) as [closest dist].
    destruct Hof as [Hmin Hfound]. cbn [fst snd] in *.
    pose proof (Hmin i l EdgeEnd Hl) as HdE.
    pose proof (Hmin (i + 1)%nat r EdgeStart Hr) as HdS.
    assert (Hdist : dist <= nearest) by (unfold nearest; minmax; lra).
    destruct closest as [target|]; [|rewrite Hfound in Hdist; lra].
    destruct Hfound as (j & seg & e & Hj & -> & Hdj & _).
    assert ((e, j) = (EdgeEnd, i) \/ (e, j) = (EdgeStart, (i + 1)%nat))
      as Hpair.
    { destruct (decide ((e, j) = (EdgeEnd, i))) as [E1|N1]; [by left|].
      destruct (decide ((e, j) = (EdgeStart, (i + 1)%nat))) as [E2|N2];
        [by right|].
      specialize (Hothers j seg e Hj N1 N2). rewrite <- Hdj in Hothers. lra. }
    destruct Hpair as [[= -> ->]|[= -> ->]]; unfold handleTarget;
      rewrite ?He, ?Hs; cbn beta iota; rewrite Hj; cbn [mbind option_bind];
      eexists; (split; [reflexivity|]); [by left|by right].
Qed.

Lemma mixed_activity_never_shared_witness :
  let env := trackEnv 10 1000 in
  let segs := [ {| seg_id := "a"; seg_start := 0; seg_end := 5;
                   seg_active := None |};
                {| seg_id := "b"; seg_start := 5; seg_end := 10;
                   seg_active := Some false |} ] in
  exists s', handleTrackMouseDown env 0 500 (storeState env segs) = Some s' /\
    (dragging s' = Some (DragHandle EdgeEnd 0) \/
     dragging s' = Some (DragHandle EdgeStart 1)).
Proof.
  cbv zeta.
  pose proof (mixed_activity_never_shared (trackEnv 10 1000)
    [ {| seg_id := "a"; seg_start := 0; seg_end := 5; seg_active := None |};
      {| seg_id := "b"; seg_start := 5; seg_end := 10;
         seg_active := Some false |} ] 0
    _ _ eq_refl eq_refl ltac:(discriminate)) as (_ & _ & _ & H).
  apply (H 0%nat 500
           (storeState (trackEnv 10 1000)
              [ {| seg_id := "a"; seg_start := 0; seg_end := 5;
                   seg_active := None |};
                {| seg_id := "b"; seg_start := 5; seg_end := 10;
                   seg_active := Some false |} ])
           {| rect_left := 0; rect_width := 1000 |} eq_refl eq_refl);
    try discriminate.
  - reflexivity.
  - intros [|[|j]] seg e Hj N1 N2; [| |discriminate Hj];
      injection Hj as <-; destruct e;
      try (exfalso; first [by apply N1|by apply N2]); vm_compute; reflexivity.
Defined.

(** ** Merge commit (C2) *)

(** The example of the specification: [[0,5]] and [[5,10]], the end handle
    of the first dragged 100 px past [t = 5], give the single segment
    [[0,10]] under the identifier of the first. *)
Lemma merge_example_end_handle :
  let env := trackEnv 10 1000 in
  let s0 := setDragging (Some (DragHandle EdgeEnd 0))
              (storeState env [segment "a" 0 5; segment "b" 5 10]) in
  exists s,
    run env 0 s0 [(0, EvMouseMove 600);
                  (400, EvMergeSnapTransitionEnd "width");
                  (850, EvMergeFadeTimeout (850, "b"))]%nat = Some (850%nat, s) /\
    segments s = [segment "a" 0 10].
Proof. cbv zeta. eexists. split; vm_compute; reflexivity. Qed.

(** The same pair merged from the other side: the start handle of the
    second segment dragged 100 px to the left of [t = 5]. *)
Lemma merge_example_start_handle :
  let env := trackEnv 10 1000 in
  let s0 := setDragging (Some (DragHandle EdgeStart 1))
              (storeState env [segment "a" 0 5; segment "b" 5 10]) in
  exists s,
    run env 0 s0 [(0, EvMouseMove 400);
                  (400, EvMergeSnapTransitionEnd "width");
                  (850, EvMergeFadeTimeout (850, "b"))]%nat = Some (850%nat, s) /\
    segments s = [segment "a" 0 10].
Proof. cbv zeta. eexists. split; vm_compute; reflexivity. Qed.

(** C2 at the pair of indices 9 and 10 of eleven unit segments: the default
    sort puts index 10 before index 9, so the first phase rewrites segment
    10 to [[10,10]] (its own start, the end of segment 9) and the second
    phase removes segment 9; nothing spans [[9,11]]. *)
Theorem merge_of_segments_9_and_10 :
  let env := trackEnv 11 1100 in
  let s0 := setDragging (Some (DragHandle EdgeEnd 9))
              (storeState env (unitSegments 11)) in
  js_default_sort2 9 10 = (10, 9)%nat /\
  exists s1 s2 msb,
    handleMouseMove env 0 1100 s0 = Some (MoveMergeCommit, s1) /\
    mergeSnapBack s1 = Some msb /\
    (msb_segmentIndex msb, msb_targetSegmentIndex msb, commitAfter msb)
      = (9, 10, true)%nat /\
    handleMergeSnapTransitionEnd 400 "width" s1 = Some s2 /\
    segments s2 !! 9%nat = Some (unitSegment 9) /\
    segments s2 !! 10%nat = Some (segment "s10" 10 10) /\
    mergeFading s2 = Some "s9"%string /\
    fadeTimers s2 = [(850%nat, "s9"%string)] /\
    segments (mergeFadeTimeout (850%nat, "s9"%string) s2)
      = unitSegments 9 ++ [segment "s10" 10 10].
Proof.
  cbv zeta. split; [vm_compute; reflexivity|].
  eexists _, _, _.
  split; [vm_compute; reflexivity|].
  split; [vm_compute; reflexivity|].
  split; [vm_compute; reflexivity|].
  split; [vm_compute; reflexivity|].
  split; [vm_compute; reflexivity|].
  split; [vm_compute; reflexivity|].
  split; [vm_compute; reflexivity|].
  split; vm_compute; reflexivity.
Qed.

(** ** Case analysis of a handler *)

(** Split the hypothesis [H : handler ... = Some _] along the branches the
    handler took, recording each test. *)
Ltac option_steps H :=
  cbn [mbind option_bind mret option_ret fmap option_fmap option_map
       fst snd] in H.

Ltac branches H :=
  repeat match type of H with
  | context [@mbind option _ _ _ _ ?m] =>
      let E := fresh "E" in
      destruct m eqn:E; option_steps H; try discriminate H;
      [try (option_steps E; branches E; try injection E as <-) | ..]
  | context [match ?x with _ => _ end] =>
      let E := fresh "E" in
      destruct x eqn:E; option_steps H; try discriminate H
  end.

(** ** Release below the threshold (C4) *)











(** ** Threshold delete (C3) *)

Lemma minStartOf_total (segs : list TrimSegment) (idx : nat) :
  (idx < length segs)%nat -> exists m, minStartOf segs idx = Some m.
Proof.
  intros H. unfold minStartOf. destruct (0 <? idx)%nat; [|eauto].
  destruct (lookup_lt_is_Some_2 segs (idx - 1) ltac:(lia)) as [p ->].
  cbn. eauto.
Qed.

Lemma maxEndOf_total (env : Env) (segs : list TrimSegment) (idx : nat) :
  (idx < length segs)%nat -> exists m, maxEndOf env segs idx = Some m.
Proof.
  intros H. unfold maxEndOf.
  destruct (idx <? length segs - 1)%nat eqn:E; [|eauto].
  apply Nat.ltb_lt in E.
  destruct (lookup_lt_is_Some_2 segs (idx + 1) ltac:(lia)) as [p ->].
  cbn. eauto.
Qed.

Lemma full_progress (overshootPx : Q) :
  DELETE_THRESHOLD_PX <= overshootPx ->
  Qle_bool 1 (Math_min 1 (Math_max 0 overshootPx / DELETE_THRESHOLD_PX))
  = true.
Proof.
  unfold DELETE_THRESHOLD_PX. intros H. apply Qle_bool_iff.
  minmax; qlra.
Qed.

(** C3 fails as stated: of the two segments [[0,5]] and [[5,10]], the end
    handle of the first is dragged 150 px beyond its start handle, which
    sits on the left edge of the track; the move is handled as a normal
    drag, the boundary is clamped and nothing is deleted.  And in binary64
    the clamp of the only segment [[0,10]], its start handle dragged to the
    right end, stores a start with [end - start < 0.1], short by less than
    the slack. *)
Lemma edge_sibling_overshoot_not_deleted :
  (let env := trackEnv 10 1000 in
   let seg := segment "a" 0 5 in
   let s := setDragging (Some (DragHandle EdgeEnd 0))
              (storeState env [seg; segment "b" 5 10]) in
   (1 < length (segments s))%nat /\
   DELETE_THRESHOLD_PX <= siblingOvershootPx env (-150) EdgeEnd seg /\
   exists s', handleMouseMove env 0 (-150) s = Some (MoveNormal, s') /\
              snapBack s' = None /\ deleteIntent s' = None /\
              segments s' = [segment "a" 0 0.1; segment "b" 5 10] /\
              segments (handleMouseUp s') = segments s') /\
  exists newStart,
    Double.toQ (Double.clampStart 0 10 10) = Some newStart /\
    ~ newStart + MIN_SEPARATION <= 10 /\
    longEnough (trackEnv 10 1000) (segment "a" newStart 10).
Proof.
  split.
  - cbv zeta. split; [cbn; lia|]. split; [vm_compute; discriminate|].
    eexists.
    split; [vm_compute; reflexivity|].
    split; [vm_compute; reflexivity|].
    split; [vm_compute; reflexivity|].
    split; vm_compute; reflexivity.
  - eexists. split; [vm_compute; reflexivity|]. split.
    + intros H. vm_compute in H. by apply H.
    + split; vm_compute; discriminate.
Qed.

Lemma single_segment_store (segs : list TrimSegment) (idx : nat)
    (seg : TrimSegment) :
  length segs = 1%nat -> segs !! idx = Some seg -> idx = 0%nat /\ segs = [seg].
Proof.
  destruct segs as [|a [|b rest]]; cbn; try discriminate.
  intros _. destruct idx; cbn; [|discriminate]. by intros [= ->].
Qed.

(** C3, as amended.  On a handle drag outside detail mode: when the pointer
    is past the sibling boundary in clamped timeline time, by at least
    [DELETE_THRESHOLD_PX] pixels, and there are several segments, the move
    ends the drag with a snap-back flagged [deleteAfter]; the end of its
    transition removes the segment at the index of the snap-back from the
    store as it is then, which is the dragged segment when the store is
    still the one of the move.  When there is one segment, no move enters a
    delete intent or creates a snap-back, and the segment stays inside the
    timeline, not inverted and, up to rounding, at least [0.1] long. *)
Theorem overshoot_deletes_iff_several (env : Env) (now : nat) (x : Q)
    (s : State) (edge : Edge) (idx : nat) (seg : TrimSegment) :
  dragging s = Some (DragHandle edge idx) ->
  segments s !! idx = Some seg ->
  (detailFor s edge idx = None -> ~ getContainerWidth env == 0 ->
   pastSibling env x edge seg ->
   DELETE_THRESHOLD_PX <= siblingOvershootPx env x edge seg ->
   (1 < length (segments s))%nat ->
   exists s' sb,
     handleMouseMove env now x s = Some (MoveDeleteCommit, s') /\
     segments s' = segments s /\ dragging s' = None /\
     deleteIntent s' = None /\
     snapBack s' = Some sb /\ deleteAfter sb = true /\
     sb_segmentIndex sb = idx /\
     segments (handleSnapTransitionEnd "width" s')
       = delete idx (segments s) /\
     snapBack (handleSnapTransitionEnd "width" s') = None /\
     forall later, snapBack later = Some sb ->
       segments (handleSnapTransitionEnd "width" later)
         = delete idx (segments later) /\
       snapBack (handleSnapTransitionEnd "width" later) = None) /\
  (length (segments s) = 1%nat -> segmentOk env seg ->
   forall p, getPercentFromEvent env x = Some p ->
   exists k s' seg',
     handleMouseMove env now x s = Some (k, s') /\
     k <> MoveDeleteIntent /\ k <> MoveDeleteCommit /\
     (deleteIntent s = None -> deleteIntent s' = None) /\
     snapBack s' = snapBack s /\
     segments s' = [seg'] /\ seg_id seg' = seg_id seg /\
     segmentOk env seg').
Proof.
  intros Hdrag Hseg. split.
  - intros Hdet Hcw (percent & Hpct & Hpast) Hover Hlen.
    pose proof (lookup_lt_Some _ _ _ Hseg) as Hidx.
    apply Nat.ltb_lt in Hlen.
    assert (Hlater : forall sb later,
              deleteAfter sb = true -> sb_segmentIndex sb = idx ->
              snapBack later = Some sb ->
              segments (handleSnapTransitionEnd "width" later)
                = delete idx (segments later) /\
              snapBack (handleSnapTransitionEnd "width" later) = None).
    { intros sb later Hda Hsi Hsb. unfold handleSnapTransitionEnd.
      rewrite bool_decide_eq_true_2 by reflexivity.
      rewrite Hsb, Hda, Hsi. by split. }
    unfold handleMouseMove. rewrite Hdrag, Hpct. cbn [mbind option_bind].
    rewrite Hseg. cbn [mbind option_bind]. rewrite Hdet.
    destruct edge.
    + unfold startHandleMove.
      destruct (minStartOf_total (segments s) idx Hidx) as [m ->].
      cbn [mbind option_bind]. rewrite Hlen.
      apply Qltb_lt in Hpast. rewrite Hpast. cbn [andb].
      rewrite js_div_Some by assumption. cbn [mbind option_bind].
      unfold siblingOvershootPx in Hover. rewrite full_progress by exact Hover.
      eexists _, _. do 9 (split; [reflexivity|]).
      intros later. by apply Hlater.
    + unfold endHandleMove.
      destruct (maxEndOf_total env (segments s) idx Hidx) as [m ->].
      cbn [mbind option_bind]. rewrite Hlen.
      apply Qltb_lt in Hpast. rewrite Hpast. cbn [andb].
      rewrite js_div_Some by assumption. cbn [mbind option_bind].
      unfold siblingOvershootPx in Hover. rewrite full_progress by exact Hover.
      eexists _, _. do 9 (split; [reflexivity|]).
      intros later. by apply Hlater.
  - intros Hlen (Hlo & (Hse & Hmin) & Hhi) p Hpct.
    unfold MIN_SEPARATION in Hmin.
    pose proof (roundingSlack_nonneg env ltac:(lra)) as Hslack.
    destruct (single_segment_store _ _ _ Hlen Hseg) as [-> Hsegs].
    unfold handleMouseMove. rewrite Hdrag, Hpct. cbn [mbind option_bind].
    rewrite Hseg. cbn [mbind option_bind].
    destruct (detailFor s edge 0) as [dm|].
    + unfold detailScrub. rewrite Hpct. cbn [mbind option_bind].
      destruct edge; unfold minStartOf, maxEndOf; rewrite Hsegs; cbn;
        eexists _, _, _; (split; [reflexivity|]); cbn;
        unfold segmentOk, longEnough;
        repeat split; try discriminate; try reflexivity; try tauto;
        unfold MIN_SEPARATION; cbn; minmax; lra.
    + destruct edge; unfold startHandleMove, endHandleMove, minStartOf,
        maxEndOf; rewrite Hsegs; cbn;
        eexists _, _, _; (split; [reflexivity|]); cbn;
        unfold segmentOk, longEnough;
        repeat split; try discriminate; try reflexivity; try tauto;
        unfold MIN_SEPARATION; cbn; minmax; lra.
Qed.

Lemma overshoot_deletes_iff_several_witness :
  let env := trackEnv 10 1000 in
  let s := setDragging (Some (DragHandle EdgeStart 0))
             (storeState env [segment "a" 0 5; segment "b" 5 10]) in
  exists s', handleMouseMove env 0 600 s = Some (MoveDeleteCommit, s') /\
             segments (handleSnapTransitionEnd "width" s')
             = [segment "b" 5 10].
Proof.
  cbv zeta.
  destruct (overshoot_deletes_iff_several (trackEnv 10 1000) 0 600
    (setDragging (Some (DragHandle EdgeStart 0))
       (storeState (trackEnv 10 1000) [segment "a" 0 5; segment "b" 5 10]))
    EdgeStart 0 (segment "a" 0 5) eq_refl eq_refl) as [HA _].
  destruct HA as (s' & sb & H1 & _ & _ & _ & _ & _ & _ & H8 & _ & _).
  - reflexivity.
  - cbn. intros E. discriminate E.
  - eexists. split; vm_compute; reflexivity.
  - vm_compute. discriminate.
  - cbn. lia.
  - exists s'. split; [exact H1 | rewrite H8; reflexivity].
Defined.

(** ** Detail thumbnails: answers are applied on arrival (C5) *)

(** C5 fails as stated.  First run: two requests are in flight (one per
    prefetch timer, the second after a move of the handle); the answer to
    the second arrives, then the answer to the first, and the thumbnails
    of the first, older request are what the activated detail view shows.
    Second run: the pointer is released before the answer arrives; the
    answer is applied although the detail state has been torn down. *)
Lemma stale_detail_thumbnails_applied :
  let env := trackEnv 10 1000 in
  let s0 := initialState env "seed" in
  (exists s w0 w1 dm,
     run env 0 s0 [(0, EvHandleMouseDown 1000 0 EdgeEnd);
                   (200, EvPrefetchTimeout);
                   (250, EvMouseMove 800);
                   (450, EvPrefetchTimeout);
                   (500, EvDetailThumbnails 1 ["B"]);
                   (520, EvDetailThumbnails 0 ["A"]);
                   (850, EvDwellTimeout)]%nat%string = Some (850%nat, s) /\
     requests s = [w0; w1] /\
     detailMode s = Some dm /\
     viewStart dm == fst w1 /\ viewEnd dm == snd w1 /\
     ~ fst w0 == fst w1 /\
     detailThumbnails s = Some ["A"%string]) /\
  (exists s,
     run env 0 s0 [(0, EvHandleMouseDown 1000 0 EdgeEnd);
                   (200, EvPrefetchTimeout);
                   (300, EvMouseUp);
                   (700, EvDetailThumbnails 0 ["A"])]%nat%string
       = Some (700%nat, s) /\
     dragging s = None /\ detailMode s = None /\ pendingDetail s = None /\
     detailThumbnails s = Some ["A"%string]).
Proof.
  cbv zeta. split.
  - eexists _, _, _, _.
    split; [vm_compute; reflexivity|].
    split; [vm_compute; reflexivity|].
    split; [vm_compute; reflexivity|].
    split; [vm_compute; reflexivity|].
    split; [vm_compute; reflexivity|].
    split; [vm_compute; discriminate|].
    vm_compute; reflexivity.
  - eexists.
    split; [vm_compute; reflexivity|].
    split; [vm_compute; reflexivity|].
    split; [vm_compute; reflexivity|].
    split; vm_compute; reflexivity.
Qed.

Lemma exitDetailMode_thumbnails (s : State) :
  detailThumbnails (exitDetailMode s) = None.
Proof. reflexivity. Qed.

Lemma handleMouseMove_thumbnails (env : Env) (now : nat) (x : Q)
    (s s' : State) (k : MoveKind) :
  handleMouseMove env now x s = Some (k, s') ->
  detailThumbnails s' = detailThumbnails s.
Proof.
  intros H. unfold handleMouseMove in H.
  destruct (dragging s) as [target|]; [|by injection H as <- <-].
  destruct (getPercentFromEvent env x) as [p|] eqn:Ep; cbn in H;
    [|discriminate].
  destruct target as [e idx|l r sx res|].
  2:{ destruct res; branches H; by injection H as <- <-. }
  2:{ by injection H as <- <-. }
  destruct (segments s !! idx) as [seg|]; cbn in H; [|discriminate].
  destruct (detailFor s e idx).
  { unfold detailScrub in H. rewrite Ep in H. cbn in H.
    destruct e; branches H; by injection H as <- <-. }
  destruct e; unfold startHandleMove, endHandleMove in H; branches H;
    by injection H as <- <-.
Qed.

Lemma step_thumbnails (env : Env) (now : nat) (ev : Event) (s s' : State) :
  step env now ev s = Some s' -> isAnswer ev = false ->
  detailThumbnails s' = detailThumbnails s \/ detailThumbnails s' = None.
Proof.
  intros H Hev. destruct ev; cbn in H; try discriminate Hev.
  - unfold handle_onMouseDown, handleHandleMouseDown in H.
    branches H; injection H as <-; by right.
  - unfold handleTrackMouseDown in H.
    branches H; injection H as <-; (by right) || (by left).
  - destruct (handleMouseMove env now clientX s) as [[k s1]|] eqn:E;
      cbn in H; [|discriminate].
    injection H as <-. left. by eapply handleMouseMove_thumbnails.
  - injection H as <-. unfold handleMouseUp.
    destruct (dragging s) as [[e i|l r sx res|]|]; (by right) || (by left).
  - injection H as <-. by left.
  - injection H as <-. by left.
  - injection H as <-. unfold handleSnapTransitionEnd.
    repeat case_match; by left.
  - unfold handleMergeSnapTransitionEnd in H.
    branches H; injection H as <-; by left.
  - injection H as <-. unfold mergeFadeTimeout. case_match; by left.
  - unfold prefetchTimeout, prefetchDetailThumbnails in H.
    branches H; injection H as <-; by left.
  - unfold dwellTimeout, activateDetailMode in H.
    branches H; injection H as <-; by left.
  - injection H as <-. unfold handleKeyDown. repeat case_match; by left.
  - injection H as <-. unfold handleFindShots. case_match; by left.
  - injection H as <-. by left.
  - injection H as <-. by left.
Qed.

Lemma thumbRun_latestArrival (evs : list ThumbEvent) :
  forall s, detailThumbnails (thumbRun s evs)
            = latestArrival (detailThumbnails s) evs.
Proof.
  induction evs as [|ev rest IH]; intros s; [reflexivity|].
  cbn. unfold thumbRun in IH. rewrite IH. by destruct ev.
Qed.

(** C5, as amended: an answer is applied as the detail thumbnails when it
    arrives, whatever request it answers and whatever the state of the
    detail view; any other event leaves the thumbnails as they are or
    clears them; so the thumbnails are always those of the latest answer
    to arrive since the last clear. *)
Theorem answers_applied_on_arrival :
  (forall env now request thumbs s,
     exists s', step env now (EvDetailThumbnails request thumbs) s = Some s' /\
                detailThumbnails s' = Some thumbs) /\
  (forall env now ev s s',
     step env now ev s = Some s' -> isAnswer ev = false ->
     detailThumbnails s' = detailThumbnails s \/ detailThumbnails s' = None) /\
  (forall evs s,
     detailThumbnails (thumbRun s evs)
     = latestArrival (detailThumbnails s) evs).
Proof.
  split; [|split].
  - intros. eexists. split; reflexivity.
  - apply step_thumbnails.
  - intros. apply thumbRun_latestArrival.
Qed.

Lemma answers_applied_on_arrival_witness :
  let env := trackEnv 10 1000 in
  let s := initialState env "seed" in
  detailThumbnails (handleMouseUp s) = detailThumbnails s \/
  detailThumbnails (handleMouseUp s) = None.
Proof.
  cbv zeta.
  destruct answers_applied_on_arrival as (_ & H & _).
  apply (H (trackEnv 10 1000) 0%nat EvMouseUp); reflexivity.
Defined.

(** ** The store invariant (C1) *)

Lemma chain_weaken (env : Env) (lo lo' : Q) (segs : list TrimSegment) :
  lo' <= lo -> chain env lo segs -> chain env lo' segs.
Proof.
  destruct segs as [|seg rest]; cbn; [auto|].
  intros Hle (H1 & H2 & H3 & H4).
  split; [lra|]. split; [assumption|]. by split.
Qed.

Lemma chain_filter (env : Env) (p : TrimSegment -> bool)
    (segs : list TrimSegment) :
  forall lo, chain env lo segs -> chain env lo (List.filter p segs).
Proof.
  induction segs as [|seg rest IH]; cbn; intros lo; [auto|].
  intros (H1 & [H2 H2'] & H3 & H4). destruct (p seg); cbn.
  - repeat split; auto.
  - apply IH. eapply chain_weaken; [|eassumption]. lra.
Qed.

Lemma chain_delete (env : Env) (segs : list TrimSegment) :
  forall idx lo, chain env lo segs -> chain env lo (delete idx segs).
Proof.
  induction segs as [|seg rest IH]; intros [|idx] lo; cbn; auto.
  - intros (H1 & [H2 H2'] & H3 & H4). eapply chain_weaken; [|eassumption].
    lra.
  - intros (H1 & H2 & H3 & H4). repeat split; auto; apply H2.
Qed.

Lemma prevBound_succ (lo lo' : Q) (s0 : TrimSegment)
    (rest : list TrimSegment) (idx : nat) :
  is_Some (rest !! idx) ->
  prevBound lo (s0 :: rest) (S idx) = prevBound (seg_end s0) rest idx.
Proof.
  intros Hsome. destruct idx as [|k]; [reflexivity|]. cbn.
  destruct (rest !! k) eqn:E; [reflexivity|].
  apply lookup_ge_None_1 in E. destruct Hsome as [x Hx].
  apply lookup_lt_Some in Hx. lia.
Qed.

Lemma chain_lookup (env : Env) (segs : list TrimSegment) :
  forall idx lo seg, chain env lo segs -> segs !! idx = Some seg ->
    prevBound lo segs idx <= seg_start seg /\
    longEnough env seg /\
    seg_end seg <= nextBound env segs idx /\
    lo <= prevBound lo segs idx /\ nextBound env segs idx <= duration env.
Proof.
  induction segs as [|s0 rest IH]; intros idx lo seg; [by destruct idx|].
  cbn [chain].
  intros (H1 & [H2 H2'] & H3 & H4). destruct idx as [|idx].
  - intros [= <-]. unfold nextBound. cbn.
    destruct rest as [|s1 rest']; cbn in *;
      [split; [lra|]; split; [by split|]; split; lra|].
    destruct H4 as (H5 & [H6 H6'] & H7 & _).
    split; [lra|]. split; [by split|]. split; lra.
  - cbn [lookup list_lookup]. intros Hseg.
    destruct (IH idx _ _ H4 Hseg) as (I1 & I2 & I3 & I4 & I5).
    rewrite (prevBound_succ lo lo) by eauto.
    change (nextBound env (s0 :: rest) (S idx)) with (nextBound env rest idx).
    split; [assumption|]. split; [assumption|]. split; [assumption|].
    split; [lra|assumption].
Qed.

Lemma chain_set_start (env : Env) (segs : list TrimSegment) :
  forall idx lo seg t, chain env lo segs -> segs !! idx = Some seg ->
    prevBound lo segs idx <= t -> longEnough env (with_start seg t) ->
    chain env lo (<[idx := with_start seg t]> segs).
Proof.
  induction segs as [|s0 rest IH]; intros idx lo seg t; [by destruct idx|].
  cbn [chain]. intros (H1 & H2 & H3 & H4). destruct idx as [|idx].
  - intros [= <-] Hlo Hhi. cbn. repeat split; try assumption; apply Hhi.
  - cbn [lookup list_lookup]. intros Hseg Hlo Hhi.
    rewrite (prevBound_succ lo lo) in Hlo by eauto.
    cbn. split; [assumption|]. split; [assumption|]. split; [assumption|].
    by apply IH.
Qed.

Lemma chain_set_end (env : Env) (segs : list TrimSegment) :
  forall idx lo seg t, chain env lo segs -> segs !! idx = Some seg ->
    longEnough env (with_end seg t) -> t <= nextBound env segs idx ->
    chain env lo (<[idx := with_end seg t]> segs).
Proof.
  induction segs as [|s0 rest IH]; intros idx lo seg t; [by destruct idx|].
  cbn [chain]. intros (H1 & H2 & H3 & H4). destruct idx as [|idx]; cbn.
  - intros [= <-] Hlo Hhi. unfold nextBound in Hhi. cbn in Hhi.
    destruct rest as [|s1 rest']; cbn in *;
      [split; [assumption|]; split; [assumption|]; by split|].
    destruct H4 as (H5 & [H6 H6'] & H7 & H8).
    split; [assumption|]. split; [assumption|]. split; [lra|].
    split; [assumption|]. split; [by split|]. by split.
  - intros Hseg Hlo Hhi. split; [assumption|]. split; [assumption|].
    split; [assumption|]. apply IH; assumption.
Qed.

Lemma chain_invariant (env : Env) (segs : list TrimSegment) :
  chain env 0 segs -> storeInvariant env segs.
Proof.
  intros Hc. unfold storeInvariant, sortedByStart, nonOverlapping.
  assert (Hadj : forall i l r, segs !! i = Some l -> segs !! S i = Some r ->
                   seg_end l <= seg_start r).
  { intros i l r Hl Hr.
    destruct (chain_lookup env segs (S i) 0 r Hc Hr) as (H & _).
    cbn in H. by rewrite Hl in H. }
  split; [|split; [exact Hadj|]].
  - intros i l r Hl Hr. specialize (Hadj i l r Hl Hr).
    destruct (chain_lookup env segs i 0 l Hc Hl) as (_ & [H _] & _).
    lra.
  - apply Forall_lookup. intros i seg Hseg.
    destruct (chain_lookup env segs i 0 seg Hc Hseg)
      as (H1 & H2 & H3 & H4 & H5).
    unfold segmentOk. split; [lra|]. split; [assumption|]. lra.
Qed.

Lemma adjacent_chain (env : Env) (segs : list TrimSegment) :
  forall lo, nonOverlapping segs -> Forall (segmentOk env) segs ->
    (forall seg, head segs = Some seg -> lo <= seg_start seg) ->
    chain env lo segs.
Proof.
  induction segs as [|seg rest IH]; intros lo Hadj Hok Hhead; cbn;
    [exact I|].
  apply Forall_cons in Hok as [(H1 & H2 & H3) Hok].
  split; [by apply Hhead|]. split; [assumption|]. split; [assumption|].
  apply IH; [|assumption|].
  - intros i l r Hl Hr. by apply (Hadj (S i) l r).
  - intros s1 Hs1. apply (Hadj 0%nat seg s1); [reflexivity|].
    by destruct rest.
Qed.

Lemma invariant_chain (env : Env) (segs : list TrimSegment) :
  storeInvariant env segs -> chain env 0 segs.
Proof.
  intros (_ & Hadj & Hok). apply adjacent_chain; try assumption.
  intros seg Hseg. destruct segs as [|s0 rest]; [discriminate|].
  injection Hseg as ->. apply Forall_cons in Hok as [(H1 & _) _]. exact H1.
Qed.

Lemma minStartOf_prevBound (segs : list TrimSegment) (idx : nat) (m : Q) :
  minStartOf segs idx = Some m -> m = prevBound 0 segs idx.
Proof.
  unfold minStartOf. destruct idx as [|k]; cbn; [by intros [= <-]|].
  rewrite Nat.sub_0_r. destruct (segs !! k); cbn; [|discriminate].
  by intros [= <-].
Qed.

Lemma maxEndOf_nextBound (env : Env) (segs : list TrimSegment) (idx : nat)
    (m : Q) :
  maxEndOf env segs idx = Some m -> m = nextBound env segs idx.
Proof.
  unfold maxEndOf, nextBound.
  destruct (idx <? length segs - 1)%nat eqn:E.
  - rewrite Nat.add_1_r. destruct (segs !! S idx); cbn; [|discriminate].
    by intros [= <-].
  - apply Nat.ltb_ge in E. intros [= <-].
    rewrite (lookup_ge_None_2 segs (S idx)) by lia. reflexivity.
Qed.

(** The clamp of a start handle keeps the chain, whatever time is asked. *)
Lemma clamp_start_chain (env : Env) (segs : list TrimSegment) (idx : nat)
    (seg : TrimSegment) (m t : Q) :
  0 <= roundingSlack env ->
  chain env 0 segs -> segs !! idx = Some seg ->
  minStartOf segs idx = Some m ->
  chain env 0
    (<[idx := with_start seg (Math_max m (Math_min t (seg_end seg - 0.1)))]>
       segs).
Proof.
  intros Hslack Hc Hseg Hm. apply minStartOf_prevBound in Hm. subst m.
  destruct (chain_lookup env segs idx 0 seg Hc Hseg) as (H1 & [H2 H2'] & _).
  apply chain_set_start; try assumption; unfold longEnough;
    cbn [seg_start seg_end with_start]; unfold MIN_SEPARATION in *;
    [|split]; minmax; lra.
Qed.

(** The clamp of an end handle keeps the chain, whatever time is asked. *)
Lemma clamp_end_chain (env : Env) (segs : list TrimSegment) (idx : nat)
    (seg : TrimSegment) (m t : Q) :
  0 <= roundingSlack env ->
  chain env 0 segs -> segs !! idx = Some seg ->
  maxEndOf env segs idx = Some m ->
  chain env 0
    (<[idx := with_end seg (Math_min m (Math_max t (seg_start seg + 0.1)))]>
       segs).
Proof.
  intros Hslack Hc Hseg Hm. apply maxEndOf_nextBound in Hm. subst m.
  destruct (chain_lookup env segs idx 0 seg Hc Hseg)
    as (_ & [H2 H2'] & H3 & _).
  apply chain_set_end; try assumption; unfold longEnough;
    cbn [seg_start seg_end with_end]; unfold MIN_SEPARATION in *;
    [split|]; minmax; lra.
Qed.

Lemma handleMouseMove_chain (env : Env) (now : nat) (x : Q) (s s' : State)
    (k : MoveKind) :
  0 <= roundingSlack env ->
  handleMouseMove env now x s = Some (k, s') ->
  chain env 0 (segments s) -> chain env 0 (segments s').
Proof.
  intros Hslack H Hc. unfold handleMouseMove in H.
  destruct (dragging s) as [target|]; [|by injection H as <- <-].
  destruct (getPercentFromEvent env x) as [p|] eqn:Ep; cbn in H;
    [|discriminate].
  destruct target as [e idx|l r sx res|].
  2:{ destruct res; branches H; by injection H as <- <-. }
  2:{ by injection H as <- <-. }
  destruct (segments s !! idx) as [seg|] eqn:Eseg; cbn in H; [|discriminate].
  destruct (detailFor s e idx) as [dm|].
  { unfold detailScrub in H. rewrite Ep in H. cbn in H.
    destruct e.
    - destruct (minStartOf (segments s) idx) as [m|] eqn:Em; cbn in H;
        [|discriminate].
      injection H as <- <-. cbn. by apply clamp_start_chain.
    - destruct (maxEndOf env (segments s) idx) as [m|] eqn:Em; cbn in H;
        [|discriminate].
      injection H as <- <-. cbn. by apply clamp_end_chain. }
  destruct e; unfold startHandleMove, endHandleMove in H.
  - destruct (minStartOf (segments s) idx) as [m|] eqn:Em; cbn in H;
      [|discriminate].
    branches H; injection H as <- <-; cbn; try assumption;
      by apply clamp_start_chain.
  - destruct (maxEndOf env (segments s) idx) as [m|] eqn:Em; cbn in H;
      [|discriminate].
    branches H; injection H as <- <-; cbn; try assumption;
      by apply clamp_end_chain.
Qed.

Lemma handleSnapTransitionEnd_chain (env : Env) (p : string) (s : State) :
  chain env 0 (segments s) ->
  chain env 0 (segments (handleSnapTransitionEnd p s)).
Proof.
  intros Hc. unfold handleSnapTransitionEnd.
  destruct (bool_decide _); [|assumption].
  destruct (snapBack s) as [sb|]; [|assumption].
  destruct (deleteAfter sb); [|assumption].
  cbn. by apply chain_delete.
Qed.

Lemma filter_length_le {A : Type} (p : A -> bool) (l : list A) :
  (length (List.filter p l) <= length l)%nat.
Proof.
  induction l as [|x rest IH]; cbn; [lia|]. destruct (p x); cbn; lia.
Qed.

Lemma filter_drops {A : Type} (p : A -> bool) (l : list A) :
  forall i x, l !! i = Some x -> p x = false ->
    (length (List.filter p l) < length l)%nat.
Proof.
  induction l as [|y rest IH]; intros [|i] x; cbn; try discriminate.
  - intros [= ->] ->. pose proof (filter_length_le p rest). lia.
  - intros Hx Hp. specialize (IH i x Hx Hp). destruct (p y); cbn; lia.
Qed.

(** Both phases of a merge of the pair [(a, a+1)]: the widened segment and
    what the filter keeps of the others still form a chain. *)
Lemma merge_chain (env : Env) (p : TrimSegment -> bool)
    (segs : list TrimSegment) :
  forall a lo segA segB,
    chain env lo segs -> segs !! a = Some segA -> segs !! S a = Some segB ->
    p segB = false ->
    chain env lo
      (List.filter p
         (<[a := {| seg_id := seg_id segA; seg_start := seg_start segA;
                    seg_end := seg_end segB; seg_active := None |}]> segs)).
Proof.
  induction segs as [|s0 rest IH]; intros [|a] lo segA segB; cbn;
    try discriminate.
  - intros (H1 & [H2 H2'] & H3 & H4) [= ->] HB Hp.
    destruct rest as [|s1 rest']; [discriminate|].
    cbn in HB. injection HB as ->. cbn in H4 |- *.
    destruct H4 as (H5 & [H6 H6'] & H7 & H8). rewrite Hp.
    case_match; cbn.
    + split; [assumption|]. split; [split; cbn; lra|].
      split; [assumption|]. by apply chain_filter.
    + apply chain_filter. eapply chain_weaken; [|eassumption]. lra.
  - intros (H1 & [H2 H2'] & H3 & H4) HA HB Hp.
    specialize (IH a _ segA segB H4 HA HB Hp).
    destruct (p s0); cbn.
    + split; [assumption|]. split; [by split|]. by split.
    + eapply chain_weaken; [|eassumption]. lra.
Qed.

Lemma idIsNot_self (seg : TrimSegment) : idIsNot (seg_id seg) seg = false.
Proof. unfold idIsNot. by rewrite String.eqb_refl. Qed.

Lemma merge_commit_chain (env : Env) (now : nat) (s s1 : State)
    (msb : MergeSnapBack) (a : nat) (absorbedId : string) (t : nat) :
  chain env 0 (segments s) ->
  mergeSnapBack s = Some msb -> commitAfter msb = true ->
  js_default_sort2 (msb_segmentIndex msb) (msb_targetSegmentIndex msb)
    = (a, S a) ->
  handleMergeSnapTransitionEnd now "width" s = Some s1 ->
  mergeFading s1 = Some absorbedId ->
  chain env 0 (segments (mergeFadeTimeout (t, absorbedId) s1)).
Proof.
  intros Hc Hmsb Hcommit Hsort H Hfade.
  unfold handleMergeSnapTransitionEnd in H. cbn in H.
  rewrite Hmsb, Hcommit, Hsort in H.
  destruct (segments s !! S a) as [segB|] eqn:EB; cbn in H; [|discriminate].
  destruct (segments s !! a) as [segA|] eqn:EA; cbn in H; [|discriminate].
  injection H as <-. cbn in Hfade. injection Hfade as <-.
  unfold mergeFadeTimeout. cbn.
  pose proof (merge_chain env (idIsNot (seg_id segB)) (segments s) a 0
                segA segB Hc EA EB (idIsNot_self segB)) as Hm.
  match goal with
  | |- context [negb (length ?f =? length ?u)%nat] =>
      assert (Hlt : (length f < length u)%nat)
  end.
  { eapply (filter_drops _ _ (S a) segB); [|apply idIsNot_self].
    rewrite list_lookup_insert_ne by lia. exact EB. }
  apply Nat.lt_neq, Nat.eqb_neq in Hlt. rewrite Hlt. cbn. exact Hm.
Qed.

Lemma seed_chain (env : Env) (newId : string) :
  MIN_SEPARATION <= duration env -> chain env 0 [seedSegment env newId].
Proof.
  unfold MIN_SEPARATION. intros H.
  pose proof (roundingSlack_nonneg env ltac:(lra)).
  cbn. unfold longEnough, MIN_SEPARATION. cbn.
  repeat split; lra.
Qed.

Lemma gestureStore_chain (env : Env) (segs : list TrimSegment) :
  MIN_SEPARATION <= duration env -> gestureStore env segs ->
  chain env 0 segs.
Proof.
  intros Hd.
  assert (Hslack : 0 <= roundingSlack env).
  { apply roundingSlack_nonneg. unfold MIN_SEPARATION in Hd. lra. }
  induction 1.
  - by apply seed_chain.
  - by eapply handleMouseMove_chain.
  - by apply handleSnapTransitionEnd_chain.
  - by eapply merge_commit_chain.
  - by apply invariant_chain.
Qed.

(** C1, as amended: with a duration of at least [0.1] and a track whose
    measured width is not zero, every store reached from the seed by
    pointer moves of a drag, delete commits, merge commits run through both
    phases on a pair ordered [(a, a+1)] by the index sort, and bulk replaces
    by segments that satisfy the invariant, is sorted by start, without
    overlap between neighbours and inside [[0, duration]], with no segment
    inverted and every segment at least [0.1] long up to the rounding of
    the clamps: [end - start >= 0.1 - duration / 2^50]. *)
Theorem gesture_store_invariant (env : Env) (segs : list TrimSegment) :
  MIN_SEPARATION <= duration env ->
  (forall rect, container env = Some rect -> ~ rect_width rect == 0) ->
  gestureStore env segs ->
  storeInvariant env segs.
Proof.
  intros Hd _ Hreach. by apply chain_invariant, gestureStore_chain.
Qed.

Lemma gesture_store_invariant_witness :
  let env := trackEnv 10 1000 in
  exists s' seg,
    handleMouseMove env 0 500
      (setDragging (Some (DragHandle EdgeStart 0)) (initialState env "seed"))
    = Some (MoveNormal, s') /\
    segments s' = [seg] /\ seg_start seg == 5 /\ seg_end seg == 10 /\
    storeInvariant env (segments s').
Proof.
  cbv zeta.
  assert (exists s' seg,
            handleMouseMove (trackEnv 10 1000) 0 500
              (setDragging (Some (DragHandle EdgeStart 0))
                 (initialState (trackEnv 10 1000) "seed"))
            = Some (MoveNormal, s') /\
            segments s' = [seg] /\ seg_start seg == 5 /\ seg_end seg == 10)
    as (s' & seg & Hmove & Hsegs & Hstart & Hend).
  { eexists _, _. split; [vm_compute; reflexivity|].
    split; [vm_compute; reflexivity|]. split; reflexivity. }
  exists s', seg. split; [exact Hmove|]. split; [exact Hsegs|].
  split; [exact Hstart|]. split; [exact Hend|].
  apply gesture_store_invariant.
  - vm_compute. discriminate.
  - intros rect [= <-]. cbn. intros E. discriminate E.
  - eapply gs_move; [|exact Hmove]. apply gs_seed.
Defined.

(** C1 fails as stated.  First run: the start handle is dragged to
    [t = 5], the playhead is put at [t = 2], and the key "[" inserts a
    segment one frame long, shorter than [0.1].  Second run: after a bulk
    replace by [[0,4]] and [[6,10]] the end handle of the first is dragged
    100 px past [t = 6]; when the merge snap-back ends, the first segment is
    [[0,10]] and the second is still in the store, overlapping it.  Third:
    the seed of a timeline shorter than [0.1].  Last: in binary64 the clamp
    of the seed [[0,100]], its start handle dragged to the right end, stores
    a start with [end - start < 0.1], short by less than the slack. *)
Lemma store_invariant_broken :
  (let env := trackEnv 10 1000 in
   exists s,
     run env 0 (initialState env "seed")
       [(0%nat, EvHandleMouseDown 0 0 EdgeStart); (10%nat, EvMouseMove 500);
        (20%nat, EvMouseUp); (30%nat, EvTrackMouseDown 200);
        (40%nat, EvMouseUp); (50%nat, EvKeyDown "[" "k1")]
       = Some (50%nat, s) /\
     length (segments s) = 2%nat /\
     ~ storeInvariant env (segments s)) /\
  (let env := trackEnv 10 1000 in
   exists s,
     run env 0 (initialState env "seed")
       [(0%nat, EvFindShots [("a"%string, 0, 4); ("b"%string, 6, 10)]);
        (10%nat, EvHandleMouseDown 400 0 EdgeEnd); (20%nat, EvMouseMove 700);
        (420%nat, EvMergeSnapTransitionEnd "width")]
       = Some (420%nat, s) /\
     length (segments s) = 2%nat /\
     ~ storeInvariant env (segments s)) /\
  (let env := trackEnv 0.05 1000 in
   ~ storeInvariant env (segments (initialState env "seed"))) /\
  (exists newStart,
     Double.toQ (Double.clampStart 0 100 100) = Some newStart /\
     ~ newStart + MIN_SEPARATION <= 100 /\
     segmentOk (trackEnv 100 1000) (segment "seed" newStart 100)).
Proof.
  cbv zeta. split; [|split; [|split]].
  - eexists. split; [vm_compute; reflexivity|]. split; [reflexivity|].
    intros (_ & _ & Hok). cbn [segments] in Hok.
    apply Forall_cons in Hok as [(_ & [_ H] & _) _].
    vm_compute in H. by apply H.
  - eexists. split; [vm_compute; reflexivity|]. split; [reflexivity|].
    intros (_ & Hadj & _). cbn [segments] in Hadj.
    specialize (Hadj 0%nat _ _ eq_refl eq_refl).
    vm_compute in Hadj. by apply Hadj.
  - intros (_ & _ & Hok). cbn in Hok.
    apply Forall_cons in Hok as [(_ & [_ H] & _) _].
    vm_compute in H. by apply H.
  - eexists. split; [vm_compute; reflexivity|]. split.
    + intros H. vm_compute in H. by apply H.
    + repeat split; vm_compute; discriminate.
Qed.

(** ** Dwell timing (C8) *)

Lemma computeDetailWindow_fields (env : Env) (h : Q) (i : nat) (e : Edge)
    (dm : DetailMode) :
  computeDetailWindow env h i e = Some dm ->
  handleTime dm = h /\ dm_segmentIndex dm = i /\ dm_edge dm = e.
Proof.
  unfold computeDetailWindow.
  destruct (js_div h (duration env)); cbn; [|discriminate].
  repeat case_match; by intros [= <-].
Qed.

Lemma no_handle_no_timer (s : State) :
  timersOfDrag s ->
  (forall e i, dragging s <> Some (DragHandle e i)) ->
  dwellTimer s = None /\ prefetchTimer s = None.
Proof.
  intros Hdrag Hno. split.
  - destruct (dwellTimer s) as [tm|] eqn:E; [|reflexivity].
    destruct (Hno _ _ (Hdrag tm (or_introl E))).
  - destruct (prefetchTimer s) as [tm|] eqn:E; [|reflexivity].
    destruct (Hno _ _ (Hdrag tm (or_intror E))).
Qed.

(** The dwell timer after a pointer move: gone, or set at the time of the
    move. *)
Lemma handleMouseMove_dwell (env : Env) (t : nat) (x : Q) (s s' : State)
    (k : MoveKind) :
  handleMouseMove env t x s = Some (k, s') -> timersOfDrag s ->
  dwellTimer s' = None \/
  (exists tm, dwellTimer s' = Some tm /\ due tm = (t + DWELL_MS)%nat).
Proof.
  intros H Hdrag. unfold handleMouseMove in H.
  destruct (dragging s) as [target|] eqn:Ed.
  2:{ injection H as <- <-. left.
      apply no_handle_no_timer; [assumption|]. intros e i. by rewrite Ed. }
  destruct (getPercentFromEvent env x) as [p|] eqn:Ep; option_steps H;
    [|discriminate].
  destruct target as [e idx|l r sx res|].
  2:{ destruct res; branches H; injection H as <- <-;
        first [ right; eexists; split; reflexivity
              | left; apply no_handle_no_timer; [assumption|];
                intros e i; by rewrite Ed ]. }
  2:{ injection H as <- <-. left. change (dwellTimer s = None).
      apply no_handle_no_timer; [assumption|]. intros e i. by rewrite Ed. }
  destruct (segments s !! idx) as [seg|]; option_steps H; [|discriminate].
  destruct (detailFor s e idx).
  { unfold detailScrub in H. rewrite Ep in H. option_steps H.
    destruct e; branches H; injection H as <- <-; by left. }
  destruct e; unfold startHandleMove, endHandleMove in H; branches H;
    injection H as <- <-;
    first [ by left | right; eexists; split; reflexivity ].
Qed.

(** Every pointer move has the effect its kind announces. *)
Lemma handleMouseMove_effect (env : Env) (t : nat) (x : Q) (s s' : State)
    (k : MoveKind) :
  handleMouseMove env t x s = Some (k, s') -> moveEffect t k s s'.
Proof.
  intros H. unfold handleMouseMove in H.
  destruct (dragging s) as [target|] eqn:Ed.
  2:{ by injection H as <- <-. }
  destruct (getPercentFromEvent env x) as [p|] eqn:Ep; option_steps H;
    [|discriminate].
  destruct target as [e idx|l r sx res|].
  2:{ destruct res; branches H; injection H as <- <-;
        (split; [reflexivity|]); cbn.
      all: try (split; [reflexivity|]; by eexists _, _, _, _).
      all: first
        [ eexists _, _, _, EdgeStart, _, _; split; [exact Ed|];
          split; [reflexivity|]; split; [eassumption|]; by repeat split
        | eexists _, _, _, EdgeEnd, _, _; split; [exact Ed|];
          split; [reflexivity|]; split; [eassumption|]; by repeat split ]. }
  2:{ injection H as <- <-. by repeat split. }
  destruct (segments s !! idx) as [seg|] eqn:Eseg; option_steps H;
    [|discriminate].
  pose proof (lookup_lt_Some _ _ _ Eseg) as Hidx.
  destruct (detailFor s e idx) eqn:Edf.
  { unfold detailScrub in H. rewrite Ep in H. option_steps H.
    destruct e; branches H; injection H as <- <-;
      (split; [reflexivity|]); eexists _, _, _, _; by repeat split. }
  destruct e; unfold startHandleMove, endHandleMove in H; branches H;
    injection H as <- <-; (split; [reflexivity|]); cbn.
  all: try (eexists _, _; by repeat split).
  all: eexists _, _, _; (split; [exact Ed|]); (split; [exact Edf|]);
    (split; [reflexivity|]); (split; [by apply list_lookup_insert_eq|]);
    by repeat split.
Qed.

Lemma handleHandleMouseDown_effect (t : nat) (x : Q) (i : nat) (e : Edge)
    (s s' : State) :
  handleHandleMouseDown t x i e s = Some s' -> pressEffect t s s'.
Proof.
  unfold handleHandleMouseDown. intros H.
  destruct (segments s !! i) as [seg|] eqn:E; option_steps H; [|discriminate].
  injection H as <-. right. left.
  split; [reflexivity|]. split; [reflexivity|].
  exists e, i, seg. split; [reflexivity|]. split; [exact E|].
  by destruct e.
Qed.

Lemma handleSharedHandleMouseDown_effect (t : nat) (x : Q) (l r : nat)
    (s : State) :
  pressEffect t s (handleSharedHandleMouseDown x l r s).
Proof. left. repeat (split; [reflexivity|]). by eexists _, _, _, _. Qed.

Lemma handle_onMouseDown_effect (env : Env) (t : nat) (x : Q) (i : nat)
    (e : Edge) (s s' : State) :
  handle_onMouseDown env t x i e s = Some s' -> pressEffect t s s'.
Proof.
  unfold handle_onMouseDown. intros H.
  destruct (handleProximity (atMemo env) (segments s)) as [info|];
    option_steps H; [|discriminate].
  destruct (info !! handleKey e i) as [b|].
  - destruct (significantOverlap (Some b)).
    + destruct e; injection H as <-;
        apply handleSharedHandleMouseDown_effect.
    + by eapply handleHandleMouseDown_effect.
  - by eapply handleHandleMouseDown_effect.
Qed.

Lemma handleTarget_isHandle (info : gmap string ProximityInfo) (x : Q)
    (e : Edge) (i : nat) :
  isHandleTarget (handleTarget info x e i).
Proof.
  unfold handleTarget. destruct (info !! handleKey e i); [|exact I].
  destruct (significantOverlap _); [|exact I]. by destruct e.
Qed.

Lemma closestLoop_isHandle (env : Env) (info : gmap string ProximityInfo)
    (rect : DOMRect) (clickX x : Q) :
  forall segs i acc,
    from_option isHandleTarget True (fst acc) ->
    from_option isHandleTarget True
      (fst (closestLoop env info rect clickX x i segs acc)).
Proof.
  induction segs as [|seg rest IH]; intros i acc Hacc; cbn; [assumption|].
  apply IH. unfold closestStep. destruct acc as [closest dist].
  destruct (Qltb _ dist).
  - destruct (Qltb _ _); cbn; apply handleTarget_isHandle.
  - destruct (Qltb _ _); cbn; [apply handleTarget_isHandle | assumption].
Qed.

Lemma handleTrackMouseDown_effect (env : Env) (t : nat) (x : Q)
    (s s' : State) :
  handleTrackMouseDown env t x s = Some s' -> pressEffect t s s'.
Proof.
  unfold handleTrackMouseDown. intros H.
  destruct (getPercentFromEvent env x) as [p|]; option_steps H;
    [|discriminate].
  assert (Hclosest : forall closest,
            match container env with
            | Some rect =>
                info ← handleProximity (atMemo env) (segments s);
                Some (closestHandle env info rect x (segments s))
            | None => Some None
            end = Some closest ->
            from_option isHandleTarget True closest).
  { intros closest. destruct (container env) as [rect|].
    - destruct (handleProximity (atMemo env) (segments s)) as [info|]; cbn;
        [|discriminate].
      intros [= <-]. by apply closestLoop_isHandle.
    - by intros [= <-]. }
  destruct (match container env with
            | Some rect =>
                info ← handleProximity (atMemo env) (segments s);
                Some (closestHandle env info rect x (segments s))
            | None => Some None
            end) as [closest|]; option_steps H; [|discriminate].
  specialize (Hclosest closest eq_refl).
  destruct closest as [[e i|l r sx res|]|].
  - destruct (segments s !! i) as [seg|] eqn:E; option_steps H;
      [|discriminate].
    injection H as <-. right. left.
    split; [reflexivity|]. split; [reflexivity|].
    exists e, i, seg. split; [reflexivity|]. split; [exact E|].
    by destruct e.
  - injection H as <-. left. repeat (split; [reflexivity|]).
    by eexists _, _, _, _.
  - destruct Hclosest.
  - injection H as <-. right. right. by repeat split.
Qed.

Lemma handleMouseUp_effect (s : State) :
  (dragging s = None /\ handleMouseUp s = s) \/
  (dragging (handleMouseUp s) = None /\
   dwellTimer (handleMouseUp s) = None /\
   prefetchTimer (handleMouseUp s) = None /\
   ((detailMode (handleMouseUp s) = None /\
     pendingDetail (handleMouseUp s) = None) \/
    (exists l r sx res, dragging s = Some (DragShared l r sx res)) /\
    detailMode (handleMouseUp s) = detailMode s /\
    pendingDetail (handleMouseUp s) = pendingDetail s)).
Proof.
  unfold handleMouseUp.
  destruct (dragging s) as [[e i|l r sx res|]|] eqn:Ed.
  - right. repeat (split; [reflexivity|]). left. by split.
  - right. repeat (split; [reflexivity|]). right.
    split; [by eexists _, _, _, _|]. by split.
  - right. repeat (split; [reflexivity|]). left. by split.
  - left. by split.
Qed.

Lemma sameDrag_refl (s : State) : sameDrag s s.
Proof. by repeat split. Qed.

(** Events that are neither pointer events nor timers leave the drag, the
    timers and the detail state alone. *)
Lemma step_sameDrag (env : Env) (t : nat) (ev : Event) (s s' : State) :
  step env t ev s = Some s' ->
  isPointerEvent ev = false ->
  ev <> EvPrefetchTimeout -> ev <> EvDwellTimeout ->
  sameDrag s s'.
Proof.
  intros H Hp Hnp Hnd. destruct ev; cbn in H; try discriminate Hp;
    try congruence.
  - injection H as <-. by repeat split.
  - injection H as <-. by repeat split.
  - injection H as <-. unfold handleSnapTransitionEnd.
    repeat case_match; by repeat split.
  - unfold handleMergeSnapTransitionEnd in H.
    branches H; injection H as <-; by repeat split.
  - injection H as <-. unfold mergeFadeTimeout. case_match; by repeat split.
  - injection H as <-. by repeat split.
  - injection H as <-. unfold handleKeyDown.
    repeat case_match; by repeat split.
  - injection H as <-. unfold handleFindShots. case_match; by repeat split.
  - injection H as <-. by repeat split.
  - injection H as <-. by repeat split.
Qed.

Lemma prefetchTimeout_effect (env : Env) (s s' : State) :
  prefetchTimeout env s = Some s' ->
  dragging s' = dragging s /\ dwellTimer s' = dwellTimer s /\
  prefetchTimer s' = None /\ detailMode s' = detailMode s /\
  (pendingDetail s' = pendingDetail s \/
   exists tm p, prefetchTimer s = Some tm /\ pendingDetail s' = Some p /\
                dm_segmentIndex p = tm_segmentIndex tm /\
                dm_edge p = tm_edge tm).
Proof.
  unfold prefetchTimeout, prefetchDetailThumbnails. intros H.
  destruct (prefetchTimer s) as [tm|] eqn:Et.
  2:{ injection H as <-. repeat (split; [done|]). by left. }
  destruct (detailMode s) eqn:Edm.
  { injection H as <-. repeat (split; [done|]). by left. }
  destruct (computeDetailWindow env _ _ _) as [dm|] eqn:Ew; option_steps H;
    [|discriminate].
  injection H as <-. apply computeDetailWindow_fields in Ew as (_ & Hi & He).
  repeat (split; [done|]). right. by exists tm, dm.
Qed.

Lemma dwellTimeout_effect (env : Env) (s s' : State) :
  dwellTimeout env s = Some s' ->
  dragging s' = dragging s /\ dwellTimer s' = None /\
  prefetchTimer s' = prefetchTimer s /\
  (detailMode s' = detailMode s /\ pendingDetail s' = pendingDetail s \/
   exists tm dm,
     dwellTimer s = Some tm /\ detailMode s = None /\
     detailMode s' = Some dm /\ handleTime dm = tm_handleTime tm /\
     (pendingDetail s = None /\ pendingDetail s' = None /\
      dm_segmentIndex dm = tm_segmentIndex tm /\ dm_edge dm = tm_edge tm \/
      exists p, pendingDetail s = Some p /\ pendingDetail s' = Some dm /\
                dm = withHandleTime p (tm_handleTime tm))).
Proof.
  unfold dwellTimeout, activateDetailMode. intros H.
  destruct (dwellTimer s) as [tm|] eqn:Et.
  2:{ injection H as <-. repeat (split; [done|]). by left. }
  destruct (detailMode s) eqn:Edm.
  { injection H as <-. repeat (split; [done|]). by left. }
  cbn [detailMode setDwellTimer] in H. rewrite Edm in H.
  cbn [pendingDetail setDwellTimer] in H.
  destruct (pendingDetail s) as [p|] eqn:Ep.
  - injection H as <-. repeat (split; [done|]). right.
    exists tm, (withHandleTime p (tm_handleTime tm)).
    repeat (split; [done|]). right. by exists p.
  - destruct (computeDetailWindow env _ _ _) as [dm|] eqn:Ew;
      option_steps H; [|discriminate].
    injection H as <-. apply computeDetailWindow_fields in Ew as (_ & Hi & He).
    repeat (split; [done|]). right.
    exists tm, (withHandleTime dm (tm_handleTime tm)).
    repeat (split; [done|]). left. by repeat split.
Qed.

Lemma detailFor_Some (s : State) (e : Edge) (i : nat) (dm : DetailMode) :
  detailFor s e i = Some dm ->
  detailMode s = Some dm /\ dm_segmentIndex dm = i /\ dm_edge dm = e.
Proof.
  unfold detailFor. destruct (detailMode s) as [d|]; [|discriminate].
  destruct (dm_segmentIndex d =? i)%nat eqn:Ei; cbn; [|discriminate].
  destruct (bool_decide (dm_edge d = e)) eqn:Ee; [|discriminate].
  intros [= <-]. apply Nat.eqb_eq in Ei. apply bool_decide_eq_true_1 in Ee.
  by repeat split.
Qed.

Lemma detailFor_None (s : State) (e : Edge) (i : nat) :
  detailOfDrag s -> dragging s = Some (DragHandle e i) ->
  detailFor s e i = None -> detailMode s = None.
Proof.
  intros Hd Hdrag Hf. destruct (detailMode s) as [dm|] eqn:E; [|reflexivity].
  specialize (Hd dm E). rewrite Hdrag in Hd. injection Hd as -> ->.
  unfold detailFor in Hf. rewrite E, Nat.eqb_refl in Hf. cbn in Hf.
  by rewrite bool_decide_eq_true_2 in Hf.
Qed.

Lemma no_drag_idle (s : State) :
  dragInvariant s -> (forall e i, dragging s <> Some (DragHandle e i)) ->
  dwellTimer s = None /\ prefetchTimer s = None /\ detailMode s = None.
Proof.
  intros (Ht & Hd & _) Hno.
  destruct (no_handle_no_timer s Ht Hno) as [-> ->].
  repeat split. destruct (detailMode s) as [dm|] eqn:E; [|reflexivity].
  destruct (Hno _ _ (Hd dm E)).
Qed.

Lemma dragInvariant_same (s s' : State) :
  sameDrag s s' -> dragInvariant s -> dragInvariant s'.
Proof.
  intros (Hdr & Hdw & Hpf & Hdm & Hp) (Ht & Hd & Hpd).
  unfold dragInvariant, timersOfDrag, detailOfDrag, pendingOfDrag.
  rewrite Hdr, Hdw, Hpf, Hdm, Hp. by repeat split.
Qed.

Lemma timerSetAt_fields (t delay : nat) (h : Q) (i : nat) (e : Edge)
    (timer : option Timer) (tm : Timer) :
  timerSetAt t delay h i e timer -> timer = Some tm ->
  due tm = (t + delay)%nat /\ tm_handleTime tm = h /\
  tm_segmentIndex tm = i /\ tm_edge tm = e.
Proof. unfold timerSetAt. intros -> [= <-]. by repeat split. Qed.

Lemma pressEffect_dragInvariant (t : nat) (s s' : State) :
  pressEffect t s s' -> dragging s = None -> dragInvariant s ->
  dragInvariant s'.
Proof.
  intros Heff Hup Hinv.
  destruct Heff as [(Hdm & Hp & Hdw & Hpf & _)
                   |[(Hdm & Hp & e & i & seg & Hdr & _ & Hdw & Hpf)
                    |(Hdr & Hdm & Hp & Hdw & Hpf)]].
  - repeat split.
    + intros tm [H|H]; congruence.
    + intros dm H; congruence.
    + intros p H; congruence.
  - repeat split.
    + intros tm [H|H].
      * destruct (timerSetAt_fields _ _ _ _ _ _ _ Hdw H) as (_ & _ & -> & ->).
        exact Hdr.
      * destruct (timerSetAt_fields _ _ _ _ _ _ _ Hpf H) as (_ & _ & -> & ->).
        exact Hdr.
    + intros dm H; congruence.
    + intros p H; congruence.
  - destruct (no_drag_idle s Hinv) as (Hdw0 & Hpf0 & Hdm0).
    { intros e i. by rewrite Hup. }
    repeat split.
    + intros tm [H|H]; congruence.
    + intros dm H; congruence.
    + intros p H. by rewrite Hdr.
Qed.

Lemma moveEffect_dragInvariant (t : nat) (k : MoveKind) (s s' : State) :
  moveEffect t k s s' -> dragInvariant s -> dragInvariant s'.
Proof.
  intros [Hp Heff] Hinv. pose proof Hinv as (Ht & Hd & Hpd).
  destruct k; cbn in Heff.
  - by destruct Heff as [-> _].
  - destruct Heff as (_ & Hdr & Hdw & Hpf & Hdm).
    by apply (dragInvariant_same s).
  - by destruct Heff as [-> _].
  - destruct Heff as (l & r & sx & e & i & seg & Hs & Hdr & _ & Hdw & Hpf & Hdm).
    destruct (no_drag_idle s Hinv) as (_ & _ & Hdm0).
    { intros e' i'. by rewrite Hs. }
    repeat split.
    + intros tm [H|H].
      * destruct (timerSetAt_fields _ _ _ _ _ _ _ Hdw H) as (_ & _ & -> & ->).
        exact Hdr.
      * destruct (timerSetAt_fields _ _ _ _ _ _ _ Hpf H) as (_ & _ & -> & ->).
        exact Hdr.
    + intros dm H; congruence.
    + intros p H. rewrite Hp in H. specialize (Hpd p H).
      by rewrite Hs in Hpd.
  - destruct Heff as (e & i & dm & h & Hs & Hdr & Hf & Hdm & Hdw & Hpf).
    apply detailFor_Some in Hf as (_ & <- & <-).
    repeat split.
    + intros tm [H|H]; [congruence|]. rewrite Hdr. apply Ht. right.
      congruence.
    + intros dm' H. rewrite Hdm in H. injection H as <-. by rewrite Hdr.
    + intros p H. rewrite Hdr. apply Hpd. congruence.
  - destruct Heff as (e & i & Hs & Hf & Hdr & _ & Hdw & Hpf & Hdm).
    repeat split.
    + intros tm [H|H]; congruence.
    + intros dm H. rewrite Hdr. apply Hd. congruence.
    + intros p H. rewrite Hdr. apply Hpd. congruence.
  - destruct Heff as (e & i & Hs & Hf & Hdr & _ & Hdw & Hpf & Hdm).
    pose proof (detailFor_None s e i Hd Hs Hf) as Hdm0.
    repeat split.
    + intros tm [H|H]; congruence.
    + intros dm H; congruence.
    + intros p H. by rewrite Hdr.
  - destruct Heff as (e & i & Hs & Hf & Hdr & _ & Hdw & Hpf & Hdm).
    repeat split.
    + intros tm [H|H]; congruence.
    + intros dm H. rewrite Hdr. apply Hd. congruence.
    + intros p H. rewrite Hdr. apply Hpd. congruence.
  - destruct Heff as (e & i & Hs & Hf & Hdr & _ & Hdw & Hpf & Hdm).
    pose proof (detailFor_None s e i Hd Hs Hf) as Hdm0.
    repeat split.
    + intros tm [H|H]; congruence.
    + intros dm H; congruence.
    + intros p H. by rewrite Hdr.
  - destruct Heff as (e & i & seg & Hs & Hf & Hdr & _ & _ & Hdw & Hpf & Hdm).
    repeat split.
    + intros tm [H|H].
      * destruct (timerSetAt_fields _ _ _ _ _ _ _ Hdw H) as (_ & _ & -> & ->).
        congruence.
      * destruct (timerSetAt_fields _ _ _ _ _ _ _ Hpf H) as (_ & _ & -> & ->).
        congruence.
    + intros dm H. rewrite Hdr. apply Hd. congruence.
    + intros p H. rewrite Hdr. apply Hpd. congruence.
Qed.

Lemma timerSetAt_fresh (t delay : nat) (h : Q) (i : nat) (e : Edge)
    (timer : option Timer) :
  timerSetAt t delay h i e timer -> timerFresh t delay timer.
Proof. intros H tm Htm. by destruct (timerSetAt_fields _ _ _ _ _ _ _ H Htm). Qed.

Lemma timerFresh_None (t delay : nat) : timerFresh t delay None.
Proof. intros tm H. discriminate H. Qed.

Lemma press_step (env : Env) (t : nat) (ev : Event) (s s' : State) :
  isPress ev = true -> step env t ev s = Some s' -> pressEffect t s s'.
Proof.
  intros Hp H. destruct ev; try discriminate Hp; cbn in H.
  - by eapply handle_onMouseDown_effect.
  - by eapply handleTrackMouseDown_effect.
Qed.

Lemma handleMouseUp_dragInvariant (s : State) :
  dragInvariant s -> dragInvariant (handleMouseUp s).
Proof.
  intros Hinv.
  destruct (handleMouseUp_effect s) as [[_ ->]|(Hdr & Hdw & Hpf & Hrest)];
    [assumption|].
  assert (detailMode (handleMouseUp s) = None) as Hdm.
  { destruct Hrest as [[H _]|((l & r & sx & res & Hs) & -> & _)];
      [assumption|].
    apply (no_drag_idle s Hinv). intros e i. by rewrite Hs. }
  repeat split.
  - intros tm [H|H]; congruence.
  - intros dm H; congruence.
  - intros p H. by rewrite Hdr.
Qed.

Lemma prefetchTimeout_dragInvariant (env : Env) (s s' : State) :
  prefetchTimeout env s = Some s' -> dragInvariant s -> dragInvariant s'.
Proof.
  intros H (Ht & Hd & Hpd).
  apply prefetchTimeout_effect in H as (Hdr & Hdw & Hpf & Hdm & Hp).
  repeat split.
  - intros tm [E|E]; [|congruence]. rewrite Hdr. apply Ht. left. congruence.
  - intros dm E. rewrite Hdr. apply Hd. congruence.
  - intros p E. rewrite Hdr.
    destruct Hp as [Hp|(tm & p' & Htm & Hp' & Hi & He)].
    + apply Hpd. congruence.
    + rewrite (Ht tm (or_intror Htm)).
      assert (p = p') as -> by congruence. by split.
Qed.

Lemma dwellTimeout_dragInvariant (env : Env) (s s' : State) :
  dwellTimeout env s = Some s' -> dragInvariant s -> dragInvariant s'.
Proof.
  intros H (Ht & Hd & Hpd).
  apply dwellTimeout_effect in H as (Hdr & Hdw & Hpf & Hrest).
  destruct Hrest as [[Hdm Hp]|(tm & dm & Htm & Hdm0 & Hdm & _ & Hrest)].
  - repeat split.
    + intros tm [E|E]; [congruence|]. rewrite Hdr. apply Ht. right.
      congruence.
    + intros dm E. rewrite Hdr. apply Hd. congruence.
    + intros p E. rewrite Hdr. apply Hpd. congruence.
  - pose proof (Ht tm (or_introl Htm)) as Hs.
    assert (dm_edge dm = tm_edge tm /\
            dm_segmentIndex dm = tm_segmentIndex tm) as [He Hi].
    { destruct Hrest as [(_ & _ & Hi & He)|(p & Hp & _ & ->)]; [by split|].
      specialize (Hpd p Hp). rewrite Hs in Hpd. destruct Hpd as [-> ->].
      by split. }
    repeat split.
    + intros tm' [E|E]; [congruence|]. rewrite Hdr. apply Ht. right.
      congruence.
    + intros dm' E. assert (dm' = dm) as -> by congruence.
      rewrite Hdr, Hs. by rewrite He, Hi.
    + intros p E. rewrite Hdr, Hs.
      destruct Hrest as [(_ & Hp' & _)|(p' & Hp & Hp' & Heq)];
        [congruence|].
      assert (p = dm) as -> by congruence. by split.
Qed.

(** Every event keeps timers, detail view and prefetched window on the
    handle being dragged. *)
Lemma step_dragInvariant (env : Env) (t : nat) (ev : Event) (s s' : State) :
  dragInvariant s -> (isPress ev = true -> dragging s = None) ->
  step env t ev s = Some s' ->
  dragInvariant s'.
Proof.
  intros Hinv Hen H.
  destruct (isPress ev) eqn:Hpress.
  { eapply pressEffect_dragInvariant; [by eapply press_step| |assumption].
    by apply Hen. }
  destruct ev; try discriminate Hpress;
    try (eapply dragInvariant_same; [|exact Hinv];
         by eapply step_sameDrag).
  - cbn in H. destruct (handleMouseMove env t clientX s) as [[k s1]|] eqn:E;
      [|discriminate]. injection H as <-.
    eapply moveEffect_dragInvariant; [|exact Hinv].
    by eapply handleMouseMove_effect.
  - cbn in H. injection H as <-. by apply handleMouseUp_dragInvariant.
  - cbn in H. by eapply prefetchTimeout_dragInvariant.
  - cbn in H. by eapply dwellTimeout_dragInvariant.
Qed.

(** The dwell timer after an event at [t]: after a pointer event it is gone
    or was set at [t]; after another event it is gone or the one before. *)
Lemma step_dwellTimer (env : Env) (t : nat) (ev : Event) (s s' : State) :
  dragInvariant s -> (isPress ev = true -> dragging s = None) ->
  step env t ev s = Some s' ->
  if isPointerEvent ev then timerFresh t DWELL_MS (dwellTimer s')
  else dwellTimer s' = None \/ dwellTimer s' = dwellTimer s.
Proof.
  intros Hinv Hen H.
  destruct (isPress ev) eqn:Hpress.
  { assert (isPointerEvent ev = true) as -> by (by destruct ev).
    pose proof (Hen eq_refl) as Hup.
    destruct (press_step env t ev s s' Hpress H)
      as [(_ & _ & -> & _)|[(_ & _ & e & i & seg & _ & _ & Hdw & _)
                           |(_ & _ & _ & -> & _)]].
    - apply timerFresh_None.
    - by eapply timerSetAt_fresh.
    - destruct (no_drag_idle s Hinv) as (-> & _).
      { intros e i. by rewrite Hup. }
      apply timerFresh_None. }
  destruct ev; try discriminate Hpress;
    try (right; by eapply step_sameDrag).
  - cbn in H. destruct (handleMouseMove env t clientX s) as [[k s1]|] eqn:E;
      [|discriminate]. injection H as <-. cbn.
    destruct Hinv as (Ht & _).
    destruct (handleMouseMove_dwell _ _ _ _ _ _ E Ht) as [->|(tm & -> & Hd)].
    + apply timerFresh_None.
    + by intros tm' [= <-].
  - cbn in H. injection H as <-. cbn.
    destruct (handleMouseUp_effect s) as [[Hup ->]|(_ & -> & _)].
    + destruct (no_drag_idle s Hinv) as (-> & _).
      { intros e i. by rewrite Hup. }
      apply timerFresh_None.
    + apply timerFresh_None.
  - cbn in H. apply prefetchTimeout_effect in H as (_ & -> & _). by right.
  - cbn in H. apply dwellTimeout_effect in H as (_ & -> & _). by left.
Qed.

Lemma step_dwellInvariant (env : Env) (hist : list (nat * Event))
    (now t : nat) (ev : Event) (s s' : State) :
  dwellInvariant hist now s -> (now <= t)%nat ->
  (isPress ev = true -> dragging s = None) -> step env t ev s = Some s' ->
  dwellInvariant (hist ++ [(t, ev)]) t s'.
Proof.
  intros (Hhist & Ht & Hd & Hp & Hq) Hle Hen H.
  assert (dragInvariant s) as Hinv by (by repeat split).
  pose proof (step_dragInvariant env t ev s s' Hinv Hen H) as (Ht' & Hd' & Hp').
  pose proof (step_dwellTimer env t ev s s' Hinv Hen H) as Hdw.
  split; [|split; [exact Ht'|split; [exact Hd'|split; [exact Hp'|]]]].
  - intros t0 e0 Hin. apply in_app_or in Hin as [Hin|[[= <- <-]|[]]];
      [|lia]. specialize (Hhist _ _ Hin). lia.
  - intros t0 e0 tm Hin Hptr Htm.
    apply in_app_or in Hin as [Hin|[[= <- <-]|[]]].
    + destruct (isPointerEvent ev).
      * rewrite (Hdw tm Htm). specialize (Hhist _ _ Hin). lia.
      * destruct Hdw as [Hdw|Hdw]; [congruence|].
        rewrite Hdw in Htm. by eapply Hq.
    + rewrite Hptr in Hdw. rewrite (Hdw tm Htm). lia.
Qed.

Lemma pressesWhenUp_head (env : Env) (s : State) (t : nat) (ev : Event)
    (rest : list (nat * Event)) (s' : State) :
  pressesWhenUp env s ((t, ev) :: rest) = true ->
  step env t ev s = Some s' ->
  (isPress ev = true -> dragging s = None) /\
  pressesWhenUp env s' rest = true.
Proof.
  cbn [pressesWhenUp]. intros H Hs. rewrite Hs in H.
  apply andb_prop in H as [H1 H2]. split; [|exact H2].
  intros Hp. rewrite Hp in H1. cbn in H1. by destruct (dragging s).
Qed.

Lemma run_dwellInvariant (env : Env) (tr hist : list (nat * Event))
    (now t : nat) (s s' : State) :
  dwellInvariant hist now s -> pressesWhenUp env s tr = true ->
  run env now s tr = Some (t, s') ->
  dwellInvariant (hist ++ tr) t s'.
Proof.
  revert hist now s.
  induction tr as [|[t1 ev] tr IH]; intros hist now s Hinv Hup H.
  - cbn in H. injection H as <- <-. by rewrite app_nil_r.
  - cbn [run] in H.
    destruct (now <=? t1)%nat eqn:Hle; [|discriminate].
    destruct (enabled t1 ev s) eqn:Hen; [|discriminate].
    cbn [andb] in H.
    destruct (step env t1 ev s) as [s1|] eqn:Hs; option_steps H;
      [|discriminate].
    apply Nat.leb_le in Hle.
    destruct (pressesWhenUp_head env s t1 ev tr s1 Hup Hs) as [Hpress Hup1].
    replace (hist ++ (t1, ev) :: tr) with ((hist ++ [(t1, ev)]) ++ tr)
      by (by rewrite <- app_assoc).
    eapply IH; [|exact Hup1|exact H]. by eapply step_dwellInvariant.
Qed.

Lemma initial_dwellInvariant (env : Env) (newId : string) :
  dwellInvariant [] 0 (initialState env newId).
Proof.
  split; [by intros t0 e0 []|].
  split; [by intros tm [H|H]|].
  split; [by intros dm H|].
  split; [by intros p H|]. by intros t0 e0 tm [].
Qed.

(** Only the dwell timer turns the detail view on. *)
Lemma activation_by_dwell (env : Env) (t : nat) (ev : Event) (s s' : State)
    (dm : DetailMode) :
  enabled t ev s = true -> step env t ev s = Some s' ->
  detailMode s = None -> detailMode s' = Some dm ->
  ev = EvDwellTimeout /\
  exists tm, dwellTimer s = Some tm /\ (due tm <= t)%nat /\
             handleTime dm = tm_handleTime tm.
Proof.
  intros Hen H Hoff Hon.
  destruct (isPress ev) eqn:Hpress.
  { destruct (press_step env t ev s s' Hpress H)
      as [(E & _)|[(E & _)|(_ & E & _)]]; congruence. }
  destruct ev; try discriminate Hpress;
    try (assert (sameDrag s s') as (_ & _ & _ & E & _)
           by (by eapply step_sameDrag); congruence).
  - cbn in H. destruct (handleMouseMove env t clientX s) as [[k s1]|] eqn:E;
      [|discriminate]. injection H as <-.
    apply handleMouseMove_effect in E as [_ E].
    destruct k; cbn in E.
    + destruct E as [-> _]. congruence.
    + destruct E as (_ & _ & _ & _ & E). congruence.
    + destruct E as [-> _]. congruence.
    + destruct E as (l & r & sx & e & i & seg & _ & _ & _ & _ & _ & E).
      congruence.
    + destruct E as (e & i & dm' & h & _ & _ & Hf & _).
      apply detailFor_Some in Hf as [Hf _]. congruence.
    + destruct E as (e & i & _ & _ & _ & _ & _ & _ & E). congruence.
    + destruct E as (e & i & _ & _ & _ & _ & _ & _ & E). congruence.
    + destruct E as (e & i & _ & _ & _ & _ & _ & _ & E). congruence.
    + destruct E as (e & i & _ & _ & _ & _ & _ & _ & E). congruence.
    + destruct E as (e & i & seg & _ & _ & _ & _ & _ & _ & _ & E).
      congruence.
  - cbn in H. injection H as <-.
    destruct (handleMouseUp_effect s)
      as [[_ E]|(_ & _ & _ & [[E _]|(_ & E & _)])]; congruence.
  - cbn in H. apply prefetchTimeout_effect in H as (_ & _ & _ & E & _).
    congruence.
  - split; [reflexivity|]. cbn in H, Hen.
    apply dwellTimeout_effect in H
      as (_ & _ & _ & [[E _]|(tm & dm' & Htm & _ & Hdm & Hh & _)]);
      [congruence|].
    exists tm. split; [assumption|]. rewrite Htm in Hen. cbn in Hen.
    apply Nat.leb_le in Hen. split; [assumption|]. congruence.
Qed.

Lemma moveEffect_timers (t : nat) (k : MoveKind) (s s' : State) :
  moveEffect t k s s' -> moveTimers t k s s'.
Proof.
  intros [_ E]. destruct k; cbn in E |- *; try exact I.
  - destruct E as (l & r & sx & e & i & seg & _ & Hdr & Hseg & Hdw & Hpf & _).
    by exists e, i, seg.
  - by destruct E as (e & i & _ & _ & _ & _ & Hdw & Hpf & _).
  - by destruct E as (e & i & _ & _ & _ & _ & Hdw & Hpf & _).
  - by destruct E as (e & i & _ & _ & _ & _ & Hdw & Hpf & _).
  - by destruct E as (e & i & _ & _ & _ & _ & Hdw & Hpf & _).
  - destruct E as (e & i & seg & Hs & _ & Hdr & Hseg & _ & Hdw & Hpf & _).
    exists e, i, seg. split; [congruence|]. by repeat split.
Qed.

(** *** The owner of the timers, whatever the presses *)

Lemma ownerInvariant_same (s s' : State) :
  sameDrag s s' -> ownerInvariant s -> ownerInvariant s'.
Proof.
  intros (Hdr & Hdw & Hpf & Hdm & Hp).
  unfold ownerInvariant, ownedBy, idleWithoutHandle.
  by rewrite Hdr, Hdw, Hpf, Hdm, Hp.
Qed.

Lemma ownedBy_idle (h : Edge * nat) (s : State) :
  dwellTimer s = None -> prefetchTimer s = None -> detailMode s = None ->
  pendingDetail s = None ->
  (forall e i, dragging s = Some (DragHandle e i) -> (e, i) = h) ->
  ownedBy h s.
Proof.
  intros Hdw Hpf Hdm Hp Hdr. split; [|split; [|exact Hdr]].
  - intros tm [H|H]; congruence.
  - intros dm [H|H]; congruence.
Qed.

Lemma pressEffect_owner (t : nat) (s s' : State) :
  pressEffect t s s' -> ownerInvariant s -> ownerInvariant s'.
Proof.
  intros Heff [[h Hown] Hidle].
  destruct Heff as [(Hdm & Hp & Hdw & Hpf & l & r & sx & res & Hdr)
                   |[(Hdm & Hp & e & i & seg & Hdr & _ & Hdw & Hpf)
                    |(Hdr & Hdm & Hp & Hdw & Hpf)]].
  - split.
    + exists h. apply ownedBy_idle; try assumption.
      intros e i E. congruence.
    + unfold idleWithoutHandle. rewrite Hdr. by repeat split.
  - split; [|unfold idleWithoutHandle; by rewrite Hdr].
    exists (e, i). split; [|split].
    + intros tm [H|H].
      * by destruct (timerSetAt_fields _ _ _ _ _ _ _ Hdw H)
          as (_ & _ & <- & <-).
      * by destruct (timerSetAt_fields _ _ _ _ _ _ _ Hpf H)
          as (_ & _ & <- & <-).
    + intros dm [H|H]; congruence.
    + intros e' i' E. congruence.
  - split; [|unfold idleWithoutHandle; by rewrite Hdr].
    exists h. destruct Hown as (Ht & Hd & _). split; [|split].
    + intros tm E. apply Ht. by rewrite <- Hdw, <- Hpf.
    + intros dm E. apply Hd. by rewrite <- Hdm, <- Hp.
    + intros e i E. congruence.
Qed.

Lemma detailFor_owner (h : Edge * nat) (s : State) (e : Edge) (i : nat) :
  ownedBy h s -> dragging s = Some (DragHandle e i) ->
  detailFor s e i = None -> detailMode s = None.
Proof.
  intros (_ & Hd & Hdr) Hs Hf.
  destruct (detailMode s) as [dm|] eqn:E; [|reflexivity].
  pose proof (Hd dm (or_introl eq_refl)) as H1.
  pose proof (Hdr e i Hs) as H2. rewrite <- H2 in H1.
  unfold detailHandle in H1. injection H1 as He Hi.
  unfold detailFor in Hf. rewrite E, Hi, Nat.eqb_refl in Hf. cbn in Hf.
  by rewrite bool_decide_eq_true_2 in Hf.
Qed.

Lemma moveEffect_owner (t : nat) (k : MoveKind) (s s' : State) :
  moveEffect t k s s' -> ownerInvariant s -> ownerInvariant s'.
Proof.
  intros [Hp Heff] Hinv. pose proof Hinv as [[h Hown] Hidle].
  pose proof Hown as (Ht & Hd & Hh).
  destruct k; cbn in Heff.
  - by destruct Heff as [-> _].
  - destruct Heff as (_ & Hdr & Hdw & Hpf & Hdm).
    by apply (ownerInvariant_same s).
  - by destruct Heff as [-> _].
  - destruct Heff
      as (l & r & sx & e & i & seg & Hs & Hdr & _ & Hdw & Hpf & Hdm).
    unfold idleWithoutHandle in Hidle. rewrite Hs in Hidle.
    destruct Hidle as (_ & _ & Hdm0 & Hp0).
    split; [|unfold idleWithoutHandle; by rewrite Hdr].
    exists (e, i). split; [|split].
    + intros tm [H|H].
      * by destruct (timerSetAt_fields _ _ _ _ _ _ _ Hdw H)
          as (_ & _ & <- & <-).
      * by destruct (timerSetAt_fields _ _ _ _ _ _ _ Hpf H)
          as (_ & _ & <- & <-).
    + intros dm [H|H]; congruence.
    + intros e' i' E. congruence.
  - destruct Heff as (e & i & dm & hd & Hs & Hdr & Hf & Hdm & Hdw & Hpf).
    apply detailFor_Some in Hf as (Hf & Hi & He).
    split; [|unfold idleWithoutHandle; by rewrite Hdr, Hs].
    exists h. split; [|split].
    + intros tm [H|H]; [congruence|]. apply Ht. right. congruence.
    + intros dm' [H|H].
      * rewrite Hdm in H. injection H as <-.
        apply (Hd dm). by left.
      * apply Hd. right. congruence.
    + intros e' i' E. apply Hh. congruence.
  - destruct Heff as (e & i & Hs & Hf & Hdr & _ & Hdw & Hpf & Hdm).
    split; [|unfold idleWithoutHandle; by rewrite Hdr, Hs].
    exists h. split; [|split].
    + intros tm [H|H]; congruence.
    + intros dm E. apply Hd. by rewrite <- Hdm, <- Hp.
    + intros e' i' E. apply Hh. congruence.
  - destruct Heff as (e & i & Hs & Hf & Hdr & _ & Hdw & Hpf & Hdm).
    pose proof (detailFor_owner h s e i Hown Hs Hf) as Hdm0.
    split.
    + exists h. split; [|split].
      * intros tm [H|H]; congruence.
      * intros dm [H|H]; [congruence|]. apply Hd. right. congruence.
      * intros e' i' E. congruence.
    + unfold idleWithoutHandle. rewrite Hdr.
      repeat split; congruence.
  - destruct Heff as (e & i & Hs & Hf & Hdr & _ & Hdw & Hpf & Hdm).
    split; [|unfold idleWithoutHandle; by rewrite Hdr, Hs].
    exists h. split; [|split].
    + intros tm [H|H]; congruence.
    + intros dm E. apply Hd. by rewrite <- Hdm, <- Hp.
    + intros e' i' E. apply Hh. congruence.
  - destruct Heff as (e & i & Hs & Hf & Hdr & _ & Hdw & Hpf & Hdm).
    pose proof (detailFor_owner h s e i Hown Hs Hf) as Hdm0.
    split.
    + exists h. split; [|split].
      * intros tm [H|H]; congruence.
      * intros dm [H|H]; [congruence|]. apply Hd. right. congruence.
      * intros e' i' E. congruence.
    + unfold idleWithoutHandle. rewrite Hdr.
      repeat split; congruence.
  - destruct Heff
      as (e & i & seg & Hs & Hf & Hdr & _ & _ & Hdw & Hpf & Hdm).
    pose proof (Hh e i Hs) as Hei.
    split; [|unfold idleWithoutHandle; by rewrite Hdr, Hs].
    exists h. split; [|split].
    + intros tm [H|H].
      * by destruct (timerSetAt_fields _ _ _ _ _ _ _ Hdw H)
          as (_ & _ & <- & <-).
      * by destruct (timerSetAt_fields _ _ _ _ _ _ _ Hpf H)
          as (_ & _ & <- & <-).
    + intros dm E. apply Hd. by rewrite <- Hdm, <- Hp.
    + intros e' i' E. apply Hh. congruence.
Qed.

Lemma handleMouseUp_owner (s : State) :
  ownerInvariant s -> ownerInvariant (handleMouseUp s).
Proof.
  intros Hinv. pose proof Hinv as [[h (Ht & Hd & Hh)] Hidle].
  destruct (handleMouseUp_effect s) as [[_ ->]|(Hdr & Hdw & Hpf & Hrest)];
    [assumption|].
  assert (detailMode (handleMouseUp s) = None /\
          pendingDetail (handleMouseUp s) = None) as [Hdm Hp].
  { destruct Hrest as [H|((l & r & sx & res & Hs) & -> & ->)];
      [assumption|].
    unfold idleWithoutHandle in Hidle. rewrite Hs in Hidle. tauto. }
  split.
  - exists h. apply ownedBy_idle; try assumption. intros e i E. congruence.
  - unfold idleWithoutHandle. by rewrite Hdr.
Qed.

Lemma prefetchTimeout_owner (env : Env) (s s' : State) :
  prefetchTimeout env s = Some s' -> ownerInvariant s -> ownerInvariant s'.
Proof.
  intros H [[h (Ht & Hd & Hh)] Hidle].
  apply prefetchTimeout_effect in H as (Hdr & Hdw & Hpf & Hdm & Hp).
  split.
  - exists h. split; [|split].
    + intros tm [E|E]; [|congruence]. apply Ht. left. congruence.
    + intros dm [E|E]; [apply Hd; left; congruence|].
      destruct Hp as [Hp|(tm & p & Htm & Hp & Hi & He)].
      * apply Hd. right. congruence.
      * assert (dm = p) as -> by congruence.
        rewrite <- (Ht tm (or_intror Htm)).
        unfold detailHandle, timerHandle. by rewrite Hi, He.
    + intros e i E. apply Hh. congruence.
  - unfold idleWithoutHandle in *. rewrite Hdr.
    destruct (dragging s) as [[e i|l r sx res|]|]; [exact I| |exact I|].
    + destruct Hidle as (H1 & H2 & H3 & H4).
      destruct Hp as [Hp|(tm & _ & Htm & _)]; [|congruence].
      repeat split; congruence.
    + destruct Hidle as (H1 & H2 & H3). repeat split; congruence.
Qed.

Lemma dwellTimeout_owner (env : Env) (s s' : State) :
  dwellTimeout env s = Some s' -> ownerInvariant s -> ownerInvariant s'.
Proof.
  intros H [[h (Ht & Hd & Hh)] Hidle].
  apply dwellTimeout_effect in H as (Hdr & Hdw & Hpf & Hrest).
  assert (Hsame : detailMode s' = detailMode s /\
                  pendingDetail s' = pendingDetail s ->
                  ownerInvariant s').
  { intros [Hdm Hp]. split.
    - exists h. split; [|split].
      + intros tm [E|E]; [congruence|]. apply Ht. right. congruence.
      + intros dm E. apply Hd. by rewrite <- Hdm, <- Hp.
      + intros e i E. apply Hh. congruence.
    - unfold idleWithoutHandle in *. rewrite Hdr, Hdw, Hpf, Hdm, Hp.
      destruct (dragging s) as [[e i|l r sx res|]|]; tauto. }
  destruct Hrest as [Hrest|(tm & dm & Htm & Hdm0 & Hdm & _ & Hrest)];
    [by apply Hsame|].
  pose proof (Ht tm (or_introl Htm)) as Hown.
  assert (detailHandle dm = h) as Hdmh.
  { destruct Hrest as [(_ & _ & Hi & He)|(p & Hp & _ & ->)].
    - rewrite <- Hown. unfold detailHandle, timerHandle. by rewrite Hi, He.
    - apply (Hd p). by right. }
  split.
  - exists h. split; [|split].
    + intros tm' [E|E]; [congruence|]. apply Ht. right. congruence.
    + intros dm' [E|E].
      * assert (dm' = dm) as -> by congruence. exact Hdmh.
      * destruct Hrest as [(_ & Hp' & _)|(p & _ & Hp' & _)];
          [congruence|].
        assert (dm' = dm) as -> by congruence. exact Hdmh.
    + intros e i E. apply Hh. congruence.
  - unfold idleWithoutHandle in *. rewrite Hdr.
    destruct (dragging s) as [[e i|l r sx res|]|]; [exact I| |exact I|];
      destruct Hidle as (H1 & _); congruence.
Qed.

(** Every event keeps the owner. *)
Lemma step_owner (env : Env) (t : nat) (ev : Event) (s s' : State) :
  ownerInvariant s -> step env t ev s = Some s' -> ownerInvariant s'.
Proof.
  intros Hinv H.
  destruct (isPress ev) eqn:Hpress.
  { eapply pressEffect_owner; [by eapply press_step|assumption]. }
  destruct ev; try discriminate Hpress;
    try (eapply ownerInvariant_same; [|exact Hinv];
         by eapply step_sameDrag).
  - cbn in H. destruct (handleMouseMove env t clientX s) as [[k s1]|] eqn:E;
      [|discriminate]. injection H as <-.
    eapply moveEffect_owner; [|exact Hinv].
    by eapply handleMouseMove_effect.
  - cbn in H. injection H as <-. by apply handleMouseUp_owner.
  - cbn in H. by eapply prefetchTimeout_owner.
  - cbn in H. by eapply dwellTimeout_owner.
Qed.

Lemma run_owner (env : Env) (tr : list (nat * Event)) :
  forall now s t s',
    ownerInvariant s -> run env now s tr = Some (t, s') -> ownerInvariant s'.
Proof.
  induction tr as [|[t1 ev] tr IH]; intros now s t s' Hinv H.
  - cbn in H. by injection H as <- <-.
  - cbn [run] in H.
    destruct ((now <=? t1)%nat && enabled t1 ev s); [|discriminate].
    destruct (step env t1 ev s) as [s1|] eqn:Hs; option_steps H;
      [|discriminate].
    eapply IH; [|exact H]. by eapply step_owner.
Qed.

Lemma initial_owner (env : Env) (newId : string) :
  ownerInvariant (initialState env newId).
Proof.
  split; [|by repeat split].
  exists (EdgeStart, 0%nat). apply ownedBy_idle; try reflexivity.
  intros e i E. discriminate E.
Qed.

(** A pending timer belongs to the handle being dragged, unless the drag is
    that of the playhead. *)
Lemma owner_drag (s : State) (h : Edge * nat) :
  ownerInvariant s ->
  (exists tm, (dwellTimer s = Some tm \/ prefetchTimer s = Some tm) /\
              timerHandle tm = h) \/
  (exists dm, detailMode s = Some dm /\ detailHandle dm = h) ->
  dragging s = Some (DragHandle (fst h) (snd h)) \/
  dragging s = Some DragPlayhead.
Proof.
  intros [[h' (Ht & Hd & Hh)] Hidle] Hsome.
  assert (h' = h) as ->.
  { destruct Hsome as [(tm & Htm & <-)|(dm & Hdm & <-)].
    - symmetry. by apply Ht.
    - symmetry. apply Hd. by left. }
  unfold idleWithoutHandle in Hidle.
  destruct (dragging s) as [[e i|l r sx res|]|] eqn:Hdr.
  - left. by rewrite <- (Hh e i eq_refl).
  - destruct Hidle as (H1 & H2 & H3 & _).
    destruct Hsome as [(tm & [E|E] & _)|(dm & E & _)]; congruence.
  - by right.
  - destruct Hidle as (H1 & H2 & H3).
    destruct Hsome as [(tm & [E|E] & _)|(dm & E & _)]; congruence.
Qed.

(** *** When the dwell timer is due *)

(** The dwell timer after an event at [t]: gone, the one before, or set at
    [t] by a pointer event. *)
Lemma step_dwell_cases (env : Env) (t : nat) (ev : Event) (s s' : State) :
  step env t ev s = Some s' ->
  dwellTimer s' = None \/ dwellTimer s' = dwellTimer s \/
  exists tm, dwellTimer s' = Some tm /\ due tm = (t + DWELL_MS)%nat.
Proof.
  intros H.
  destruct (isPress ev) eqn:Hpress.
  { destruct (press_step env t ev s s' Hpress H)
      as [(_ & _ & -> & _)|[(_ & _ & e & i & seg & _ & _ & Hdw & _)
                           |(_ & _ & _ & -> & _)]];
      [by left| |by right; left].
    right. right. eexists. split; [exact Hdw|reflexivity]. }
  destruct ev; try discriminate Hpress;
    try (right; left; by eapply step_sameDrag).
  - cbn in H. destruct (handleMouseMove env t clientX s) as [[k s1]|] eqn:E;
      [|discriminate]. injection H as <-.
    apply handleMouseMove_effect in E as [_ E]. destruct k; cbn in E.
    + destruct E as [-> _]. by right; left.
    + destruct E as (_ & _ & -> & _). by right; left.
    + destruct E as [-> _]. by right; left.
    + destruct E as (l & r & sx & e & i & seg & _ & _ & _ & Hdw & _).
      right. right. eexists. split; [exact Hdw|reflexivity].
    + destruct E as (e & i & dm & h & _ & _ & _ & _ & -> & _). by left.
    + destruct E as (e & i & _ & _ & _ & _ & -> & _). by left.
    + destruct E as (e & i & _ & _ & _ & _ & -> & _). by left.
    + destruct E as (e & i & _ & _ & _ & _ & -> & _). by left.
    + destruct E as (e & i & _ & _ & _ & _ & -> & _). by left.
    + destruct E as (e & i & seg & _ & _ & _ & _ & _ & Hdw & _).
      right. right. eexists. split; [exact Hdw|reflexivity].
  - cbn in H. injection H as <-.
    destruct (handleMouseUp_effect s) as [[_ ->]|(_ & -> & _)];
      [by right; left|by left].
  - cbn in H. apply prefetchTimeout_effect in H as (_ & -> & _).
    by right; left.
  - cbn in H. apply dwellTimeout_effect in H as (_ & -> & _). by left.
Qed.

Lemma run_dueAfter (env : Env) (tr : list (nat * Event)) :
  forall marks now s t s',
    (forall t0, In t0 marks -> (t0 <= now)%nat) -> dueAfter marks s ->
    run env now s tr = Some (t, s') ->
    dueAfter (marks ++ dwellStarts env s tr) s'.
Proof.
  induction tr as [|[t1 ev] tr IH]; intros marks now s t s' Hle Hinv H.
  - cbn in H. injection H as <- <-. cbn. by rewrite app_nil_r.
  - cbn [run] in H.
    destruct (now <=? t1)%nat eqn:Hnow; [|discriminate].
    destruct (enabled t1 ev s); [|discriminate]. cbn [andb] in H.
    apply Nat.leb_le in Hnow. cbn [dwellStarts].
    destruct (step env t1 ev s) as [s1|] eqn:Hs; option_steps H;
      [|discriminate].
    rewrite app_assoc. eapply IH; [| |exact H].
    + intros t0 Hin. apply in_app_or in Hin as [Hin|Hin].
      * specialize (Hle t0 Hin). lia.
      * destruct (isPointerEvent ev && setsDwell t1 s1); [|destruct Hin].
        destruct Hin as [<-|[]]. lia.
    + intros t0 tm Hin Htm. apply in_app_or in Hin as [Hin|Hin].
      * destruct (step_dwell_cases env t1 ev s s1 Hs)
          as [E|[E|(tm' & E & Hdue)]].
        -- congruence.
        -- apply (Hinv t0 tm Hin). congruence.
        -- assert (tm = tm') as -> by congruence.
           specialize (Hle t0 Hin). lia.
      * destruct (isPointerEvent ev && setsDwell t1 s1) eqn:Eset;
          [|destruct Hin].
        destruct Hin as [<-|[]].
        apply andb_prop in Eset as [_ Eset]. unfold setsDwell in Eset.
        rewrite Htm in Eset. apply Nat.eqb_eq in Eset. lia.
Qed.

(** *** What a press leaves of the timers *)

Lemma handle_onMouseDown_target (env : Env) (t : nat) (x : Q) (i : nat)
    (e : Edge) (s s' : State) :
  handle_onMouseDown env t x i e s = Some s' ->
  dragging s' <> Some DragPlayhead.
Proof.
  unfold handle_onMouseDown, handleHandleMouseDown. intros H.
  branches H; try destruct e; injection H as <-; discriminate.
Qed.

Lemma press_timers (env : Env) (t : nat) (ev : Event) (s s' : State) :
  isPress ev = true -> step env t ev s = Some s' -> pressTimers t ev s s'.
Proof.
  intros Hpress H.
  destruct (press_step env t ev s s' Hpress H)
    as [(_ & _ & Hdw & Hpf & _)|[(_ & _ & e & i & seg & _ & _ & Hdw & Hpf)
                                |(Hdr & _ & _ & Hdw & Hpf)]].
  - left. unfold timersCancelled. rewrite Hdw, Hpf.
    split; apply timerFresh_None.
  - left. split; by eapply timerSetAt_fresh.
  - destruct ev; try discriminate Hpress.
    + cbn in H. by destruct (handle_onMouseDown_target _ _ _ _ _ _ _ H).
    + right. split; [by eexists|]. by split.
Qed.

(** C8 fails as stated: the end handle of the seed is pressed at 0 ms, its
    prefetch fires at 200 ms, and at 500 ms the track is pressed away from
    every handle (with a second button).  That press starts a playhead drag
    and cancels neither timer, so at 600 ms, 100 ms after the last
    pointer-down, the dwell timer turns the detail view on, for a handle
    that is not being dragged. *)
Lemma detail_view_after_second_press :
  let env := trackEnv 10 1000 in
  let tr := [(0%nat, EvHandleMouseDown 1000 0 EdgeEnd);
             (200%nat, EvPrefetchTimeout);
             (500%nat, EvTrackMouseDown 500)] in
  exists (s s' : State) (dm : DetailMode),
    run env 0 (initialState env "a") tr = Some (500%nat, s) /\
    dragging s = Some DragPlayhead /\ isSome (dwellTimer s) = true /\
    enabled 600 EvDwellTimeout s = true /\
    step env 600 EvDwellTimeout s = Some s' /\
    detailMode s = None /\ detailMode s' = Some dm /\
    detailHandle dm = (EdgeEnd, 0%nat) /\
    dragging s' = Some DragPlayhead /\
    In (500%nat, EvTrackMouseDown 500) tr /\
    ~ (500 + DWELL_MS <= 600)%nat.
Proof.
  cbv zeta. eexists _, _, _.
  split; [vm_compute; reflexivity|].
  split; [vm_compute; reflexivity|].
  split; [vm_compute; reflexivity|].
  split; [vm_compute; reflexivity|].
  split; [vm_compute; reflexivity|].
  split; [vm_compute; reflexivity|].
  split; [vm_compute; reflexivity|].
  split; [vm_compute; reflexivity|].
  split; [vm_compute; reflexivity|].
  split; [right; right; by left|].
  unfold DWELL_MS. lia.
Qed.

(** C8, as amended: in every run from the seed, an event turns the detail
    view on only if it is the dwell timer firing when due, for the handle
    the timer was set for, at least [DWELL_MS] after every event that set
    the timer (the press of a handle, a normal move, the resolution of a
    shared handle); the drag is then the drag of that handle, or a playhead
    drag started meanwhile by a press on the track.  In a run whose presses
    all come with the pointer up, the view opens on the handle being
    dragged and at least [DWELL_MS] after every press, move and release.  A
    normal move and the resolution of a shared handle set the dwell and the
    prefetch timer anew at the time of the move, anchored at the new
    boundary time; an overshooting move and a release clear both; after a
    press no timer set before it is pending, unless it is a press on the
    track that starts a playhead drag, which leaves both timers as they
    were. *)
Theorem detail_view_needs_dwell (env : Env) (newId : string)
    (tr : list (nat * Event)) (now t : nat) (ev : Event) (s s' : State) :
  run env 0 (initialState env newId) tr = Some (now, s) ->
  (now <= t)%nat -> enabled t ev s = true -> step env t ev s = Some s' ->
  (forall dm, detailMode s = None -> detailMode s' = Some dm ->
     ev = EvDwellTimeout /\
     (exists tm, dwellTimer s = Some tm /\ (due tm <= t)%nat /\
                 detailHandle dm = timerHandle tm) /\
     (dragging s' = Some (DragHandle (dm_edge dm) (dm_segmentIndex dm)) \/
      dragging s' = Some DragPlayhead) /\
     (forall t0, In t0 (dwellStarts env (initialState env newId) tr) ->
        (t0 + DWELL_MS <= t)%nat) /\
     (pressesWhenUp env (initialState env newId) tr = true ->
      dragging s' = Some (DragHandle (dm_edge dm) (dm_segmentIndex dm)) /\
      forall t0 e0, In (t0, e0) tr -> isPointerEvent e0 = true ->
        (t0 + DWELL_MS <= t)%nat)) /\
  (forall x, ev = EvMouseMove x ->
     exists k, handleMouseMove env t x s = Some (k, s') /\
               moveTimers t k s s') /\
  (ev = EvMouseUp -> dwellTimer s' = None /\ prefetchTimer s' = None) /\
  (isPress ev = true ->
   pressTimers t ev s s' /\ (dragging s = None -> timersCancelled t s')).
Proof.
  intros Hrun Hle Hen H.
  pose proof (run_owner env tr 0 _ now s (initial_owner env newId) Hrun)
    as Hown.
  pose proof (run_dueAfter env tr [] 0 _ now s ltac:(by intros t0 [])
                ltac:(by intros t0 tm []) Hrun) as Hdue.
  rewrite app_nil_l in Hdue.
  assert (Hidle : dragging s = None ->
                  dwellTimer s = None /\ prefetchTimer s = None).
  { intros Hup. destruct Hown as [_ Hi]. unfold idleWithoutHandle in Hi.
    rewrite Hup in Hi. tauto. }
  split; [|split; [|split]].
  - intros dm Hoff Hon.
    destruct (activation_by_dwell env t ev s s' dm Hen H Hoff Hon)
      as (-> & tm & Htm & Hdue_t & _).
    split; [reflexivity|]. cbn in H.
    pose proof (dwellTimeout_effect env s s' H) as (Hdr & _ & _ & Hrest).
    assert (detailHandle dm = timerHandle tm) as Hh.
    { destruct Hrest as [[E _]|(tm' & dm' & Htm' & _ & Hdm & _ & Hrest)];
        [congruence|].
      assert (tm' = tm) as -> by congruence.
      assert (dm' = dm) as -> by congruence.
      destruct Hrest as [(_ & _ & Hi & He)|(p & Hp & _ & Heq)].
      - unfold detailHandle, timerHandle. by rewrite Hi, He.
      - destruct Hown as [[h (Ht & Hd & _)] _].
        rewrite (Ht tm (or_introl Htm)), <- (Hd p (or_intror Hp)).
        by rewrite Heq. }
    split; [by exists tm|]. split; [|split].
    + rewrite Hdr.
      apply (owner_drag s (detailHandle dm) Hown). left. exists tm.
      split; [by left|by symmetry].
    + intros t0 Hin. specialize (Hdue t0 tm Hin Htm). lia.
    + intros Hup.
      pose proof (run_dwellInvariant env tr [] 0 now _ s
                    (initial_dwellInvariant env newId) Hup Hrun)
        as (Hhist & Ht & Hd & Hp & Hq).
      rewrite app_nil_l in Hhist, Hq.
      assert (dragInvariant s) as Hinv by (split; [exact Ht|by split]).
      pose proof (step_dragInvariant env t EvDwellTimeout s s' Hinv
                    ltac:(discriminate) H) as (_ & Hd' & _).
      split; [by apply Hd'|].
      intros t0 e0 Hin Hptr. specialize (Hq t0 e0 tm Hin Hptr Htm). lia.
  - intros x ->. cbn in H.
    destruct (handleMouseMove env t x s) as [[k s1]|] eqn:E; [|discriminate].
    injection H as <-. exists k. split; [reflexivity|].
    apply moveEffect_timers. by apply (handleMouseMove_effect env t x).
  - intros ->. cbn in H. injection H as <-.
    destruct (handleMouseUp_effect s) as [[Hup ->]|(_ & -> & -> & _)];
      [by apply Hidle|by split].
  - intros Hpress.
    pose proof (press_timers env t ev s s' Hpress H) as Hpt.
    split; [exact Hpt|]. intros Hup.
    destruct Hpt as [Hc|(_ & _ & Hdw & Hpf)]; [exact Hc|].
    destruct (Hidle Hup) as [Hdw0 Hpf0]. unfold timersCancelled.
    rewrite Hdw, Hpf, Hdw0, Hpf0. split; apply timerFresh_None.
Qed.

Lemma detail_view_needs_dwell_witness :
  let env := trackEnv 10 1000 in
  let tr := [(0%nat, EvHandleMouseDown 1000 0 EdgeEnd);
             (200%nat, EvPrefetchTimeout)] in
  exists (s s' : State) (dm : DetailMode),
    run env 0 (initialState env "a") tr = Some (200%nat, s) /\
    step env 600 EvDwellTimeout s = Some s' /\
    detailMode s' = Some dm /\
    dragging s' = Some (DragHandle (dm_edge dm) (dm_segmentIndex dm)) /\
    forall t0 e0, In (t0, e0) tr -> isPointerEvent e0 = true ->
      (t0 + DWELL_MS <= 600)%nat.
Proof.
  cbv zeta.
  assert (exists s s' dm,
            run (trackEnv 10 1000) 0 (initialState (trackEnv 10 1000) "a")
              [(0%nat, EvHandleMouseDown 1000 0 EdgeEnd);
               (200%nat, EvPrefetchTimeout)] = Some (200%nat, s) /\
            enabled 600 EvDwellTimeout s = true /\
            step (trackEnv 10 1000) 600 EvDwellTimeout s = Some s' /\
            detailMode s = None /\ detailMode s' = Some dm)
    as (s & s' & dm & Hrun & Hen & Hstep & Hoff & Hon).
  { eexists _, _, _.
    split; [vm_compute; reflexivity|].
    split; [vm_compute; reflexivity|].
    split; [vm_compute; reflexivity|].
    split; vm_compute; reflexivity. }
  exists s, s', dm. split; [exact Hrun|]. split; [exact Hstep|].
  split; [exact Hon|].
  destruct (proj1 (detail_view_needs_dwell _ _ _ _ 600%nat _ _ _
                     Hrun (proj1 (Nat.leb_le 200 600) eq_refl) Hen Hstep)
           dm Hoff Hon)
    as (_ & _ & _ & _ & Hup).
  apply Hup. vm_compute. reflexivity.
Defined.

(** * Further properties of the engine and of its host *)

(** ** Coordinate mapper *)

(** X2: With a track of positive width the pixel-to-percent mapping is total,
    increasing in the pointer position, 0 at and left of the left edge of the
    track and 100 at and right of its right edge; the time it stands for lies
    on the timeline. *)
Theorem getPercentFromEvent_clamps (env : Env) (rect : DOMRect) (x y : Q) :
  container env = Some rect -> 0 < rect_width rect ->
  exists p q,
    getPercentFromEvent env x = Some p /\
    getPercentFromEvent env y = Some q /\
    (x <= y -> p <= q) /\
    (x <= rect_left rect -> p == 0) /\
    (rect_left rect + rect_width rect <= x -> p == 100) /\
    (0 <= duration env ->
     0 <= percentToTime env p /\ percentToTime env p <= duration env).
Proof.
  intros Hc Hw. unfold getPercentFromEvent. rewrite Hc.
  rewrite !js_div_Some by lra. cbn [mbind option_bind].
  eexists _, _. split; [reflexivity|]. split; [reflexivity|].
  assert (Hinv : 0 < / rect_width rect) by (by apply Qinv_lt_0_compat).
  assert (Hmono : forall a b, a <= b ->
            a / rect_width rect * 100 <= b / rect_width rect * 100).
  { intros a b Hab. unfold Qdiv. apply Qmult_le_compat_r; [|lra].
    apply Qmult_le_compat_r; lra. }
  assert (Hone : rect_width rect / rect_width rect * 100 == 100)
    by (field; lra).
  assert (Hzero : 0 / rect_width rect * 100 == 0) by (field; lra).
  split; [|split; [|split]].
  - intros Hxy.
    pose proof (Hmono (x - rect_left rect) (y - rect_left rect)
                  ltac:(lra)).
    minmax_all; lra.
  - intros Hx. pose proof (Hmono (x - rect_left rect) 0 ltac:(lra)).
    minmax_all; lra.
  - intros Hx.
    pose proof (Hmono (rect_width rect) (x - rect_left rect) ltac:(lra)).
    minmax_all; lra.
  - intros Hd. unfold percentToTime.
    set (p := Math_max 0 (Math_min 100 ((x - rect_left rect)
                                           / rect_width rect * 100))).
    assert (0 <= p /\ p <= 100) as [Hp0 Hp1].
    { unfold p. minmax_all; lra. }
    assert (0 <= p / 100 /\ p / 100 <= 1) as [Hq0 Hq1] by qlra.
    split.
    + apply Qmult_le_0_compat; assumption.
    + rewrite <- (Qmult_1_l (duration env)) at 2.
      apply Qmult_le_compat_r; assumption.
Qed.

Lemma getPercentFromEvent_clamps_witness :
  exists p q,
    getPercentFromEvent (trackEnv 10 1000) 250 = Some p /\
    getPercentFromEvent (trackEnv 10 1000) 1200 = Some q /\
    p <= q /\ q == 100.
Proof.
  destruct (getPercentFromEvent_clamps (trackEnv 10 1000)
              {| rect_left := 0; rect_width := 1000 |} 250 1200
              eq_refl eq_refl) as (p & q & Hp & Hq & Hle & _).
  destruct (getPercentFromEvent_clamps (trackEnv 10 1000)
              {| rect_left := 0; rect_width := 1000 |} 1200 1200
              eq_refl eq_refl) as (q' & _ & Hq' & _ & _ & _ & Hfull & _).
  exists p, q. split; [exact Hp|]. split; [exact Hq|].
  split; [apply Hle; discriminate|].
  assert (q = q') as -> by congruence. apply Hfull. discriminate.
Defined.

(** ** Carpets of the overshoot *)

Lemma damped_fraction (env : Env) (px d : Q) :
  0 < getContainerWidth env ->
  (forall raw, 0 <= raw -> 0 <= rubberBand env raw) ->
  js_div (rubberBand env (Math_max 0 px)) (getContainerWidth env) = Some d ->
  0 <= d.
Proof.
  intros Hcw Hrb H. rewrite js_div_Some in H by lra. injection H as <-.
  assert (0 <= rubberBand env (Math_max 0 px)).
  { apply Hrb. minmax_all; lra. }
  assert (0 < / getContainerWidth env) by (by apply Qinv_lt_0_compat).
  unfold Qdiv. by apply Qmult_le_0_compat; [|lra].
Qed.

Lemma progress_range (px : Q) :
  Qle_bool 1 (Math_min 1 (Math_max 0 px / 100)) = false ->
  0 <= Math_min 1 (Math_max 0 px / 100) /\
  Math_min 1 (Math_max 0 px / 100) < 1.
Proof.
  intros H. apply Qle_bool_false in H. split; [|exact H].
  clear H. minmax_all; qlra.
Qed.

Lemma timeToPercent_mono (env : Env) (t u : Q) :
  t <= u -> timeToPercent env t <= timeToPercent env u.
Proof.
  intros Htu. unfold timeToPercent.
  destruct (Qltb 0 (duration env)) eqn:E; [|lra].
  apply Qltb_lt in E.
  assert (0 < / duration env) by (by apply Qinv_lt_0_compat).
  unfold Qdiv. apply Qmult_le_compat_r; [|lra].
  apply Qmult_le_compat_r; lra.
Qed.

(** X7: The carpets of the overshoot.  With a track of positive width and a
    rubber band that is non-negative on non-negative overshoots: a move that
    enters or continues a delete intent shows the red carpet and no green
    one, with a progress in [[0, 1)] and a width that is not negative, and
    the red carpet starts no later than the segment does; a move that enters
    or continues a merge intent shows the green carpet and no red one, and
    the green carpet starts at the in-point of the neighbour the end handle
    was pushed into, or no later than the out-point of the neighbour the
    start handle was pushed into. *)
Theorem intent_carpet (env : Env) (now : nat) (x : Q) (s s' : State)
    (e : Edge) (idx : nat) (seg : TrimSegment) (k : MoveKind) :
  dragging s = Some (DragHandle e idx) -> segments s !! idx = Some seg ->
  0 < getContainerWidth env ->
  (forall raw, 0 <= raw -> 0 <= rubberBand env raw) ->
  seg_start seg <= seg_end seg ->
  handleMouseMove env now x s = Some (k, s') ->
  match k with
  | MoveDeleteIntent =>
      exists tab,
        deleteTab s' = Some tab /\ mergeTab s' = None /\
        0 <= tab_progress tab /\ tab_progress tab < 1 /\
        0 <= tab_width tab /\
        tab_left tab <= timeToPercent env (seg_start seg) /\
        tab_left tab <= timeToPercent env (seg_end seg)
  | MoveMergeIntent =>
      exists tab nb,
        mergeTab s' = Some tab /\ deleteTab s' = None /\
        0 <= tab_progress tab /\ tab_progress tab < 1 /\
        0 <= tab_width tab /\
        match e with
        | EdgeStart =>
            segments s !! (idx - 1)%nat = Some nb /\
            tab_left tab <= timeToPercent env (seg_end nb)
        | EdgeEnd =>
            segments s !! (idx + 1)%nat = Some nb /\
            tab_left tab == timeToPercent env (seg_start nb)
        end
  | _ => True
  end.
Proof.
  intros Hdrag Hseg Hcw Hrb Hse H.
  apply (timeToPercent_mono env) in Hse. unfold handleMouseMove in H.
  rewrite Hdrag in H.
  destruct (getPercentFromEvent env x) as [p|]; option_steps H;
    [|discriminate].
  rewrite Hseg in H. option_steps H.
  destruct (detailFor s e idx).
  { branches H. injection H as <- <-. exact I. }
  destruct e; unfold startHandleMove, endHandleMove in H; branches H;
    injection H as <- <-; try exact I.
  all: repeat match goal with
       | E : js_div (rubberBand _ (Math_max 0 _)) _ = Some _ |- _ =>
           apply (damped_fraction _ _ _ Hcw Hrb) in E
       | E : Qle_bool 1 (Math_min 1 (Math_max 0 _ / _)) = false |- _ =>
           apply progress_range in E; destruct E
       | E : _ && _ = true |- _ => apply andb_prop in E; destruct E
       end.
  all: lazymatch goal with
       | |- exists tab : Tab, deleteTab _ = Some tab /\ _ =>
           eexists; split; [reflexivity|]; split; [reflexivity|];
           cbn [tab_progress tab_width tab_left di_segExtentPct di_cursorPct
                di_progress];
           repeat split; try assumption;
           repeat match goal with
                  | Hx : context [Math_min 1 _] |- _ => clear Hx
                  end;
           minmax_all; lra
       | _ => idtac
       end.
  all: lazymatch goal with
       | E : minStartOf _ _ = Some _, Hp : (0 <? _)%nat = true |- _ =>
           unfold minStartOf in E; rewrite Hp in E;
           destruct (segments s !! (idx - 1)%nat) as [nb|];
           [|discriminate E]; injection E as <-
       | E : maxEndOf _ _ _ = Some _, Hp : (_ <? _ - 1)%nat = true |- _ =>
           unfold maxEndOf in E; rewrite Hp in E;
           destruct (segments s !! (idx + 1)%nat) as [nb|];
           [|discriminate E]; injection E as <-
       end.
  all: eexists _, nb; split; [reflexivity|]; split; [reflexivity|];
       cbn [tab_progress tab_width tab_left mi_anchorPct mi_cursorPct
            mi_progress];
       repeat split; try assumption;
       repeat match goal with
              | Hx : context [Math_min 1 _] |- _ => clear Hx
              end;
       minmax_all; lra.
Qed.

Lemma intent_carpet_witness :
  let env := trackEnv 10 1000 in
  let s := setDragging (Some (DragHandle EdgeEnd 0))
             (storeState env [segment "a" 0 5; segment "b" 5 10]) in
  exists s' tab,
    handleMouseMove env 0 560 s = Some (MoveMergeIntent, s') /\
    mergeTab s' = Some tab /\ deleteTab s' = None /\
    tab_left tab == 50.
Proof.
  cbv zeta.
  assert (exists s',
            handleMouseMove (trackEnv 10 1000) 0 560
              (setDragging (Some (DragHandle EdgeEnd 0))
                 (storeState (trackEnv 10 1000)
                    [segment "a" 0 5; segment "b" 5 10]))
            = Some (MoveMergeIntent, s')) as [s' H]
    by (eexists; vm_compute; reflexivity).
  destruct (intent_carpet (trackEnv 10 1000) 0 560
              (setDragging (Some (DragHandle EdgeEnd 0))
                 (storeState (trackEnv 10 1000)
                    [segment "a" 0 5; segment "b" 5 10]))
              s' EdgeEnd 0
              (segment "a" 0 5) MoveMergeIntent eq_refl eq_refl eq_refl
              (fun raw Hraw => Hraw) ltac:(discriminate) H)
    as (tab & nb & Htab & Hno & _ & _ & _ & Hnb & Hleft).
  exists s', tab. split; [exact H|]. split; [exact Htab|].
  split; [exact Hno|]. rewrite Hleft.
  injection Hnb as <-. reflexivity.
Defined.

(** ** Drag state machine: what a move and a release leave alone *)

Lemma handleMouseMove_segments (env : Env) (now : nat) (x : Q)
    (s s' : State) (k : MoveKind) :
  handleMouseMove env now x s = Some (k, s') ->
  segments s' = segments s \/
  exists e idx seg t,
    dragging s = Some (DragHandle e idx) /\ segments s !! idx = Some seg /\
    segments s'
    = <[idx := match e with
               | EdgeStart => with_start seg t
               | EdgeEnd => with_end seg t
               end]> (segments s).
Proof.
  intros H. unfold handleMouseMove in H.
  destruct (dragging s) as [target|] eqn:Ed; [|by injection H as <- <-; left].
  destruct (getPercentFromEvent env x) as [p|] eqn:Ep; option_steps H;
    [|discriminate].
  destruct target as [e idx|l r sx res|].
  2:{ destruct res; branches H; injection H as <- <-; by left. }
  2:{ injection H as <- <-. by left. }
  destruct (segments s !! idx) as [seg|] eqn:Eseg; option_steps H;
    [|discriminate].
  destruct (detailFor s e idx) as [dm|].
  { unfold detailScrub in H. rewrite Ep in H. option_steps H.
    destruct e; branches H; injection H as <- <-; right;
      eexists _, idx, seg, _; (split; [reflexivity|]);
      (split; [exact Eseg|]); reflexivity. }
  destruct e; unfold startHandleMove, endHandleMove in H; branches H;
    injection H as <- <-; try (by left); right;
    eexists _, idx, seg, _; (split; [reflexivity|]);
    (split; [exact Eseg|]); reflexivity.
Qed.

(** X8: A pointer move changes at most the dragged boundary: the number of
    segments stays, every other segment stays as it is, and the dragged
    segment keeps its identifier, its activity flag and its other boundary;
    a move that drags no handle leaves the whole store alone. *)
Theorem pointer_move_frame (env : Env) (now : nat) (x : Q) (s s' : State)
    (k : MoveKind) :
  handleMouseMove env now x s = Some (k, s') ->
  length (segments s') = length (segments s) /\
  match dragging s with
  | Some (DragHandle e idx) =>
      (forall j, j <> idx -> segments s' !! j = segments s !! j) /\
      (forall seg, segments s !! idx = Some seg ->
         exists seg', segments s' !! idx = Some seg' /\
           seg_id seg' = seg_id seg /\ seg_active seg' = seg_active seg /\
           match e with
           | EdgeStart => seg_end seg' = seg_end seg
           | EdgeEnd => seg_start seg' = seg_start seg
           end)
  | _ => segments s' = segments s
  end.
Proof.
  intros H.
  destruct (handleMouseMove_segments _ _ _ _ _ _ H)
    as [Hsame|(e & idx & seg & t & Hd & Hseg & Hupd)].
  - rewrite Hsame. split; [reflexivity|].
    destruct (dragging s) as [[e idx| |]|]; try reflexivity.
    split; [reflexivity|]. intros seg Hseg. exists seg.
    split; [exact Hseg|]. by destruct e.
  - rewrite Hd, Hupd. split; [by rewrite length_insert|]. split.
    + intros j Hj. by rewrite list_lookup_insert_ne.
    + intros seg0 Hseg0. assert (seg0 = seg) as -> by congruence.
      eexists. split.
      * apply list_lookup_insert_eq. by eapply lookup_lt_Some.
      * by destruct e.
Qed.

Lemma pointer_move_frame_witness :
  let env := trackEnv 10 1000 in
  let s := setDragging (Some (DragHandle EdgeEnd 0))
             (storeState env [segment "a" 0 5; segment "b" 6 10]) in
  exists s', handleMouseMove env 0 300 s = Some (MoveNormal, s') /\
             segments s' !! 1%nat = Some (segment "b" 6 10).
Proof.
  cbv zeta.
  assert (exists s',
            handleMouseMove (trackEnv 10 1000) 0 300
              (setDragging (Some (DragHandle EdgeEnd 0))
                 (storeState (trackEnv 10 1000)
                    [segment "a" 0 5; segment "b" 6 10]))
            = Some (MoveNormal, s')) as [s' H]
    by (eexists; vm_compute; reflexivity).
  exists s'. split; [exact H|].
  exact (proj1 (proj2 (pointer_move_frame _ _ _ _ _ _ H)) 1%nat
           ltac:(discriminate)).
Defined.

(** X9: A release never changes the store or the playhead; it ends the drag
    and clears both timers, and a second release changes nothing; the
    release of a handle also leaves no intent, no detail view and no detail
    thumbnails. *)
Theorem release_ends_drag (s : State) :
  segments (handleMouseUp s) = segments s /\
  currentTime (handleMouseUp s) = currentTime s /\
  dragging (handleMouseUp s) = None /\
  handleMouseUp (handleMouseUp s) = handleMouseUp s /\
  (forall target, dragging s = Some target ->
     dwellTimer (handleMouseUp s) = None /\
     prefetchTimer (handleMouseUp s) = None) /\
  (forall e idx, dragging s = Some (DragHandle e idx) ->
     deleteIntent (handleMouseUp s) = None /\
     mergeIntent (handleMouseUp s) = None /\
     detailMode (handleMouseUp s) = None /\
     pendingDetail (handleMouseUp s) = None /\
     detailThumbnails (handleMouseUp s) = None).
Proof.
  assert (Hup : dragging (handleMouseUp s) = None).
  { unfold handleMouseUp.
    destruct (dragging s) as [[e i|l r sx res|]|] eqn:Ed; try reflexivity.
    exact Ed. }
  split; [|split; [|split; [exact Hup|split; [|split]]]].
  - unfold handleMouseUp.
    destruct (dragging s) as [[e i|l r sx res|]|]; try reflexivity.
    repeat case_match; reflexivity.
  - unfold handleMouseUp.
    destruct (dragging s) as [[e i|l r sx res|]|]; try reflexivity.
    repeat case_match; reflexivity.
  - unfold handleMouseUp at 1. by rewrite Hup.
  - intros target Hd. unfold handleMouseUp. rewrite Hd.
    destruct target; [repeat case_match| |]; by split.
  - intros e idx Hd. unfold handleMouseUp. rewrite Hd.
    repeat case_match; by repeat split.
Qed.

Lemma release_ends_drag_witness :
  let s := setDragging (Some (DragHandle EdgeEnd 0))
             (storeState (trackEnv 10 1000) [segment "a" 0 5]) in
  deleteIntent (handleMouseUp s) = None.
Proof.
  cbv zeta.
  exact (proj1 (proj2 (proj2 (proj2 (proj2 (proj2
           (release_ends_drag
              (setDragging (Some (DragHandle EdgeEnd 0))
                 (storeState (trackEnv 10 1000) [segment "a" 0 5])))))))
           EdgeEnd 0%nat eq_refl)).
Defined.

(** X10: A transition end of another property than the width (the left edge and
    the opacity of a carpet transition too) changes nothing; the end of the
    width transition clears the snap-back, so that a delete is committed at
    most once: whatever transition ends next removes nothing more. *)
Theorem transition_end_once (now : nat) (p q : string) (s : State) :
  (p <> "width"%string ->
   handleSnapTransitionEnd p s = s /\
   handleMergeSnapTransitionEnd now p s = Some s) /\
  snapBack (handleSnapTransitionEnd "width" s) = None /\
  segments (handleSnapTransitionEnd q (handleSnapTransitionEnd "width" s))
  = segments (handleSnapTransitionEnd "width" s) /\
  (forall s1, handleMergeSnapTransitionEnd now "width" s = Some s1 ->
     mergeSnapBack s1 = None /\
     forall s2, handleMergeSnapTransitionEnd now q s1 = Some s2 ->
       segments s2 = segments s1 /\ fadeTimers s2 = fadeTimers s1).
Proof.
  split; [|split; [|split]].
  - intros Hp. unfold handleSnapTransitionEnd, handleMergeSnapTransitionEnd.
    by rewrite !bool_decide_eq_false_2.
  - unfold handleSnapTransitionEnd.
    rewrite bool_decide_eq_true_2 by reflexivity. reflexivity.
  - assert (Hnone : snapBack (handleSnapTransitionEnd "width" s) = None).
    { unfold handleSnapTransitionEnd.
      rewrite bool_decide_eq_true_2 by reflexivity. reflexivity. }
    unfold handleSnapTransitionEnd at 1. rewrite Hnone.
    by destruct (bool_decide _).
  - intros s1 H1.
    assert (Hnone : mergeSnapBack s1 = None).
    { unfold handleMergeSnapTransitionEnd in H1.
      rewrite bool_decide_eq_true_2 in H1 by reflexivity.
      branches H1; by injection H1 as <-. }
    split; [exact Hnone|]. intros s2 H2.
    unfold handleMergeSnapTransitionEnd in H2. rewrite Hnone in H2.
    destruct (bool_decide _); option_steps H2; by injection H2 as <-.
Qed.

Lemma transition_end_once_witness :
  handleSnapTransitionEnd "opacity" (storeState (trackEnv 10 1000) [])
  = storeState (trackEnv 10 1000) [].
Proof.
  apply (proj1 (transition_end_once 0 "opacity" "left"
                  (storeState (trackEnv 10 1000) []))).
  discriminate.
Defined.

(** ** Merge commit on single-digit indices *)

Lemma js_default_sort2_small (a : nat) :
  (S a < 10)%nat ->
  js_default_sort2 a (S a) = (a, S a) /\ js_default_sort2 (S a) a = (a, S a).
Proof.
  intros Ha.
  do 9 (destruct a as [|a]; [by vm_compute|]). lia.
Qed.

Lemma filter_idIsNot_delete (segs : list TrimSegment) :
  forall i r, NoDup (seg_id <$> segs) -> segs !! i = Some r ->
    List.filter (idIsNot (seg_id r)) segs = delete i segs.
Proof.
  induction segs as [|seg rest IH]; intros i r Hnd Hr; [discriminate|].
  cbn [fmap list_fmap] in Hnd. apply NoDup_cons in Hnd as [Hnotin Hnd].
  destruct i as [|i]; cbn in Hr.
  - injection Hr as ->. cbn.
    rewrite idIsNot_self. cbn.
    clear IH. induction rest as [|y rest IH]; [reflexivity|].
    cbn [fmap list_fmap] in Hnotin, Hnd.
    apply NoDup_cons in Hnd as [_ Hnd].
    apply not_elem_of_cons in Hnotin as [Hne Hnotin].
    cbn. unfold idIsNot at 1.
    destruct (String.eqb (seg_id y) (seg_id r)) eqn:E.
    { apply String.eqb_eq in E. congruence. }
    cbn. f_equal. by apply IH.
  - cbn. unfold idIsNot at 1.
    destruct (String.eqb (seg_id seg) (seg_id r)) eqn:E.
    { apply String.eqb_eq in E. exfalso. apply Hnotin. rewrite E.
      apply list_elem_of_fmap_2. by eapply list_elem_of_lookup_2. }
    cbn. f_equal. by apply IH.
Qed.

(** X11: The merge when both indices have one digit, where the default sort
    orders them as numbers.  Whichever of the two segments was dragged into
    the other, the end of the collapse puts [[left.start, right.end]] under
    the identifier of the left segment (and without an activity flag) at the
    left index, marks the right segment as fading and leaves it in the
    store; when the fade timer fires, and the identifiers are distinct,
    exactly the right segment is removed. *)
Theorem merge_commit_joins (now t : nat) (s : State) (msb : MergeSnapBack)
    (a : nat) (l r : TrimSegment) :
  mergeSnapBack s = Some msb -> commitAfter msb = true ->
  (msb_segmentIndex msb = a /\ msb_targetSegmentIndex msb = S a \/
   msb_segmentIndex msb = S a /\ msb_targetSegmentIndex msb = a) ->
  (S a < 10)%nat ->
  segments s !! a = Some l -> segments s !! S a = Some r ->
  NoDup (seg_id <$> segments s) ->
  let merged := {| seg_id := seg_id l; seg_start := seg_start l;
                   seg_end := seg_end r; seg_active := None |} in
  exists s1,
    handleMergeSnapTransitionEnd now "width" s = Some s1 /\
    segments s1 = <[a := merged]> (segments s) /\
    mergeFading s1 = Some (seg_id r) /\
    mergeSnapBack s1 = None /\
    let s2 := mergeFadeTimeout (t, seg_id r) s1 in
    segments s2 = delete (S a) (<[a := merged]> (segments s)) /\
    segments s2 !! a = Some merged /\
    length (segments s2) = (length (segments s) - 1)%nat /\
    mergeFading s2 = None.
Proof.
  intros Hmsb Hcommit Hpair Ha Hl Hr Hnd merged.
  assert (Hsort : js_default_sort2 (msb_segmentIndex msb)
                    (msb_targetSegmentIndex msb) = (a, S a)).
  { destruct (js_default_sort2_small a Ha) as [H1 H2].
    by destruct Hpair as [[-> ->]|[-> ->]]. }
  assert (Hlen : (S a < length (segments s))%nat)
    by (by eapply lookup_lt_Some).
  assert (Hr' : <[a := merged]> (segments s) !! S a = Some r).
  { rewrite list_lookup_insert_ne by lia. exact Hr. }
  assert (Hfilter :
            List.filter (idIsNot (seg_id r)) (<[a := merged]> (segments s))
            = delete (S a) (<[a := merged]> (segments s))).
  { apply filter_idIsNot_delete; [|exact Hr'].
    rewrite list_fmap_insert. cbn [seg_id merged].
    rewrite list_insert_id; [exact Hnd|].
    by rewrite list_lookup_fmap, Hl. }
  unfold handleMergeSnapTransitionEnd.
  rewrite bool_decide_eq_true_2 by reflexivity.
  rewrite Hmsb, Hcommit, Hsort, Hr.
  cbn [mbind option_bind]. rewrite Hl. cbn [mbind option_bind].
  eexists. split; [reflexivity|].
  split; [reflexivity|]. split; [reflexivity|]. split; [reflexivity|].
  cbv zeta. unfold mergeFadeTimeout.
  cbn [snd segments onSegmentsChange setSegments setMergeFading
       setFadeTimers setMergeSnapBack setMergeSnapStarted mergeFading].
  fold merged. rewrite Hfilter.
  assert (Hdl : length (delete (S a) (<[a := merged]> (segments s)))
                = (length (segments s) - 1)%nat).
  { rewrite length_delete by (by rewrite Hr'). by rewrite length_insert. }
  rewrite Hdl, length_insert.
  assert ((length (segments s) - 1 =? length (segments s))%nat = false)
    as -> by (apply Nat.eqb_neq; lia).
  cbn [negb segments onSegmentsChange setSegments setMergeFading
       setFadeTimers mergeFading].
  split; [reflexivity|]. split.
  - rewrite list_lookup_delete_lt by lia.
    apply list_lookup_insert_eq. lia.
  - split; [exact Hdl|reflexivity].
Qed.

Lemma merge_commit_joins_witness :
  let s := setMergeSnapBack
             (Some {| msb_segmentIndex := 0; msb_targetSegmentIndex := 1;
                      msb_leftPct := 50; msb_rightPct := 60;
                      msb_direction := DirRight; commitAfter := true;
                      msb_initialOpacity := 1 |})
             (storeState (trackEnv 10 1000)
                [segment "a" 0 5; segment "b" 5 10]) in
  exists s1,
    handleMergeSnapTransitionEnd 0 "width" s = Some s1 /\
    segments (mergeFadeTimeout (450%nat, "b"%string) s1)
    = [segment "a" 0 10].
Proof.
  cbv zeta.
  destruct (merge_commit_joins 0 450
              (setMergeSnapBack
                 (Some {| msb_segmentIndex := 0; msb_targetSegmentIndex := 1;
                          msb_leftPct := 50; msb_rightPct := 60;
                          msb_direction := DirRight; commitAfter := true;
                          msb_initialOpacity := 1 |})
                 (storeState (trackEnv 10 1000)
                    [segment "a" 0 5; segment "b" 5 10]))
              _ 0%nat (segment "a" 0 5) (segment "b" 5 10)
              eq_refl eq_refl (or_introl (conj eq_refl eq_refl))
              ltac:(lia) eq_refl eq_refl)
    as (s1 & H1 & _ & _ & _ & H2 & _).
  { by apply (bool_decide_unpack _). }
  exists s1. split; [exact H1|]. exact H2.
Defined.

(** ** Proximity blender *)

Lemma proximityStep_frame (env : Env) (segs : list TrimSegment)
    (info info' : gmap string ProximityInfo) (i : nat) (key : string) :
  proximityStep env segs info i = Some info' ->
  key <> handleKey EdgeEnd i -> key <> handleKey EdgeStart (i + 1) ->
  info' !! key = info !! key.
Proof.
  unfold proximityStep. intros H Hend Hstart. branches H;
    injection H as <-; try reflexivity.
  by rewrite !lookup_insert_ne.
Qed.

Lemma proximityLoop_frame (env : Env) (segs : list TrimSegment)
    (indices : list nat) (key : string) :
  Forall (fun i => key <> handleKey EdgeEnd i /\
                   key <> handleKey EdgeStart (i + 1)) indices ->
  forall info info', proximityLoop env segs indices info = Some info' ->
    info' !! key = info !! key.
Proof.
  induction 1 as [|i rest [Hend Hstart] _ IH]; intros info info' H; cbn in H.
  - by injection H as <-.
  - destruct (proximityStep env segs info i) as [info1|] eqn:E;
      option_steps H; [|discriminate].
    rewrite (IH _ _ H). by eapply proximityStep_frame.
Qed.

Lemma proximityLoop_app (env : Env) (segs : list TrimSegment)
    (l1 l2 : list nat) :
  forall info,
    proximityLoop env segs (l1 ++ l2) info
    = proximityLoop env segs l1 info ≫= proximityLoop env segs l2.
Proof.
  induction l1 as [|i rest IH]; intros info; cbn; [reflexivity|].
  destruct (proximityStep env segs info i); cbn; [apply IH|reflexivity].
Qed.

Lemma proximityLoop_pair (env : Env) (segs : list TrimSegment)
    (info : gmap string ProximityInfo) (i : nat) (key : string) :
  handleProximity env segs = Some info -> (i + 1 < length segs)%nat ->
  key = handleKey EdgeEnd i \/ key = handleKey EdgeStart (i + 1) ->
  exists info1,
    proximityStep env segs ∅ i = Some info1 /\ info !! key = info1 !! key.
Proof.
  intros H Hi Hkey. unfold handleProximity in H.
  replace (seq 0 (length segs - 1))
    with (seq 0 i ++ i :: seq (S i) (length segs - 1 - S i)) in H.
  2:{ change (i :: seq (S i) (length segs - 1 - S i))
        with (seq i (S (length segs - 1 - S i))).
      rewrite <- seq_app. f_equal. lia. }
  rewrite proximityLoop_app in H.
  destruct (proximityLoop env segs (seq 0 i) ∅) as [infoA|] eqn:EA;
    option_steps H; [|discriminate].
  cbn [proximityLoop] in H.
  destruct (proximityStep env segs infoA i) as [infoB|] eqn:EB;
    option_steps H; [|discriminate].
  assert (Hother : forall (j : nat), j <> i ->
            key <> handleKey EdgeEnd j /\ key <> handleKey EdgeStart (j + 1)).
  { intros j Hj. destruct Hkey as [-> | ->]; split; intros E;
      apply handleKey_inj in E as [E1 E2]; try discriminate E1; lia. }
  assert (HkeyA : infoA !! key = None).
  { rewrite (proximityLoop_frame env segs (seq 0 i) key) with (info := ∅)
      (info' := infoA); [apply lookup_empty| |exact EA].
    apply Forall_forall. intros j Hj. apply elem_of_seq in Hj.
    apply Hother. lia. }
  assert (HkeyB : info !! key = infoB !! key).
  { apply (proximityLoop_frame env segs (seq (S i) (length segs - 1 - S i)));
      [|exact H].
    apply Forall_forall. intros j Hj. apply elem_of_seq in Hj.
    apply Hother. lia. }
  unfold proximityStep in EB |- *.
  destruct (segs !! i) as [l|]; option_steps EB; [|discriminate].
  destruct (segs !! (i + 1)%nat) as [r|]; option_steps EB; [|discriminate].
  cbn [mbind option_bind].
  destruct (negb (eqb (is_active l) (is_active r))).
  { injection EB as <-. eexists. split; [reflexivity|].
    by rewrite HkeyB, HkeyA, lookup_empty. }
  destruct (js_div (seg_end l) (duration env)); option_steps EB;
    [|discriminate].
  destruct (js_div (seg_start r) (duration env)); option_steps EB;
    [|discriminate].
  cbn [mbind option_bind].
  destruct (Qltb _ _).
  - injection EB as <-. eexists. split; [reflexivity|]. rewrite HkeyB.
    destruct Hkey as [-> | ->].
    + assert (Hne : handleKey EdgeStart (i + 1) <> handleKey EdgeEnd i)
        by (intros E; apply handleKey_inj in E as [E _]; discriminate E).
      rewrite (lookup_insert_ne _ _ _ _ Hne), lookup_insert_eq.
      by rewrite (lookup_insert_ne _ _ _ _ Hne), lookup_insert_eq.
    + by rewrite !lookup_insert_eq.
  - injection EB as <-. eexists. split; [reflexivity|].
    by rewrite HkeyB, HkeyA, lookup_empty.
Qed.

(** X12: What the blender writes for a pair of neighbours on a timeline of
    non-zero duration.  With equal activity and a gap below
    [HANDLE_WIDTH_PX] both facing handles get an entry that names the other
    segment and its colour, with the same proximity
    [max 0 (min 1 (1 - gap / 10))] in [[0, 1]]; the proximity exceeds one
    half exactly when the gap is below 5 px, and then either handle is
    pressed as the shared handle of the pair, otherwise as itself.  With
    different activity, or a gap of [HANDLE_WIDTH_PX] or more, neither
    handle has an entry. *)
Theorem proximity_of_pair (env : Env) (segs : list TrimSegment)
    (info : gmap string ProximityInfo) (i : nat) (l r : TrimSegment) :
  ~ duration env == 0 -> handleProximity env segs = Some info ->
  segs !! i = Some l -> segs !! (i + 1)%nat = Some r ->
  let gapPx := seg_start r / duration env * getContainerWidth env
               - seg_end l / duration env * getContainerWidth env in
  let p := Math_max 0 (Math_min 1 (1 - gapPx / HANDLE_WIDTH_PX)) in
  (is_active l = is_active r -> gapPx < HANDLE_WIDTH_PX ->
   info !! handleKey EdgeEnd i
   = Some {| proximity := p; neighborColor := segmentColor (i + 1);
             neighborIndex := (i + 1)%nat |} /\
   info !! handleKey EdgeStart (i + 1)
   = Some {| proximity := p; neighborColor := segmentColor i;
             neighborIndex := i |} /\
   0 <= p /\ p <= 1 /\ (0.5 < p <-> gapPx < 5) /\
   forall x,
     (gapPx < 5 ->
      handleTarget info x EdgeEnd i = DragShared i (i + 1) x false /\
      handleTarget info x EdgeStart (i + 1) = DragShared i (i + 1) x false) /\
     (5 <= gapPx ->
      handleTarget info x EdgeEnd i = DragHandle EdgeEnd i /\
      handleTarget info x EdgeStart (i + 1) = DragHandle EdgeStart (i + 1))) /\
  (is_active l <> is_active r \/ HANDLE_WIDTH_PX <= gapPx ->
   info !! handleKey EdgeEnd i = None /\
   info !! handleKey EdgeStart (i + 1) = None).
Proof.
  intros Hd Hinfo Hl Hr gapPx p.
  assert (Hi : (i + 1 < length segs)%nat) by (by eapply lookup_lt_Some).
  destruct (proximityLoop_pair env segs info i (handleKey EdgeEnd i)
              Hinfo Hi (or_introl eq_refl)) as (info1 & Hstep & Hend).
  destruct (proximityLoop_pair env segs info i (handleKey EdgeStart (i + 1))
              Hinfo Hi (or_intror eq_refl)) as (info2 & Hstep' & Hstart).
  assert (info2 = info1) as -> by congruence. clear Hstep'.
  unfold proximityStep in Hstep. rewrite Hl, Hr in Hstep.
  cbn [mbind option_bind] in Hstep.
  assert (Hne : handleKey EdgeStart (i + 1) <> handleKey EdgeEnd i)
    by (intros E; apply handleKey_inj in E as [E _]; discriminate E).
  assert (Hp : 0 <= p /\ p <= 1 /\ (0.5 < p <-> gapPx < 5)).
  { unfold p, HANDLE_WIDTH_PX. split; [minmax_all; lra|].
    split; [minmax_all; lra|]. split; intros H; minmax_all; qlra. }
  split.
  - intros Hflags Hgap.
    rewrite Hflags, eqb_reflx in Hstep. cbn [negb] in Hstep.
    rewrite !js_div_Some in Hstep by assumption.
    cbn [mbind option_bind] in Hstep. fold gapPx in Hstep.
    rewrite (proj2 (Qltb_lt _ _) Hgap) in Hstep. fold p in Hstep.
    injection Hstep as <-.
    rewrite (lookup_insert_ne _ _ _ _ Hne), lookup_insert_eq in Hend.
    rewrite lookup_insert_eq in Hstart.
    split; [exact Hend|]. split; [exact Hstart|].
    destruct Hp as (Hp0 & Hp1 & Hhalf).
    split; [exact Hp0|]. split; [exact Hp1|]. split; [exact Hhalf|].
    intros x. unfold handleTarget. rewrite Hend, Hstart.
    unfold significantOverlap. cbn [proximity neighborIndex].
    split.
    + intros H5. apply Hhalf in H5.
      by rewrite (proj2 (Qltb_lt _ _) H5).
    + intros H5. assert (Qltb 0.5 p = false) as ->; [|by split].
      apply Qltb_ge. destruct (Qlt_le_dec 0.5 p) as [Hlt|Hle];
        [|exact Hle]. apply Hhalf in Hlt. lra.
  - intros Hor.
    assert (info1 = ∅) as ->.
    { destruct (eqb (is_active l) (is_active r)) eqn:Ef; cbn [negb] in Hstep;
        [|by injection Hstep as <-].
      apply eqb_prop in Ef. destruct Hor as [Hor|Hgap]; [contradiction|].
      rewrite !js_div_Some in Hstep by assumption.
      cbn [mbind option_bind] in Hstep. fold gapPx in Hstep.
      rewrite (proj2 (Qltb_ge _ _) Hgap) in Hstep. by injection Hstep as <-. }
    by rewrite Hend, Hstart, !lookup_empty.
Qed.

Lemma proximity_of_pair_witness :
  exists info,
    handleProximity (trackEnv 10 1000) [segment "a" 0 5; segment "b" 5 10]
    = Some info /\
    handleTarget info 500 EdgeEnd 0 = DragShared 0 1 500 false.
Proof.
  assert (exists info,
            handleProximity (trackEnv 10 1000)
              [segment "a" 0 5; segment "b" 5 10] = Some info)
    as [info Hinfo] by (eexists; reflexivity).
  exists info. split; [exact Hinfo|].
  destruct (proximity_of_pair (trackEnv 10 1000)
              [segment "a" 0 5; segment "b" 5 10] info 0
              (segment "a" 0 5) (segment "b" 5 10)
              ltac:(discriminate) Hinfo eq_refl eq_refl) as [H _].
  destruct (H eq_refl eq_refl) as (_ & _ & _ & _ & _ & Hx).
  exact (proj1 (proj1 (Hx 500) eq_refl)).
Defined.

(** ** Press on the track: the closest handle *)

(** X13: The search of [handleTrackMouseDown] finds a handle exactly when one
    lies within [HANDLE_SNAP_PX] of the click: the target is then the one an
    own press on that handle would give, at a distance below
    [HANDLE_SNAP_PX], and no handle of the store is closer; when it finds
    none, every handle is [HANDLE_SNAP_PX] or more away. *)
Theorem closestHandle_nearest (env : Env) (info : gmap string ProximityInfo)
    (rect : DOMRect) (clientX : Q) (segs : list TrimSegment) :
  let clickX := clientX - rect_left rect in
  match closestHandle env info rect clientX segs with
  | Some target =>
      exists i seg e,
        segs !! i = Some seg /\ target = handleTarget info clientX e i /\
        clickDistance env rect clickX e seg < HANDLE_SNAP_PX /\
        forall j seg' e', segs !! j = Some seg' ->
          clickDistance env rect clickX e seg
          <= clickDistance env rect clickX e' seg'
  | None =>
      forall j seg' e', segs !! j = Some seg' ->
        HANDLE_SNAP_PX <= clickDistance env rect clickX e' seg'
  end.
Proof.
  intros clickX. unfold closestHandle. fold clickX.
  pose proof (closestHandle_closestOf env info rect clientX segs) as H.
  fold clickX in H.
  destruct (closestLoop env info rect clickX clientX 0 segs
              (None, HANDLE_SNAP_PX)) as [closest dist].
  destruct H as [Hmin Hfound].
  cbn [fst snd] in *. destruct closest as [target|].
  - destruct Hfound as (i & seg & e & Hi & Ht & Hd & Hlt).
    exists i, seg, e. split; [exact Hi|]. split; [exact Ht|].
    rewrite <- Hd. split; [exact Hlt|]. exact Hmin.
  - rewrite <- Hfound. exact Hmin.
Qed.

(** X14: A press on the track away from every handle (each one at
    [HANDLE_SNAP_PX] or more from the click) starts a playhead drag and
    seeks to the clicked time, clamped to the timeline; it leaves the store,
    the intents, the snap-backs, the timers and the detail state alone. *)
Theorem track_press_seeks (env : Env) (rect : DOMRect) (now : nat)
    (clientX : Q) (s : State) :
  container env = Some rect -> 0 < rect_width rect -> 0 < duration env ->
  (forall j seg e, segments s !! j = Some seg ->
     HANDLE_SNAP_PX
     <= clickDistance env rect (clientX - rect_left rect) e seg) ->
  exists s' p,
    handleTrackMouseDown env now clientX s = Some s' /\
    getPercentFromEvent env clientX = Some p /\
    dragging s' = Some DragPlayhead /\
    currentTime s' == percentToTime env p /\
    0 <= currentTime s' /\ currentTime s' <= duration env /\
    segments s' = segments s /\
    deleteIntent s' = deleteIntent s /\ snapBack s' = snapBack s /\
    sameDrag (setDragging (Some DragPlayhead) s) s'.
Proof.
  intros Hc Hw Hd Hfar. unfold handleTrackMouseDown.
  assert (Hp : exists p, getPercentFromEvent env clientX = Some p /\
                         0 <= p /\ p <= 100).
  { unfold getPercentFromEvent. rewrite Hc, js_div_Some by lra.
    eexists. split; [reflexivity|]. minmax_all; lra. }
  destruct Hp as (p & Hp & Hp0 & Hp1). rewrite Hp, Hc.
  cbn [mbind option_bind].
  destruct (handleProximity_total (atMemo env) (segments s)) as [info ->];
    [cbn; lra|].
  cbn [mbind option_bind].
  pose proof (closestHandle_closestOf env info rect clientX (segments s))
    as Hclosest.
  unfold closestHandle.
  destruct (closestLoop env info rect (clientX - rect_left rect) clientX 0
              (segments s) (None, HANDLE_SNAP_PX)) as [closest dist].
  destruct Hclosest as [_ Hfound]. cbn [fst snd] in *.
  destruct closest as [target|].
  { destruct Hfound as (i & seg & e & Hi & _ & Hdist & Hlt).
    specialize (Hfar i seg e Hi). rewrite Hdist in Hlt. lra. }
  assert (Ht : 0 <= percentToTime env p /\ percentToTime env p <= duration env).
  { unfold percentToTime.
    assert (0 <= p / 100 /\ p / 100 <= 1) as [Hq0 Hq1] by qlra.
    split.
    - apply Qmult_le_0_compat; lra.
    - rewrite <- (Qmult_1_l (duration env)) at 2.
      apply Qmult_le_compat_r; lra. }
  destruct Ht as [Ht0 Ht1].
  eexists _, p. split; [reflexivity|]. split; [reflexivity|].
  cbn [dragging currentTime segments deleteIntent snapBack onSeek
       setCurrentTime setDragging].
  split; [reflexivity|].
  split; [minmax_all; lra|]. split; [minmax_all; lra|].
  split; [minmax_all; lra|].
  split; [reflexivity|]. split; [reflexivity|]. split; [reflexivity|].
  by repeat split.
Qed.

Lemma track_press_seeks_witness :
  exists s',
    handleTrackMouseDown (trackEnv 10 1000) 0 500
      (storeState (trackEnv 10 1000) [segment "a" 0 2; segment "b" 8 10])
    = Some s' /\
    dragging s' = Some DragPlayhead /\ currentTime s' == 5.
Proof.
  destruct (track_press_seeks (trackEnv 10 1000)
              {| rect_left := 0; rect_width := 1000 |} 0 500
              (storeState (trackEnv 10 1000)
                 [segment "a" 0 2; segment "b" 8 10])
              eq_refl eq_refl eq_refl)
    as (s' & p & Hs & Hp & Hdrag & Htime & _).
  { intros [|[|j]] seg e Hj; [| |discriminate Hj];
      injection Hj as <-; destruct e; vm_compute; discriminate. }
  exists s'. split; [exact Hs|]. split; [exact Hdrag|].
  rewrite Htime. vm_compute in Hp. injection Hp as <-. reflexivity.
Defined.

(** X15: A press on the track within [HANDLE_SNAP_PX] of a handle does exactly
    what a press on the element of the closest handle does: both handlers
    read the same memoised record of [handleProximity] and end in the same
    state, with a drag of that handle or of the shared handle the record
    assigns it to. *)
Theorem track_press_as_handle_press (env : Env) (rect : DOMRect) (now : nat)
    (clientX : Q) (s : State) (memo : gmap string ProximityInfo)
    (target : DragTarget) :
  container env = Some rect -> ~ rect_width rect == 0 ->
  handleProximity (atMemo env) (segments s) = Some memo ->
  closestHandle env memo rect clientX (segments s) = Some target ->
  exists i e seg,
    segments s !! i = Some seg /\
    clickDistance env rect (clientX - rect_left rect) e seg < HANDLE_SNAP_PX /\
    target = handleTarget memo clientX e i /\
    handleTrackMouseDown env now clientX s
    = handle_onMouseDown env now clientX i e s /\
    exists s', handle_onMouseDown env now clientX i e s = Some s' /\
               dragging s' = Some target.
Proof.
  intros Hc Hw Hinfo Hclosest.
  assert (Hfound : exists i seg e,
            segments s !! i = Some seg /\
            target = handleTarget memo clientX e i /\
            clickDistance env rect (clientX - rect_left rect) e seg
            < HANDLE_SNAP_PX).
  { pose proof (closestHandle_closestOf env memo rect clientX (segments s))
      as Hof.
    unfold closestHandle in Hclosest.
    destruct (closestLoop env memo rect (clientX - rect_left rect) clientX 0
                (segments s) (None, HANDLE_SNAP_PX)) as [closest dist].
    cbn [fst] in Hclosest. subst closest.
    destruct Hof as [_ (i & seg & e & Hi & Ht & Hd & Hlt)].
    cbn [fst snd] in *. exists i, seg, e. by rewrite <- Hd. }
  destruct Hfound as (i & seg & e & Hi & Ht & Hlt).
  exists i, e, seg. split; [exact Hi|]. split; [exact Hlt|].
  split; [exact Ht|].
  unfold handleTrackMouseDown, handle_onMouseDown, getPercentFromEvent.
  rewrite Hc, js_div_Some by assumption.
  cbn [mbind option_bind]. rewrite Hinfo. cbn [mbind option_bind].
  rewrite Hclosest, Ht. unfold handleTarget, handleHandleMouseDown.
  rewrite Hi. cbn [mbind option_bind].
  destruct (memo !! handleKey e i) as [b|]; [destruct (significantOverlap _)|];
    destruct e; cbn beta iota; rewrite ?Hi; cbn [mbind option_bind];
    (split; [reflexivity|]); eexists; (split; [reflexivity|]); reflexivity.
Qed.

(** The same press when the record is out of date: it was computed before
    the track was measured, with a width of 1, so that the facing handles
    at 400 px and 404 px of the track still count as overlapping. *)
Lemma track_press_as_handle_press_witness :
  let env :=
    {| duration := 10;
       container := Some {| rect_left := 0; rect_width := 1000 |};
       memoContainer := None; frameDuration := 1 # 30;
       rubberBand := fun rawPx => rawPx |} in
  let s := storeState env [segment "a" 0 4; segment "b" 4.04 10] in
  exists s' i e,
    handleTrackMouseDown env 0 401 s = Some s' /\
    handle_onMouseDown env 0 401 i e s = Some s' /\
    dragging s' = Some (DragShared 0 1 401 false).
Proof.
  cbv zeta.
  set (env := {| duration := 10;
                 container := Some {| rect_left := 0; rect_width := 1000 |};
                 memoContainer := None; frameDuration := 1 # 30;
                 rubberBand := fun rawPx => rawPx |}).
  set (s := storeState env [segment "a" 0 4; segment "b" 4.04 10]).
  assert (exists memo,
            handleProximity (atMemo env) (segments s) = Some memo /\
            closestHandle env memo {| rect_left := 0; rect_width := 1000 |}
              401 (segments s) = Some (DragShared 0 1 401 false))
    as (memo & Hinfo & Hclosest).
  { eexists. split; [reflexivity|]. vm_compute. reflexivity. }
  destruct (track_press_as_handle_press env
              {| rect_left := 0; rect_width := 1000 |} 0 401 s memo _
              eq_refl ltac:(discriminate) Hinfo Hclosest)
    as (i & e & seg & Hi & Hlt & Ht & Heq & s' & Hs' & Hdrag).
  exists s', i, e. split; [by rewrite Heq|]. by split.
Defined.

(** ** Detail magnifier: windows and requests *)

Lemma handleMouseMove_requests (env : Env) (now : nat) (x : Q)
    (s s' : State) (k : MoveKind) :
  handleMouseMove env now x s = Some (k, s') -> requests s' = requests s.
Proof.
  intros H. unfold handleMouseMove in H.
  destruct (dragging s) as [target|]; [|by injection H as <- <-].
  destruct (getPercentFromEvent env x) as [p|] eqn:Ep; option_steps H;
    [|discriminate].
  destruct target as [e idx|l r sx res|].
  2:{ destruct res; branches H; by injection H as <- <-. }
  2:{ by injection H as <- <-. }
  destruct (segments s !! idx) as [seg|]; option_steps H; [|discriminate].
  destruct (detailFor s e idx) as [dm|].
  { unfold detailScrub in H. rewrite Ep in H. option_steps H.
    destruct e; branches H; by injection H as <- <-. }
  destruct e; unfold startHandleMove, endHandleMove in H; branches H;
    by injection H as <- <-.
Qed.

Lemma press_requests (env : Env) (t : nat) (ev : Event) (s s' : State) :
  isPress ev = true -> step env t ev s = Some s' ->
  requests s' = requests s.
Proof.
  intros Hp H. destruct ev; try discriminate Hp; cbn in H.
  - unfold handle_onMouseDown, handleHandleMouseDown in H.
    branches H; by injection H as <-.
  - unfold handleTrackMouseDown in H.
    destruct (getPercentFromEvent env clientX); option_steps H;
      [|discriminate].
    destruct (match container env with
              | Some rect =>
                  info ← handleProximity (atMemo env) (segments s);
                  Some (closestHandle env info rect clientX (segments s))
              | None => Some None
              end) as [closest|]; option_steps H; [|discriminate].
    destruct closest as [[e i|l r sx res|]|]; branches H;
      by injection H as <-.
Qed.

Lemma step_requests (env : Env) (t : nat) (ev : Event) (s s' : State) :
  step env t ev s = Some s' ->
  requests s' = requests s \/
  ev = EvPrefetchTimeout /\ detailMode s' = None /\
  exists p, pendingDetail s' = Some p /\
            requests s' = requests s ++ [windowOf p].
Proof.
  intros H.
  destruct (isPress ev) eqn:Hpress; [left; by eapply press_requests|].
  destruct ev; try discriminate Hpress; cbn in H.
  - destruct (handleMouseMove env t clientX s) as [[k s1]|] eqn:E;
      [|discriminate]. injection H as <-. left.
    by eapply handleMouseMove_requests.
  - injection H as <-. left. unfold handleMouseUp.
    repeat case_match; reflexivity.
  - injection H as <-. by left.
  - injection H as <-. by left.
  - injection H as <-. left. unfold handleSnapTransitionEnd.
    repeat case_match; reflexivity.
  - left. unfold handleMergeSnapTransitionEnd in H.
    branches H; by injection H as <-.
  - injection H as <-. left. unfold mergeFadeTimeout.
    case_match; reflexivity.
  - unfold prefetchTimeout, prefetchDetailThumbnails in H.
    destruct (prefetchTimer s) as [tm|]; [|injection H as <-; by left].
    destruct (detailMode s) eqn:Edm; [injection H as <-; by left|].
    destruct (computeDetailWindow env _ _ _) as [p|]; option_steps H;
      [|discriminate].
    injection H as <-. right. split; [reflexivity|]. split; [exact Edm|].
    by exists p.
  - left. unfold dwellTimeout, activateDetailMode in H.
    destruct (dwellTimer s) as [tm|]; [|by injection H as <-].
    destruct (detailMode s) eqn:Edm; [by injection H as <-|].
    cbn [detailMode setDwellTimer] in H. rewrite Edm in H.
    cbn [pendingDetail setDwellTimer] in H.
    destruct (pendingDetail s); [by injection H as <-|].
    destruct (computeDetailWindow env _ _ _); option_steps H;
      [|discriminate].
    by injection H as <-.
  - injection H as <-. by left.
  - injection H as <-. left. unfold handleKeyDown.
    repeat case_match; reflexivity.
  - injection H as <-. left. unfold handleFindShots.
    case_match; reflexivity.
  - injection H as <-. by left.
  - injection H as <-. by left.
Qed.

Lemma windowInvariant_kept (s s' : State) :
  requests s' = requests s -> pendingDetail s' = pendingDetail s ->
  (detailMode s' = detailMode s \/
   exists dm h, detailMode s = Some dm /\
                detailMode s' = Some (withHandleTime dm h)) ->
  windowInvariant s -> windowInvariant s'.
Proof.
  intros Hreq Hp Hdm [H1 H2]. split.
  - intros p E. rewrite Hreq. apply H1. congruence.
  - intros dm p Edm Ep. rewrite Hp in Ep.
    destruct Hdm as [Hdm|(dm0 & h & Hdm0 & Hdm)].
    + apply H2; congruence.
    + assert (dm = withHandleTime dm0 h) as -> by congruence.
      exact (H2 dm0 p Hdm0 Ep).
Qed.

Lemma windowInvariant_off (s' : State) :
  pendingDetail s' = None -> windowInvariant s'.
Proof. intros Hp. split; intros; congruence. Qed.

Lemma moveEffect_detail (t : nat) (k : MoveKind) (s s' : State) :
  moveEffect t k s s' ->
  detailMode s' = detailMode s \/
  exists dm h, detailMode s = Some dm /\
               detailMode s' = Some (withHandleTime dm h).
Proof.
  intros [_ E]. destruct k; cbn in E.
  - destruct E as [-> _]. by left.
  - destruct E as (_ & _ & _ & _ & E). by left.
  - destruct E as [-> _]. by left.
  - destruct E as (l & r & sx & e & i & seg & _ & _ & _ & _ & _ & E).
    by left.
  - destruct E as (e & i & dm & h & _ & _ & Hf & E & _).
    apply detailFor_Some in Hf as [Hf _]. right. by exists dm, h.
  - destruct E as (e & i & _ & _ & _ & _ & _ & _ & E). by left.
  - destruct E as (e & i & _ & _ & _ & _ & _ & _ & E). by left.
  - destruct E as (e & i & _ & _ & _ & _ & _ & _ & E). by left.
  - destruct E as (e & i & _ & _ & _ & _ & _ & _ & E). by left.
  - destruct E as (e & i & seg & _ & _ & _ & _ & _ & _ & _ & E). by left.
Qed.

Lemma step_windowInvariant (env : Env) (t : nat) (ev : Event)
    (s s' : State) :
  step env t ev s = Some s' -> windowInvariant s -> windowInvariant s'.
Proof.
  intros H Hinv.
  assert (Hprefetch : ev = EvPrefetchTimeout -> windowInvariant s').
  { intros ->. cbn in H. unfold prefetchTimeout, prefetchDetailThumbnails in H.
    destruct (prefetchTimer s) as [tm|]; [|by injection H as <-].
    destruct (detailMode s) eqn:Edm.
    { injection H as <-. apply (windowInvariant_kept s); auto. }
    destruct (computeDetailWindow env _ _ _) as [p|]; option_steps H;
      [|discriminate].
    injection H as <-. split.
    - intros p' E. cbn in E. injection E as <-. cbn. apply last_snoc.
    - intros dm p' E. cbn in E. congruence. }
  destruct (step_requests env t ev s s' H) as [Hreq|[Hev _]];
    [|by apply Hprefetch].
  destruct (isPress ev) eqn:Hpress.
  { destruct (press_step env t ev s s' Hpress H)
      as [(_ & Hp & _)|[(_ & Hp & _)|(_ & Hdm & Hp & _)]].
    - by apply windowInvariant_off.
    - by apply windowInvariant_off.
    - apply (windowInvariant_kept s); auto. }
  destruct ev; try discriminate Hpress; try (by apply Hprefetch);
    try (assert (sameDrag s s') as (_ & _ & _ & Hdm & Hp)
           by (by eapply step_sameDrag);
         apply (windowInvariant_kept s); auto).
  - cbn in H. destruct (handleMouseMove env t clientX s) as [[k s1]|] eqn:E;
      [|discriminate]. injection H as <-.
    apply handleMouseMove_effect in E.
    apply (windowInvariant_kept s); [assumption|apply E| |assumption].
    by eapply moveEffect_detail.
  - cbn in H. injection H as <-.
    destruct (handleMouseUp_effect s)
      as [[_ ->]|(_ & _ & _ & [[_ Hp]|(_ & Hdm & Hp)])]; [assumption| |].
    + by apply windowInvariant_off.
    + apply (windowInvariant_kept s); auto.
  - cbn in H.
    apply dwellTimeout_effect in H
      as (_ & _ & _ & [[Hdm Hp]|(tm & dm & _ & _ & Hdm & _ & Hrest)]).
    + apply (windowInvariant_kept s); auto.
    + destruct Hrest as [(_ & Hp & _)|(p & Hp & Hp' & ->)].
      * by apply windowInvariant_off.
      * destruct Hinv as [H1 H2]. split.
        -- intros p' E. assert (p' = withHandleTime p (tm_handleTime tm))
             as -> by congruence.
           rewrite Hreq. exact (H1 p Hp).
        -- intros dm' p' E1 E2. congruence.
Qed.

Lemma run_windowInvariant (env : Env) (tr : list (nat * Event)) :
  forall now s t s',
    windowInvariant s -> run env now s tr = Some (t, s') ->
    windowInvariant s'.
Proof.
  induction tr as [|[t1 ev] tr IH]; intros now s t s' Hinv H.
  - cbn in H. by injection H as <- <-.
  - cbn [run] in H.
    destruct ((now <=? t1)%nat && enabled t1 ev s); [|discriminate].
    destruct (step env t1 ev s) as [s1|] eqn:Hs; option_steps H;
      [|discriminate].
    eapply IH; [|exact H]. by eapply step_windowInvariant.
Qed.

(** X16: In every run from the seed, a prefetched window is the one of the last
    request sent to the host, and a detail view that is shown while a
    prefetched window exists shows exactly that window: the thumbnails asked
    for are those of the view, also when the handle has moved since the
    request. *)
Theorem detail_view_shows_requested_window (env : Env) (newId : string)
    (tr : list (nat * Event)) (t : nat) (s : State) (p : DetailMode) :
  run env 0 (initialState env newId) tr = Some (t, s) ->
  pendingDetail s = Some p ->
  last (requests s) = Some (viewStart p, viewEnd p) /\
  forall dm, detailMode s = Some dm ->
    viewStart dm = viewStart p /\ viewEnd dm = viewEnd p.
Proof.
  intros Hrun Hp.
  assert (Hinit : windowInvariant (initialState env newId))
    by (by apply windowInvariant_off).
  destruct (run_windowInvariant env tr 0 _ t s Hinit Hrun) as [H1 H2].
  split; [exact (H1 p Hp)|].
  intros dm Hdm. specialize (H2 dm p Hdm Hp). unfold windowOf in H2.
  by injection H2 as -> ->.
Qed.

Lemma detail_view_shows_requested_window_witness :
  exists s p dm,
    run (trackEnv 10 1000) 0 (initialState (trackEnv 10 1000) "a")
      [(0%nat, EvHandleMouseDown 1000 0 EdgeEnd); (200%nat, EvPrefetchTimeout);
       (600%nat, EvDwellTimeout)] = Some (600%nat, s) /\
    pendingDetail s = Some p /\ detailMode s = Some dm /\
    last (requests s) = Some (viewStart dm, viewEnd dm).
Proof.
  assert (exists s p dm,
            run (trackEnv 10 1000) 0 (initialState (trackEnv 10 1000) "a")
              [(0%nat, EvHandleMouseDown 1000 0 EdgeEnd);
               (200%nat, EvPrefetchTimeout);
               (600%nat, EvDwellTimeout)] = Some (600%nat, s) /\
            pendingDetail s = Some p /\ detailMode s = Some dm)
    as (s & p & dm & Hrun & Hp & Hdm).
  { eexists _, _, _. split; [vm_compute; reflexivity|].
    split; vm_compute; reflexivity. }
  exists s, p, dm. split; [exact Hrun|]. split; [exact Hp|].
  split; [exact Hdm|].
  destruct (detail_view_shows_requested_window _ _ _ _ _ _ Hrun Hp)
    as [Hlast Hview].
  destruct (Hview dm Hdm) as [-> ->]. exact Hlast.
Defined.

(** X17: A move on the handle the detail view is open for is never an overshoot,
    wherever the pointer is: no intent and no snap-back is created and no
    segment is removed.  The pointer is mapped through the window, which
    stays as it is; the view's handle time and the playhead follow the
    boundary, and a boundary whose clamps contain the window lands inside
    the window. *)
Theorem detail_scrub_in_window (env : Env) (now : nat) (x : Q) (s s' : State)
    (k : MoveKind) (e : Edge) (i : nat) (seg : TrimSegment)
    (dm : DetailMode) :
  dragging s = Some (DragHandle e i) -> segments s !! i = Some seg ->
  detailFor s e i = Some dm -> viewStart dm <= viewEnd dm ->
  handleMouseMove env now x s = Some (k, s') ->
  k = MoveDetail /\
  deleteIntent s' = deleteIntent s /\ mergeIntent s' = mergeIntent s /\
  snapBack s' = snapBack s /\ mergeSnapBack s' = mergeSnapBack s /\
  dragging s' = dragging s /\
  exists seg',
    segments s' = <[i := seg']> (segments s) /\
    detailMode s' = Some (withHandleTime dm (boundaryTime e seg')) /\
    currentTime s' = boundaryTime e seg' /\
    match e with
    | EdgeStart =>
        forall lo, minStartOf (segments s) i = Some lo ->
          lo <= viewStart dm -> viewEnd dm <= seg_end seg - 0.1 ->
          viewStart dm <= seg_start seg' /\ seg_start seg' <= viewEnd dm
    | EdgeEnd =>
        forall hi, maxEndOf env (segments s) i = Some hi ->
          viewEnd dm <= hi -> seg_start seg + 0.1 <= viewStart dm ->
          viewStart dm <= seg_end seg' /\ seg_end seg' <= viewEnd dm
    end.
Proof.
  intros Hdrag Hseg Hf Hwin H. unfold handleMouseMove in H.
  rewrite Hdrag in H.
  destruct (getPercentFromEvent env x) as [p|] eqn:Ep; option_steps H;
    [|discriminate].
  rewrite Hseg in H. option_steps H. rewrite Hf in H.
  unfold detailScrub in H. rewrite Ep in H. option_steps H.
  destruct (getPercentFromEvent_range env x p Ep) as [Hp0 Hp1].
  assert (Hzoom : viewStart dm
                  <= viewStart dm + p / 100 * (viewEnd dm - viewStart dm)
                  /\ viewStart dm + p / 100 * (viewEnd dm - viewStart dm)
                     <= viewEnd dm).
  { assert (0 <= p / 100 /\ p / 100 <= 1) as [Hq0 Hq1] by qlra.
    assert (0 <= p / 100 * (viewEnd dm - viewStart dm))
      by (apply Qmult_le_0_compat; lra).
    assert (p / 100 * (viewEnd dm - viewStart dm)
            <= 1 * (viewEnd dm - viewStart dm))
      by (apply Qmult_le_compat_r; lra).
    lra. }
  destruct Hzoom as [Hz0 Hz1].
  destruct e.
  - destruct (minStartOf (segments s) i) as [lo|]; option_steps H;
      [|discriminate].
    injection H as <- <-. repeat (split; [reflexivity|]).
    eexists. split; [reflexivity|]. split; [reflexivity|].
    split; [reflexivity|].
    intros lo' [= <-] Hlo Hhi. cbn [seg_start with_start].
    minmax_all; lra.
  - destruct (maxEndOf env (segments s) i) as [hi|]; option_steps H;
      [|discriminate].
    injection H as <- <-. repeat (split; [reflexivity|]).
    eexists. split; [reflexivity|]. split; [reflexivity|].
    split; [reflexivity|].
    intros hi' [= <-] Hhi Hlo. cbn [seg_end with_end].
    minmax_all; lra.
Qed.

Lemma detail_scrub_in_window_witness :
  exists s s' k,
    run (trackEnv 10 1000) 0 (initialState (trackEnv 10 1000) "a")
      [(0%nat, EvHandleMouseDown 1000 0 EdgeEnd); (600%nat, EvDwellTimeout)]
    = Some (600%nat, s) /\
    handleMouseMove (trackEnv 10 1000) 700 (-500) s = Some (k, s') /\
    k = MoveDetail /\ deleteIntent s' = deleteIntent s.
Proof.
  assert (exists s s' k seg dm,
            run (trackEnv 10 1000) 0 (initialState (trackEnv 10 1000) "a")
              [(0%nat, EvHandleMouseDown 1000 0 EdgeEnd);
               (600%nat, EvDwellTimeout)] = Some (600%nat, s) /\
            handleMouseMove (trackEnv 10 1000) 700 (-500) s = Some (k, s') /\
            dragging s = Some (DragHandle EdgeEnd 0) /\
            segments s !! 0%nat = Some seg /\
            detailFor s EdgeEnd 0 = Some dm /\
            viewStart dm <= viewEnd dm)
    as (s & s' & k & seg & dm & Hrun & Hmove & Hdrag & Hseg & Hf & Hwin).
  { eexists _, _, _, _, _.
    split; [vm_compute; reflexivity|].
    split; [vm_compute; reflexivity|].
    split; [vm_compute; reflexivity|].
    split; [vm_compute; reflexivity|].
    split; [vm_compute; reflexivity|].
    vm_compute. discriminate. }
  exists s, s', k. split; [exact Hrun|]. split; [exact Hmove|].
  destruct (detail_scrub_in_window _ _ _ _ _ _ _ _ _ _ Hdrag Hseg Hf Hwin
              Hmove) as (Hk & Hdi & _).
  by split.
Defined.

(** ** Edit screen *)

Lemma insertByStart_perm (x : TrimSegment) (l : list TrimSegment) :
  insertByStart x l ≡ₚ x :: l.
Proof.
  induction l as [|y rest IH]; cbn; [reflexivity|].
  destruct (Qle_bool (seg_start x) (seg_start y)); [reflexivity|].
  rewrite IH. apply Permutation_swap.
Qed.

Lemma insertByStart_sorted (x : TrimSegment) (l : list TrimSegment) :
  Sorted startsBefore l -> Sorted startsBefore (insertByStart x l).
Proof.
  induction 1 as [|y rest Hs IH Hhd]; cbn; [by repeat constructor|].
  destruct (Qle_bool (seg_start x) (seg_start y)) eqn:E.
  - apply Qle_bool_iff in E. by repeat constructor.
  - apply Qle_bool_false in E. constructor; [exact IH|].
    destruct rest as [|z rest']; cbn.
    + constructor. unfold startsBefore. lra.
    + destruct (Qle_bool (seg_start x) (seg_start z)); constructor.
      * unfold startsBefore. lra.
      * by inversion Hhd.
Qed.

Lemma insertByStart_stable (t : Q) (x : TrimSegment) (l : list TrimSegment) :
  Sorted startsBefore l ->
  List.filter (fun seg => Qeq_bool (seg_start seg) t) (insertByStart x l)
  = List.filter (fun seg => Qeq_bool (seg_start seg) t) (x :: l).
Proof.
  induction 1 as [|y rest Hs IH Hhd]; [reflexivity|].
  cbn [insertByStart].
  destruct (Qle_bool (seg_start x) (seg_start y)) eqn:E; [reflexivity|].
  apply Qle_bool_false in E.
  cbn [List.filter] in *. rewrite IH.
  destruct (Qeq_bool (seg_start x) t) eqn:Ex; [|reflexivity].
  destruct (Qeq_bool (seg_start y) t) eqn:Ey; [|reflexivity].
  apply Qeq_bool_iff in Ex, Ey. lra.
Qed.

Lemma sortByStart_Sorted (l : list TrimSegment) :
  Sorted startsBefore (sortByStart l).
Proof.
  unfold sortByStart. induction l as [|x rest IH]; cbn; [constructor|].
  by apply insertByStart_sorted.
Qed.

Lemma Sorted_sortedByStart (l : list TrimSegment) :
  Sorted startsBefore l -> sortedByStart l.
Proof.
  induction 1 as [|y rest Hs IH Hhd]; intros i a b Ha Hb; [discriminate|].
  destruct i as [|i]; cbn in Ha, Hb.
  - injection Ha as <-. destruct rest as [|z rest']; [discriminate|].
    cbn in Hb. injection Hb as <-. by inversion Hhd.
  - by eapply IH.
Qed.

Lemma sortedByStart_Sorted (l : list TrimSegment) :
  sortedByStart l -> Sorted startsBefore l.
Proof.
  induction l as [|y rest IH]; intros H; [constructor|].
  constructor.
  - apply IH. intros i a b Ha Hb. exact (H (S i) a b Ha Hb).
  - destruct rest as [|z rest']; constructor.
    exact (H 0%nat y z eq_refl eq_refl).
Qed.

Lemma sortByStart_perm (l : list TrimSegment) : sortByStart l ≡ₚ l.
Proof.
  unfold sortByStart. induction l as [|x rest IH]; cbn; [reflexivity|].
  by rewrite insertByStart_perm, IH.
Qed.

(** X18: [sort((a, b) => a.start - b.start)] returns the same segments, ordered
    by start, and keeps the segments of equal start in the order they had:
    it is the stable sort. *)
Theorem sortByStart_stable_sort (l : list TrimSegment) (t : Q) :
  sortByStart l ≡ₚ l /\
  sortedByStart (sortByStart l) /\
  List.filter (fun seg => Qeq_bool (seg_start seg) t) (sortByStart l)
  = List.filter (fun seg => Qeq_bool (seg_start seg) t) l /\
  (sortedByStart l -> sortByStart l = l).
Proof.
  split; [apply sortByStart_perm|split; [|split]].
  - apply Sorted_sortedByStart, sortByStart_Sorted.
  - unfold sortByStart. induction l as [|x rest IH]; [reflexivity|].
    cbn [foldr]. rewrite insertByStart_stable
      by apply (sortByStart_Sorted rest).
    cbn [List.filter]. fold (sortByStart rest). unfold sortByStart at 1 2.
    by rewrite IH.
  - intros H. apply sortedByStart_Sorted in H. unfold sortByStart.
    induction H as [|y rest Hs IH Hhd]; [reflexivity|].
    cbn [foldr]. rewrite IH. destruct Hhd as [|z rest' Hyz]; [reflexivity|].
    cbn [insertByStart].
    by rewrite (proj2 (Qle_bool_iff _ _) Hyz).
Qed.

Lemma findIndex_Some {A : Type} (p : A -> bool) (l : list A) :
  forall i, findIndex p l = Some i ->
    exists x, l !! i = Some x /\ p x = true /\
              forall j y, (j < i)%nat -> l !! j = Some y -> p y = false.
Proof.
  induction l as [|x rest IH]; intros i H; cbn in H; [discriminate|].
  destruct (p x) eqn:Ex.
  - injection H as <-. exists x. split; [reflexivity|]. split; [exact Ex|].
    intros j y Hj. lia.
  - destruct (findIndex p rest) as [k|]; cbn in H; [|discriminate].
    injection H as <-. destruct (IH k eq_refl) as (y & Hy & Hpy & Hfirst).
    exists y. split; [exact Hy|]. split; [exact Hpy|].
    intros [|j] z Hj Hz; cbn in Hz.
    + by injection Hz as <-.
    + eapply Hfirst; [|exact Hz]. lia.
Qed.

Lemma findIndex_None {A : Type} (p : A -> bool) (l : list A) :
  findIndex p l = None -> forall j y, l !! j = Some y -> p y = false.
Proof.
  induction l as [|x rest IH]; intros H j y Hy; [discriminate|].
  cbn in H. destruct (p x) eqn:Ex; [discriminate|].
  destruct (findIndex p rest) as [k|] eqn:Ek; cbn in H; [discriminate|].
  destruct j as [|j]; cbn in Hy; [by injection Hy as <-|].
  by eapply IH.
Qed.

(** X19: The keys "[" and "]".  With the playhead inside a segment, the first
    such segment gets the playhead time as its start (for "[") or its end
    (for "]"), and nothing else changes.  With the playhead outside every
    segment, the segment from the playhead to one frame later (for "[") or
    from one frame earlier to the playhead (for "]"), cut at the ends of the
    timeline, is added under the new identifier, and the store is sorted by
    start again.  Any other key leaves the state alone. *)
Theorem keyboard_marks (env : Env) (key newId : string) (s : State) :
  let ct := currentTime s in
  let s' := handleKeyDown env key newId s in
  (key <> "["%string -> key <> "]"%string -> s' = s) /\
  (key = "["%string \/ key = "]"%string ->
   match findIndex (playheadInside ct) (segments s) with
   | Some idx =>
       exists seg,
         segments s !! idx = Some seg /\
         seg_start seg <= ct /\ ct <= seg_end seg /\
         (forall j seg', (j < idx)%nat -> segments s !! j = Some seg' ->
            ~ (seg_start seg' <= ct /\ ct <= seg_end seg')) /\
         segments s'
         = <[idx := if bool_decide (key = "["%string)
                    then with_start seg ct else with_end seg ct]>
             (segments s)
   | None =>
       (forall j seg', segments s !! j = Some seg' ->
          ~ (seg_start seg' <= ct /\ ct <= seg_end seg')) /\
       segments s' ≡ₚ keyedSegment env key newId ct :: segments s /\
       sortedByStart (segments s')
   end).
Proof.
  intros ct s'. unfold s', handleKeyDown. fold ct. split.
  - intros H1 H2. by rewrite !bool_decide_eq_false_2.
  - intros Hkey.
    assert (Hinside : forall seg', playheadInside ct seg' = true <->
              seg_start seg' <= ct /\ ct <= seg_end seg').
    { intros seg'. unfold playheadInside. rewrite andb_true_iff.
      by rewrite !Qle_bool_iff. }
    destruct (findIndex (playheadInside ct) (segments s)) as [idx|] eqn:Ef.
    + destruct (findIndex_Some _ _ _ Ef) as (seg & Hseg & Hin & Hfirst).
      exists seg. split; [exact Hseg|].
      apply Hinside in Hin as [Hin1 Hin2].
      split; [exact Hin1|]. split; [exact Hin2|]. split.
      * intros j seg' Hj Hseg' Hcontra. apply Hinside in Hcontra.
        rewrite (Hfirst j seg' Hj Hseg') in Hcontra. discriminate.
      * rewrite Hseg.
        destruct Hkey as [-> | ->]; cbn; reflexivity.
    + pose proof (findIndex_None _ _ Ef) as Hnone.
      split.
      { intros j seg' Hseg' Hcontra. apply Hinside in Hcontra.
        rewrite (Hnone j seg' Hseg') in Hcontra. discriminate. }
      assert (Hsegs : segments
                (if bool_decide (key = "["%string)
                 then setSegments
                        (sortByStart
                           (segments s ++
                            [{| seg_id := newId; seg_start := ct;
                                seg_end := Math_min (ct + frameDuration env)
                                             (duration env);
                                seg_active := None |}])) s
                 else if bool_decide (key = "]"%string)
                 then setSegments
                        (sortByStart
                           (segments s ++
                            [{| seg_id := newId;
                                seg_start := Math_max (ct - frameDuration env)
                                               0;
                                seg_end := ct; seg_active := None |}])) s
                 else s)
              = sortByStart (segments s ++ [keyedSegment env key newId ct])).
      { unfold keyedSegment. destruct Hkey as [-> | ->]; reflexivity. }
      rewrite Hsegs. split.
      * rewrite sortByStart_perm. by rewrite Permutation_app_comm.
      * apply Sorted_sortedByStart, sortByStart_Sorted.
Qed.

(** X20: The shots the detector returns replace the store, one active segment
    per scene in the order of the scenes, each with the scene's start as it
    is and the scene's end cut at the duration; an empty answer changes
    nothing; in both cases a gesture in progress (the drag, the intents, the
    snap-backs, the timers and the detail view) is left as it is. *)
Theorem find_shots_replaces (env : Env) (scenes : list (string * Q * Q))
    (s : State) :
  let s' := handleFindShots env scenes s in
  (scenes = [] -> s' = s) /\
  (scenes <> [] ->
   length (segments s') = length scenes /\
   (forall i newId a b, scenes !! i = Some (newId, a, b) ->
      exists seg,
        segments s' !! i = Some seg /\ seg_id seg = newId /\
        seg_start seg = a /\ seg_end seg = Math_min b (duration env) /\
        seg_end seg <= duration env /\ seg_end seg <= b /\
        seg_active seg = Some true) /\
   allActive (segments s') = true) /\
  dragging s' = dragging s /\ deleteIntent s' = deleteIntent s /\
  mergeIntent s' = mergeIntent s /\ snapBack s' = snapBack s /\
  mergeSnapBack s' = mergeSnapBack s /\ sameDrag s s' /\
  currentTime s' = currentTime s.
Proof.
  intros s'. unfold s', handleFindShots.
  split; [by intros ->|]. split.
  - intros Hne. destruct scenes as [|scene rest]; [contradiction|].
    generalize (scene :: rest). clear. intros scenes.
    cbn [segments setSegments]. split; [by rewrite length_fmap|]. split.
    + intros i newId a b Hi. eexists. split.
      * rewrite list_lookup_fmap, Hi. reflexivity.
      * cbn. repeat (split; [reflexivity|]).
        split; [|split; [|reflexivity]]; minmax_all; lra.
    + unfold allActive. apply forallb_forall. intros seg Hin.
      apply in_map_iff in Hin as ([[newId a] b] & <- & _). reflexivity.
  - destruct scenes; by repeat split.
Qed.

Lemma find_shots_replaces_witness :
  segments (handleFindShots (trackEnv 10 1000)
              [("a"%string, 0, 4); ("b"%string, 6, 12)]
              (storeState (trackEnv 10 1000) []))
  !! 1%nat
  = Some {| seg_id := "b"; seg_start := 6; seg_end := 10;
            seg_active := Some true |}.
Proof.
  destruct (find_shots_replaces (trackEnv 10 1000)
              [("a"%string, 0, 4); ("b"%string, 6, 12)]
              (storeState (trackEnv 10 1000) [])) as (_ & H & _).
  destruct H as (_ & H & _); [discriminate|].
  destruct (H 1%nat "b"%string 6 12 eq_refl)
    as (seg & Hseg & Hid & Hstart & Hend & _ & _ & Hact).
  rewrite Hseg. f_equal. destruct seg. cbn in *. by subst.
Defined.

Lemma toggleActive_is_active (seg : TrimSegment) :
  is_active (toggleActive seg) = negb (is_active seg).
Proof. unfold toggleActive, is_active. cbn. by destruct (seg_active seg) as [[|]|]. Qed.

Lemma activeSegments_inverse_length (segs : list TrimSegment) :
  (length (activeSegments (toggleActive <$> segs))
   + length (activeSegments segs) = length segs)%nat.
Proof.
  unfold activeSegments. induction segs as [|seg rest IH]; [reflexivity|].
  cbn [fmap list_fmap List.filter]. rewrite toggleActive_is_active.
  destruct (is_active seg); cbn [negb length]; lia.
Qed.

(** X21: The activation buttons never touch identifiers or times.  After
    "Activate All" every segment is rendered; after "Deactivate All" none
    is; "Inverse" renders exactly the segments that were not rendered
    before, and twice "Inverse" renders what was rendered at first; the
    button that toggles all of them turns "all active" into "none active"
    and anything else into "all active". *)
Theorem activation_buttons (s : State) :
  segmentSpan <$> segments (handleActivateAll s) = segmentSpan <$> segments s /\
  segmentSpan <$> segments (handleDeactivateAll s)
  = segmentSpan <$> segments s /\
  segmentSpan <$> segments (handleInverseActive s)
  = segmentSpan <$> segments s /\
  activeSegments (segments (handleActivateAll s))
  = segments (handleActivateAll s) /\
  activeSegments (segments (handleDeactivateAll s)) = [] /\
  is_active <$> segments (handleInverseActive s)
  = negb <$> (is_active <$> segments s) /\
  (length (activeSegments (segments (handleInverseActive s)))
   + length (activeSegments (segments s)) = length (segments s))%nat /\
  is_active <$> segments (handleInverseActive (handleInverseActive s))
  = is_active <$> segments s /\
  (allActive (segments s) = true ->
   activeSegments (segments (handleToggleAll s)) = []) /\
  (allActive (segments s) = false ->
   allActive (segments (handleToggleAll s)) = true).
Proof.
  unfold handleToggleAll, handleActivateAll, handleDeactivateAll,
    handleInverseActive.
  cbn [segments setSegments].
  assert (Hon : forall l : list TrimSegment,
            List.filter is_active (with_active true <$> l)
            = with_active true <$> l).
  { induction l as [|x rest IH]; [reflexivity|].
    cbn [fmap list_fmap List.filter]. cbn. f_equal. exact IH. }
  assert (Hoff : forall l : list TrimSegment,
            List.filter is_active (with_active false <$> l) = []).
  { induction l as [|x rest IH]; [reflexivity|].
    cbn [fmap list_fmap List.filter]. cbn. exact IH. }
  repeat split.
  - rewrite <- list_fmap_compose. by apply list_fmap_ext.
  - rewrite <- list_fmap_compose. by apply list_fmap_ext.
  - rewrite <- list_fmap_compose. by apply list_fmap_ext.
  - apply Hon.
  - apply Hoff.
  - rewrite <- !list_fmap_compose. apply list_fmap_ext.
    intros i seg _. unfold compose. apply toggleActive_is_active.
  - apply activeSegments_inverse_length.
  - rewrite <- !list_fmap_compose. apply list_fmap_ext.
    intros i seg _. unfold compose.
    by rewrite !toggleActive_is_active, negb_involutive.
  - intros ->. cbn [segments setSegments]. apply Hoff.
  - intros ->. cbn [segments setSegments]. unfold allActive.
    apply forallb_forall. intros seg Hin.
    apply in_map_iff in Hin as (seg0 & <- & _). reflexivity.
Qed.

(** X22: A double click on the overlay of segment [i] flips the activity of that
    segment and of no other; identifiers and times stay, a second double
    click restores what is rendered, and an index outside the store changes
    nothing. *)
Theorem double_click_toggles (i : nat) (s : State) :
  let s' := handleDoubleClick i s in
  segmentSpan <$> segments s' = segmentSpan <$> segments s /\
  (forall j, j <> i -> segments s' !! j = segments s !! j) /\
  (forall seg, segments s !! i = Some seg ->
     exists seg', segments s' !! i = Some seg' /\
                  is_active seg' = negb (is_active seg)) /\
  is_active <$> segments (handleDoubleClick i s')
  = is_active <$> segments s /\
  (length (segments s) <= i -> segments s' = segments s)%nat.
Proof.
  intros s'. unfold s', handleDoubleClick.
  cbn [segments onSegmentsChange setSegments].
  assert (Hlookup : forall (l : list TrimSegment) j,
            imap (fun idx seg => if (idx =? i)%nat then toggleActive seg
                                 else seg) l !! j
            = (fun seg => if (j =? i)%nat then toggleActive seg else seg)
                <$> l !! j).
  { intros l j. by rewrite list_lookup_imap. }
  split; [|split; [|split; [|split]]].
  - apply list_eq. intros j. rewrite !list_lookup_fmap, Hlookup.
    destruct (segments s !! j) as [seg|]; [|reflexivity]. cbn.
    by destruct (j =? i)%nat.
  - intros j Hj. rewrite Hlookup.
    destruct (segments s !! j) as [seg|]; [|reflexivity]. cbn.
    by rewrite (proj2 (Nat.eqb_neq j i) Hj).
  - intros seg Hseg. eexists. split.
    + rewrite Hlookup, Hseg. cbn. rewrite Nat.eqb_refl. reflexivity.
    + apply toggleActive_is_active.
  - apply list_eq. intros j. rewrite !list_lookup_fmap, !Hlookup.
    destruct (segments s !! j) as [seg|]; [|reflexivity]. cbn.
    destruct (j =? i)%nat; [|reflexivity].
    by rewrite !toggleActive_is_active, negb_involutive.
  - intros Hlen. apply list_eq. intros j. rewrite Hlookup.
    destruct (segments s !! j) as [seg|] eqn:Ej; [|reflexivity]. cbn.
    apply lookup_lt_Some in Ej.
    by rewrite (proj2 (Nat.eqb_neq j i)) by lia.
Qed.

(** ** Keys of the proximity record *)

(** X23: The keys [`start-${i}`] and [`end-${i}`] name the handles one to one,
    and the decimal rendering of an index determines the index: two
    different handles never share an entry of the proximity record. *)
Theorem handle_keys_distinct (e e' : Edge) (i j : nat) :
  (handleKey e i = handleKey e' j <-> e = e' /\ i = j) /\
  (String_of_index i = String_of_index j <-> i = j).
Proof.
  split; split.
  - apply handleKey_inj.
  - by intros [-> ->].
  - apply String_of_index_inj.
  - by intros ->.
Qed.

(** ** Playhead and shared handle *)

Lemma timeToPercent_range (env : Env) (t : Q) :
  0 < duration env -> 0 <= t -> t <= duration env ->
  0 <= timeToPercent env t /\ timeToPercent env t <= 100.
Proof.
  intros Hd H0 H1.
  pose proof (timeToPercent_mono env 0 t H0) as Hlo.
  pose proof (timeToPercent_mono env t (duration env) H1) as Hhi.
  unfold timeToPercent in *.
  rewrite (proj2 (Qltb_lt 0 (duration env)) Hd) in *.
  assert (0 / duration env * 100 == 0) by (field; lra).
  assert (duration env / duration env * 100 == 100) by (field; lra).
  lra.
Qed.

(** X24: A move of a playhead drag seeks to the pointer's time, kept on the
    timeline, and changes nothing else of the store; the playhead marker is
    then drawn on the track, at the percentage of that time. *)
Theorem playhead_drag (env : Env) (now : nat) (x : Q) (s s' : State)
    (k : MoveKind) :
  dragging s = Some DragPlayhead -> 0 < duration env ->
  handleMouseMove env now x s = Some (k, s') ->
  k = MovePlayhead /\ segments s' = segments s /\
  dragging s' = Some DragPlayhead /\
  0 <= currentTime s' /\ currentTime s' <= duration env /\
  0 <= playheadPercent env s' /\ playheadPercent env s' <= 100 /\
  playheadPercent env s' == timeToPercent env (currentTime s').
Proof.
  intros Hdrag Hd H. unfold handleMouseMove in H. rewrite Hdrag in H.
  destruct (getPercentFromEvent env x) as [p|]; option_steps H;
    [|discriminate].
  injection H as <- <-. split; [reflexivity|]. split; [reflexivity|].
  split; [exact Hdrag|].
  cbn [currentTime onSeek setCurrentTime]. unfold playheadPercent.
  cbn [currentTime onSeek setCurrentTime].
  set (t := Math_max 0 (Math_min (duration env) (percentToTime env p))).
  assert (Ht : 0 <= t /\ t <= duration env) by (unfold t; minmax_all; lra).
  destruct Ht as [Ht0 Ht1].
  destruct (timeToPercent_range env t Hd Ht0 Ht1) as [Hp0 Hp1].
  split; [exact Ht0|]. split; [exact Ht1|]. minmax_all; lra.
Qed.

Lemma playhead_drag_witness :
  exists s',
    handleMouseMove (trackEnv 10 1000) 0 2500
      (setDragging (Some DragPlayhead) (storeState (trackEnv 10 1000) []))
    = Some (MovePlayhead, s') /\
    currentTime s' <= 10.
Proof.
  assert (exists s',
            handleMouseMove (trackEnv 10 1000) 0 2500
              (setDragging (Some DragPlayhead)
                 (storeState (trackEnv 10 1000) []))
            = Some (MovePlayhead, s')) as [s' H]
    by (eexists; vm_compute; reflexivity).
  exists s'. split; [exact H|].
  exact (proj1 (proj2 (proj2 (proj2 (proj2
           (playhead_drag (trackEnv 10 1000) 0 2500
              (setDragging (Some DragPlayhead)
                 (storeState (trackEnv 10 1000) []))
              s' MovePlayhead eq_refl eq_refl H)))))).
Defined.

(** X25: A shared handle waits until the pointer has moved 2 px from the press:
    nearer than that a move changes nothing; 2 px or more to the right it
    becomes the start handle of the right segment, otherwise the end handle
    of the left one.  The move that resolves it changes no segment and
    starts both timers on the chosen handle; a shared handle already marked
    as resolved ignores every move. *)
Theorem shared_handle_resolves (env : Env) (now : nat) (x sx p : Q)
    (s : State) (l r : nat) (res : bool) (sl sr : TrimSegment) :
  dragging s = Some (DragShared l r sx res) ->
  getPercentFromEvent env x = Some p ->
  segments s !! l = Some sl -> segments s !! r = Some sr ->
  exists k s',
    handleMouseMove env now x s = Some (k, s') /\
    segments s' = segments s /\ currentTime s' = currentTime s /\
    (res = true \/ (-2 < x - sx /\ x - sx < 2) ->
     k = MoveSharedWait /\ s' = s) /\
    (res = false -> 2 <= x - sx ->
     k = MoveSharedResolved /\
     dragging s' = Some (DragHandle EdgeStart r) /\
     timerSetAt now DWELL_MS (seg_start sr) r EdgeStart (dwellTimer s') /\
     timerSetAt now PREFETCH_MS (seg_start sr) r EdgeStart
       (prefetchTimer s')) /\
    (res = false -> x - sx <= -2 ->
     k = MoveSharedResolved /\
     dragging s' = Some (DragHandle EdgeEnd l) /\
     timerSetAt now DWELL_MS (seg_end sl) l EdgeEnd (dwellTimer s') /\
     timerSetAt now PREFETCH_MS (seg_end sl) l EdgeEnd (prefetchTimer s')).
Proof.
  intros Hdrag Hp Hl Hr. unfold handleMouseMove. rewrite Hdrag, Hp.
  cbn [mbind option_bind].
  destruct res.
  { eexists _, _. split; [reflexivity|]. split; [reflexivity|].
    split; [reflexivity|]. split; [by split|]. split; intros; discriminate. }
  assert (Habs : (Qltb (Math_abs (x - sx)) 2 = true
                  <-> -2 < x - sx /\ x - sx < 2)).
  { rewrite Qltb_lt. unfold Math_abs.
    destruct (Qle_bool 0 (x - sx)) eqn:E;
      [apply Qle_bool_iff in E|apply Qle_bool_false in E]; split; lra. }
  destruct (Qltb (Math_abs (x - sx)) 2) eqn:Ewait.
  - pose proof (proj1 Habs eq_refl) as Hnear.
    eexists _, _. split; [reflexivity|]. split; [reflexivity|].
    split; [reflexivity|]. split; [by split|]. split; intros; lra.
  - assert (Hfar : ~ (-2 < x - sx /\ x - sx < 2)).
    { intros H. apply Habs in H. discriminate. }
    destruct (Qltb 0 (x - sx)) eqn:Eright;
      [apply Qltb_lt in Eright|apply Qltb_ge in Eright].
    + rewrite Hr. cbn [mbind option_bind].
      eexists _, _. split; [reflexivity|]. split; [reflexivity|].
      split; [reflexivity|].
      split; [intros [H|H]; [discriminate|contradiction]|].
      split; [intros _ _; by repeat split|]. intros _ H. lra.
    + rewrite Hl. cbn [mbind option_bind].
      eexists _, _. split; [reflexivity|]. split; [reflexivity|].
      split; [reflexivity|].
      split; [intros [H|H]; [discriminate|contradiction]|].
      split; [intros _ H; exfalso; apply Hfar; lra|].
      intros _ _. by repeat split.
Qed.

Lemma shared_handle_resolves_witness :
  let s := setDragging (Some (DragShared 0 1 500 false))
             (storeState (trackEnv 10 1000)
                [segment "a" 0 5; segment "b" 5 10]) in
  exists s',
    handleMouseMove (trackEnv 10 1000) 30 503 s
    = Some (MoveSharedResolved, s') /\
    dragging s' = Some (DragHandle EdgeStart 1).
Proof.
  cbv zeta.
  assert (exists p, getPercentFromEvent (trackEnv 10 1000) 503 = Some p)
    as [p Hp] by (eexists; vm_compute; reflexivity).
  destruct (shared_handle_resolves (trackEnv 10 1000) 30 503 500 p
              (setDragging (Some (DragShared 0 1 500 false))
                 (storeState (trackEnv 10 1000)
                    [segment "a" 0 5; segment "b" 5 10]))
              0 1 false (segment "a" 0 5) (segment "b" 5 10)
              eq_refl Hp eq_refl eq_refl)
    as (k & s' & Hmove & _ & _ & _ & Hright & _).
  destruct (Hright eq_refl ltac:(discriminate)) as (-> & Hdrag & _).
  exists s'. by split.
Defined.

(** ** Timers *)

Lemma timersPaired_set (t : nat) (h : Q) (i : nat) (e : Edge) (s : State) :
  timerSetAt t DWELL_MS h i e (dwellTimer s) ->
  timerSetAt t PREFETCH_MS h i e (prefetchTimer s) -> timersPaired s.
Proof.
  unfold timerSetAt. intros Hd Hp d p Ed Ep.
  rewrite Hd in Ed. rewrite Hp in Ep. injection Ed as <-. injection Ep as <-.
  cbn. unfold DWELL_MS, PREFETCH_MS. repeat split. lia.
Qed.

Lemma timersPaired_off (s : State) :
  dwellTimer s = None \/ prefetchTimer s = None -> timersPaired s.
Proof. intros [H|H] d p Ed Ep; congruence. Qed.

Lemma timersPaired_same (s s' : State) :
  dwellTimer s' = dwellTimer s -> prefetchTimer s' = prefetchTimer s ->
  timersPaired s -> timersPaired s'.
Proof. intros Hd Hp H d p Ed Ep. apply H; congruence. Qed.

Lemma step_timersPaired (env : Env) (t : nat) (ev : Event) (s s' : State) :
  step env t ev s = Some s' -> timersPaired s -> timersPaired s'.
Proof.
  intros H Hinv.
  destruct (isPress ev) eqn:Hpress.
  { destruct (press_step env t ev s s' Hpress H)
      as [(_ & _ & Hd & _)|[(_ & _ & e & i & seg & _ & _ & Hd & Hp)
                           |(_ & _ & _ & Hd & Hp)]].
    - apply timersPaired_off. by left.
    - by eapply timersPaired_set.
    - by apply (timersPaired_same s). }
  destruct ev; try discriminate Hpress;
    try (assert (sameDrag s s') as (_ & Hd & Hp & _)
           by (by eapply step_sameDrag);
         by apply (timersPaired_same s)).
  - cbn in H. destruct (handleMouseMove env t clientX s) as [[k s1]|] eqn:E;
      [|discriminate]. injection H as <-.
    apply handleMouseMove_effect in E as [_ E]. destruct k; cbn in E.
    + by destruct E as [-> _].
    + destruct E as (_ & _ & Hd & Hp & _). by apply (timersPaired_same s).
    + by destruct E as [-> _].
    + destruct E as (l & r & sx & e & i & seg & _ & _ & _ & Hd & Hp & _).
      by eapply timersPaired_set.
    + destruct E as (e & i & dm & h & _ & _ & _ & _ & Hd & _).
      apply timersPaired_off. by left.
    + destruct E as (e & i & _ & _ & _ & _ & Hd & _).
      apply timersPaired_off. by left.
    + destruct E as (e & i & _ & _ & _ & _ & Hd & _).
      apply timersPaired_off. by left.
    + destruct E as (e & i & _ & _ & _ & _ & Hd & _).
      apply timersPaired_off. by left.
    + destruct E as (e & i & _ & _ & _ & _ & Hd & _).
      apply timersPaired_off. by left.
    + destruct E as (e & i & seg & _ & _ & _ & _ & _ & Hd & Hp & _).
      by eapply timersPaired_set.
  - cbn in H. injection H as <-.
    destruct (handleMouseUp_effect s) as [[_ ->]|(_ & Hd & _)]; [assumption|].
    apply timersPaired_off. by left.
  - cbn in H. apply prefetchTimeout_effect in H as (_ & _ & Hp & _).
    apply timersPaired_off. by right.
  - cbn in H. apply dwellTimeout_effect in H as (_ & Hd & _).
    apply timersPaired_off. by left.
Qed.

Lemma run_timersPaired (env : Env) (tr : list (nat * Event)) :
  forall now s t s',
    timersPaired s -> run env now s tr = Some (t, s') -> timersPaired s'.
Proof.
  induction tr as [|[t1 ev] tr IH]; intros now s t s' Hinv H.
  - cbn in H. by injection H as <- <-.
  - cbn [run] in H.
    destruct ((now <=? t1)%nat && enabled t1 ev s); [|discriminate].
    destruct (step env t1 ev s) as [s1|] eqn:Hs; option_steps H;
      [|discriminate].
    eapply IH; [|exact H]. by eapply step_timersPaired.
Qed.

(** X26: No stale timer.  In every run from the seed a pending timer belongs to
    the handle that is being dragged, unless a press on the track has
    started a playhead drag over it; so does an active detail view; timers,
    detail view and prefetched window are all for one handle; without a
    drag no timer is pending and no detail view is active.  In a run whose
    presses all come with the pointer up, timers and detail view belong to
    the handle being dragged.  When both timers are pending they come from
    one call of [startDetailTimers]: same handle, same anchor time, the
    prefetch due 400 ms before the activation. *)
Theorem no_stale_timer (env : Env) (newId : string)
    (tr : list (nat * Event)) (t : nat) (s : State) :
  run env 0 (initialState env newId) tr = Some (t, s) ->
  (forall tm, dwellTimer s = Some tm \/ prefetchTimer s = Some tm ->
     dragging s = Some (DragHandle (tm_edge tm) (tm_segmentIndex tm)) \/
     dragging s = Some DragPlayhead) /\
  (forall dm, detailMode s = Some dm ->
     dragging s = Some (DragHandle (dm_edge dm) (dm_segmentIndex dm)) \/
     dragging s = Some DragPlayhead) /\
  (forall tm dm, dwellTimer s = Some tm \/ prefetchTimer s = Some tm ->
     detailMode s = Some dm \/ pendingDetail s = Some dm ->
     detailHandle dm = timerHandle tm) /\
  (dragging s = None ->
   dwellTimer s = None /\ prefetchTimer s = None /\ detailMode s = None) /\
  (pressesWhenUp env (initialState env newId) tr = true ->
   (forall tm, dwellTimer s = Some tm \/ prefetchTimer s = Some tm ->
      dragging s = Some (DragHandle (tm_edge tm) (tm_segmentIndex tm))) /\
   (forall dm, detailMode s = Some dm ->
      dragging s = Some (DragHandle (dm_edge dm) (dm_segmentIndex dm)))) /\
  (forall d p, dwellTimer s = Some d -> prefetchTimer s = Some p ->
     (due d = due p + 400)%nat /\ tm_handleTime d = tm_handleTime p /\
     tm_segmentIndex d = tm_segmentIndex p /\ tm_edge d = tm_edge p).
Proof.
  intros Hrun.
  pose proof (run_owner env tr 0 _ t s (initial_owner env newId) Hrun)
    as Hown.
  assert (Hpaired : timersPaired s).
  { eapply run_timersPaired; [|exact Hrun].
    apply timersPaired_off. by left. }
  split; [|split; [|split; [|split; [|split]]]].
  - intros tm Htm.
    apply (owner_drag s (timerHandle tm) Hown). left. by exists tm.
  - intros dm Hdm.
    apply (owner_drag s (detailHandle dm) Hown). right. by exists dm.
  - intros tm dm Htm Hdm. destruct Hown as [[h (Ht & Hd & _)] _].
    by rewrite (Ht tm Htm), (Hd dm Hdm).
  - intros Hup. destruct Hown as [_ Hidle].
    unfold idleWithoutHandle in Hidle. by rewrite Hup in Hidle.
  - intros Hpress.
    pose proof (run_dwellInvariant env tr [] 0 t _ s
                  (initial_dwellInvariant env newId) Hpress Hrun)
      as (_ & Ht & Hd & _).
    by split.
  - exact Hpaired.
Qed.

Lemma no_stale_timer_witness :
  exists s,
    run (trackEnv 10 1000) 0 (initialState (trackEnv 10 1000) "a")
      [(0%nat, EvHandleMouseDown 1000 0 EdgeEnd); (100%nat, EvMouseUp)]
    = Some (100%nat, s) /\
    dwellTimer s = None /\ prefetchTimer s = None.
Proof.
  assert (exists s,
            run (trackEnv 10 1000) 0 (initialState (trackEnv 10 1000) "a")
              [(0%nat, EvHandleMouseDown 1000 0 EdgeEnd);
               (100%nat, EvMouseUp)] = Some (100%nat, s) /\
            dragging s = None) as (s & Hrun & Hup).
  { eexists. split; vm_compute; reflexivity. }
  exists s. split; [exact Hrun|].
  destruct (no_stale_timer _ _ _ _ _ Hrun) as (_ & _ & _ & Hidle & _).
  destruct (Hidle Hup) as (Hd & Hp & _). by split.
Defined.

(** ** The move handler is defined on every well-formed drag *)

(** X27: With a track of non-zero width, a move is handled (no division by zero,
    no read outside the store) whenever the indices of the drag are in the
    store; without a drag it is ignored. *)
Theorem pointer_move_defined (env : Env) (rect : DOMRect) (now : nat) (x : Q)
    (s : State) :
  container env = Some rect -> ~ rect_width rect == 0 ->
  from_option (targetInStore (segments s)) True (dragging s) ->
  exists k s', handleMouseMove env now x s = Some (k, s') /\
               (dragging s = None -> k = MoveIgnored /\ s' = s).
Proof.
  intros Hc Hw Htarget. unfold handleMouseMove.
  destruct (dragging s) as [target|]; [|by eexists _, _].
  assert (Hp : exists p, getPercentFromEvent env x = Some p).
  { unfold getPercentFromEvent. rewrite Hc, js_div_Some by assumption.
    by eexists. }
  destruct Hp as [p Hp]. rewrite Hp. cbn [mbind option_bind].
  assert (Hcw : ~ getContainerWidth env == 0).
  { unfold getContainerWidth. by rewrite Hc. }
  destruct target as [e idx|l r sx res|]; cbn in Htarget.
  - destruct (lookup_lt_is_Some_2 _ _ Htarget) as [seg Hseg].
    rewrite Hseg. cbn [mbind option_bind].
    destruct (minStartOf_total (segments s) idx Htarget) as [lo Hlo].
    destruct (maxEndOf_total env (segments s) idx Htarget) as [hi Hhi].
    destruct (detailFor s e idx) as [dm|].
    { unfold detailScrub. rewrite Hp. cbn [mbind option_bind].
      destruct e; rewrite ?Hlo, ?Hhi; cbn [mbind option_bind];
        eexists _, _; (split; [reflexivity|discriminate]). }
    destruct e; unfold startHandleMove, endHandleMove;
      rewrite ?Hlo, ?Hhi; cbn [mbind option_bind];
      rewrite !js_div_Some by assumption; cbn [mbind option_bind];
      repeat case_match;
      eexists _, _; (split; [reflexivity|discriminate]).
  - destruct Htarget as [Hl Hr].
    destruct (lookup_lt_is_Some_2 _ _ Hl) as [sl Hsl].
    destruct (lookup_lt_is_Some_2 _ _ Hr) as [sr Hsr].
    rewrite Hsl, Hsr. cbn [mbind option_bind].
    destruct res; repeat case_match;
      eexists _, _; (split; [reflexivity|discriminate]).
  - eexists _, _. split; [reflexivity|discriminate].
Qed.

Lemma pointer_move_defined_witness :
  exists k s',
    handleMouseMove (trackEnv 10 1000) 0 300
      (setDragging (Some (DragHandle EdgeEnd 0))
         (storeState (trackEnv 10 1000) [segment "a" 0 5]))
    = Some (k, s').
Proof.
  destruct (pointer_move_defined (trackEnv 10 1000)
              {| rect_left := 0; rect_width := 1000 |} 0 300
              (setDragging (Some (DragHandle EdgeEnd 0))
                 (storeState (trackEnv 10 1000) [segment "a" 0 5]))
              eq_refl ltac:(discriminate) ltac:(cbn; lia))
    as (k & s' & H & _).
  by exists k, s'.
Defined.

(** ** A normal move follows the pointer *)

(** X28: Outside detail mode, a move whose time lies between the clamps of the
    dragged boundary (the boundary of the neighbour, or the end of the
    timeline, on one side, and the own sibling boundary less [0.1] on the
    other) is a normal move: it puts the boundary at the pointer's time,
    seeks there, leaves no intent, and restarts both timers at the new
    boundary time. *)
Theorem normal_move_follows_pointer (env : Env) (now : nat) (x p lo hi : Q)
    (s : State) (e : Edge) (idx : nat) (seg : TrimSegment) :
  dragging s = Some (DragHandle e idx) -> segments s !! idx = Some seg ->
  detailFor s e idx = None -> getPercentFromEvent env x = Some p ->
  minStartOf (segments s) idx = Some lo ->
  maxEndOf env (segments s) idx = Some hi ->
  match e with
  | EdgeStart =>
      lo <= percentToTime env p /\ percentToTime env p <= seg_end seg - 0.1
  | EdgeEnd =>
      seg_start seg + 0.1 <= percentToTime env p /\ percentToTime env p <= hi
  end ->
  exists s' t,
    handleMouseMove env now x s = Some (MoveNormal, s') /\
    t == percentToTime env p /\
    segments s'
    = <[idx := match e with
               | EdgeStart => with_start seg t
               | EdgeEnd => with_end seg t
               end]> (segments s) /\
    currentTime s' = t /\
    deleteIntent s' = None /\ mergeIntent s' = None /\
    dragging s' = dragging s /\
    timerSetAt now DWELL_MS t idx e (dwellTimer s') /\
    timerSetAt now PREFETCH_MS t idx e (prefetchTimer s').
Proof.
  intros Hdrag Hseg Hf Hp Hlo Hhi Hin. unfold handleMouseMove.
  rewrite Hdrag, Hp. cbn [mbind option_bind]. rewrite Hseg.
  cbn [mbind option_bind]. rewrite Hf.
  set (time := percentToTime env p) in *.
  destruct e; destruct Hin as [H1 H2].
  - unfold startHandleMove. rewrite Hlo. cbn [mbind option_bind].
    assert (Qltb (seg_end seg) time = false) as -> by (apply Qltb_ge; lra).
    assert (Qltb time lo = false) as -> by (by apply Qltb_ge).
    rewrite !andb_false_r.
    eexists _, (Math_max lo (Math_min time (seg_end seg - 0.1))).
    split; [reflexivity|]. split; [minmax_all; lra|].
    by repeat split.
  - unfold endHandleMove. rewrite Hhi. cbn [mbind option_bind].
    assert (Qltb time (seg_start seg) = false) as ->
      by (apply Qltb_ge; lra).
    assert (Qltb hi time = false) as -> by (by apply Qltb_ge).
    rewrite !andb_false_r.
    eexists _, (Math_min hi (Math_max time (seg_start seg + 0.1))).
    split; [reflexivity|]. split; [minmax_all; lra|].
    by repeat split.
Qed.

Lemma normal_move_follows_pointer_witness :
  exists s' t,
    handleMouseMove (trackEnv 10 1000) 0 300
      (setDragging (Some (DragHandle EdgeEnd 0))
         (storeState (trackEnv 10 1000) [segment "a" 0 5; segment "b" 6 10]))
    = Some (MoveNormal, s') /\
    t == 3 /\ currentTime s' = t.
Proof.
  assert (exists p, getPercentFromEvent (trackEnv 10 1000) 300 = Some p /\
                    percentToTime (trackEnv 10 1000) p == 3)
    as (p & Hp & Htime).
  { eexists. split; [vm_compute; reflexivity|]. reflexivity. }
  destruct (normal_move_follows_pointer (trackEnv 10 1000) 0 300 p 0 6
              (setDragging (Some (DragHandle EdgeEnd 0))
                 (storeState (trackEnv 10 1000)
                    [segment "a" 0 5; segment "b" 6 10]))
              EdgeEnd 0 (segment "a" 0 5)
              eq_refl eq_refl eq_refl Hp eq_refl eq_refl)
    as (s' & t & Hmove & Ht & _ & Hcur & _).
  { rewrite Htime. split; discriminate. }
  exists s', t. split; [exact Hmove|]. split; [by rewrite Ht|exact Hcur].
Defined.

(** ** The index sort of the merge *)

(** X29: Among the stores of up to a thousand segments, the default sort of
    the two indices of a merge puts the pair [(a, a+1)] in numeric order
    from whichever side it is given, except where [a + 1] has one digit more
    than [a] (the pairs [(9, 10)], [(99, 100)] and [(999, 1000)]): there it
    turns the pair around, from whichever side it is given. *)
Theorem index_sort_swaps_at_powers_of_ten (a : nat) :
  (a < 1000)%nat ->
  if lastBeforePowerOfTen a
  then js_default_sort2 a (S a) = (S a, a) /\
       js_default_sort2 (S a) a = (S a, a)
  else js_default_sort2 a (S a) = (a, S a) /\
       js_default_sort2 (S a) a = (a, S a).
Proof.
  intros Ha.
  assert (Hall : forallb (fun a => if lastBeforePowerOfTen a
                                   then sortSwapsPair a else sortKeepsPair a)
                   (seq 0 1000) = true) by (vm_compute; reflexivity).
  rewrite forallb_forall in Hall.
  specialize (Hall a ltac:(apply in_seq; lia)).
  destruct (lastBeforePowerOfTen a);
    apply andb_prop in Hall as [H1 H2];
    apply bool_decide_eq_true_1 in H1, H2; by split.
Qed.

Lemma index_sort_swaps_at_powers_of_ten_witness :
  js_default_sort2 99 100 = (100, 99)%nat /\
  js_default_sort2 41 42 = (41, 42)%nat.
Proof.
  split.
  - apply (index_sort_swaps_at_powers_of_ten 99). lia.
  - apply (index_sort_swaps_at_powers_of_ten 41). lia.
Defined.

(** ** Identifiers stay distinct *)

Lemma ids_insert (segs : list TrimSegment) (idx : nat)
    (seg seg' : TrimSegment) :
  segs !! idx = Some seg -> seg_id seg' = seg_id seg ->
  seg_id <$> <[idx := seg']> segs = seg_id <$> segs.
Proof.
  intros Hseg Hid. rewrite list_fmap_insert, Hid.
  apply list_insert_id. by rewrite list_lookup_fmap, Hseg.
Qed.

Lemma ids_filter (p : TrimSegment -> bool) (segs : list TrimSegment) :
  NoDup (seg_id <$> segs) -> NoDup (seg_id <$> List.filter p segs).
Proof.
  induction segs as [|seg rest IH]; [done|].
  cbn [fmap list_fmap List.filter]. intros Hnd.
  apply NoDup_cons in Hnd as [Hnotin Hnd]. destruct (p seg); [|by apply IH].
  cbn [fmap list_fmap]. apply NoDup_cons. split; [|by apply IH].
  intros Hin. apply Hnotin. apply list_elem_of_fmap in Hin as (y & Hy & Hin).
  apply list_elem_of_fmap. exists y. split; [exact Hy|].
  apply list_elem_of_In. apply list_elem_of_In in Hin.
  by apply filter_In in Hin as [Hin _].
Qed.

Lemma press_segments (env : Env) (t : nat) (ev : Event) (s s' : State) :
  isPress ev = true -> step env t ev s = Some s' ->
  segments s' = segments s.
Proof.
  intros Hp H. destruct ev; try discriminate Hp; cbn in H.
  - unfold handle_onMouseDown, handleHandleMouseDown in H.
    branches H; by injection H as <-.
  - unfold handleTrackMouseDown in H.
    destruct (getPercentFromEvent env clientX); option_steps H;
      [|discriminate].
    destruct (match container env with
              | Some rect =>
                  info ← handleProximity (atMemo env) (segments s);
                  Some (closestHandle env info rect clientX (segments s))
              | None => Some None
              end) as [closest|]; option_steps H; [|discriminate].
    destruct closest as [[e i|l r sx res|]|]; branches H;
      by injection H as <-.
Qed.

(** X30: Every event keeps the identifiers of the store distinct, provided
    the identifier a key press brings in is new and the identifiers of
    detected shots are distinct: the moves, the deletes and both phases of a
    merge never duplicate an identifier, which is what the second phase of
    the merge (removal by identifier) relies on. *)
Theorem ids_stay_distinct (env : Env) (t : nat) (ev : Event) (s s' : State) :
  step env t ev s = Some s' -> NoDup (seg_id <$> segments s) ->
  freshIds ev s -> NoDup (seg_id <$> segments s').
Proof.
  intros H Hnd Hfresh.
  destruct (isPress ev) eqn:Hpress.
  { by rewrite (press_segments env t ev s s' Hpress H). }
  destruct ev; try discriminate Hpress; cbn in H.
  - destruct (handleMouseMove env t clientX s) as [[k s1]|] eqn:E;
      [|discriminate]. injection H as <-.
    destruct (handleMouseMove_segments _ _ _ _ _ _ E)
      as [-> |(e & idx & seg & u & _ & Hseg & ->)]; [assumption|].
    rewrite (ids_insert _ _ seg); [assumption|exact Hseg|by destruct e].
  - injection H as <-.
    assert (segments (handleMouseUp s) = segments s) as ->; [|assumption].
    unfold handleMouseUp. repeat case_match; reflexivity.
  - by injection H as <-.
  - by injection H as <-.
  - injection H as <-. unfold handleSnapTransitionEnd.
    repeat case_match; try assumption.
    cbn [segments setSnapStarted setSnapBack onSegmentsChange setSegments].
    rewrite list_fmap_delete.
    eapply sublist_NoDup; [exact Hnd|apply sublist_delete].
  - unfold handleMergeSnapTransitionEnd in H.
    destruct (bool_decide _); [|by injection H as <-].
    destruct (mergeSnapBack s) as [msb|]; [|by injection H as <-].
    destruct (commitAfter msb); [|by injection H as <-].
    destruct (js_default_sort2 _ _) as [a b].
    destruct (segments s !! b) as [segB|]; option_steps H; [|discriminate].
    destruct (segments s !! a) as [segA|] eqn:EA; option_steps H;
      [|discriminate].
    injection H as <-.
    cbn [segments setMergeSnapStarted setMergeSnapBack setFadeTimers
         setMergeFading onSegmentsChange setSegments].
    by rewrite (ids_insert _ _ segA).
  - injection H as <-. unfold mergeFadeTimeout.
    case_match; [|assumption].
    cbn [segments setFadeTimers setMergeFading onSegmentsChange setSegments].
    by apply ids_filter.
  - unfold prefetchTimeout, prefetchDetailThumbnails in H.
    branches H; by injection H as <-.
  - unfold dwellTimeout, activateDetailMode in H.
    destruct (dwellTimer s); [|by injection H as <-].
    destruct (detailMode s) eqn:Edm; [by injection H as <-|].
    cbn [detailMode setDwellTimer] in H. rewrite Edm in H.
    cbn [pendingDetail setDwellTimer] in H.
    destruct (pendingDetail s); [by injection H as <-|].
    destruct (computeDetailWindow env _ _ _); option_steps H;
      [|discriminate].
    by injection H as <-.
  - by injection H as <-.
  - injection H as <-. cbn in Hfresh. unfold handleKeyDown.
    assert (Hins : forall newSeg, seg_id newSeg = newId ->
              NoDup (seg_id <$> sortByStart (segments s ++ [newSeg]))).
    { intros newSeg Hid. rewrite sortByStart_perm, fmap_app.
      cbn [fmap list_fmap]. rewrite Hid.
      rewrite <- Permutation_cons_append. by apply NoDup_cons. }
    repeat case_match; try assumption;
      cbn [segments setSegments];
      first [ by apply Hins
            | by erewrite ids_insert ].
  - injection H as <-. cbn in Hfresh. unfold handleFindShots.
    destruct scenes as [|scene rest]; [assumption|].
    cbn [segments setSegments].
    replace (seg_id <$> (sceneSegment env <$> scene :: rest))
      with (fst <$> (fst <$> scene :: rest)); [assumption|].
    rewrite <- !list_fmap_compose. apply list_fmap_ext.
    by intros i [[newId a] b] _.
  - injection H as <-. unfold handleDoubleClick.
    cbn [segments onSegmentsChange setSegments].
    replace (seg_id <$> imap (fun idx seg => if (idx =? i)%nat
                                           then toggleActive seg else seg)
                       (segments s))
      with (seg_id <$> segments s); [assumption|].
    apply list_eq. intros j. rewrite !list_lookup_fmap, list_lookup_imap.
    destruct (segments s !! j) as [seg|]; [|reflexivity]. cbn.
    by destruct (j =? i)%nat.
  - by injection H as <-.
Qed.

Lemma ids_stay_distinct_witness :
  NoDup (seg_id <$> segments
           (handleKeyDown (trackEnv 10 1000) "[" "k"
              (setCurrentTime 7
                 (storeState (trackEnv 10 1000) [segment "a" 0 5])))).
Proof.
  apply (ids_stay_distinct (trackEnv 10 1000) 0 (EvKeyDown "[" "k")
           (setCurrentTime 7
              (storeState (trackEnv 10 1000) [segment "a" 0 5]))).
  - reflexivity.
  - by apply (bool_decide_unpack _).
  - by apply (bool_decide_unpack _).
Defined.

(** ** The rubber band in binary64 *)

(** X31: In binary64 the factor [a = DELETE_THRESHOLD_PX * 0.55] of
    [rubberBandPx] is not 55 but the next number above it, [55 + 2^-47]. *)
Theorem dampingFactor_above_55 :
  PrimFloat.ltb 55 Double.dampingFactor = true /\
  exists a, Double.toQ Double.dampingFactor = Some a /\
            a == 55 + (1 # 140737488355328).
Proof.
  split; [vm_compute; reflexivity|].
  eexists. split; [vm_compute; reflexivity|]. reflexivity.
Qed.

(** ** The clamps and the detail window when every operation rounds *)

Lemma rnd_bounds (rnd : Q -> Q) (x : Q) :
  roundsToNearest rnd -> 0 <= x ->
  x - unitRoundoff * x <= rnd x /\ rnd x <= x + unitRoundoff * x.
Proof.
  intros [_ Hnear] Hx. specialize (Hnear x).
  rewrite (Qabs_pos x Hx) in Hnear.
  apply Qabs_Qle_condition in Hnear as [H1 H2]. split; lra.
Qed.








(** X33: The detail window when every operation rounds.  For any rounding to
    nearest with the unit roundoff of binary64 and any handle time, on a
    timeline of positive duration, the window lies inside the timeline and
    is at most half of it wide, up to the slack:
    [0 <= viewStart], [viewEnd <= duration] and
    [viewEnd - viewStart <= duration / 2 + duration / 2^50]. *)
Theorem rounded_window_width (rnd : Q -> Q) (env : Env) (h : Q) :
  roundsToNearest rnd -> 0 < duration env ->
  let window := Rounded.computeDetailWindow rnd h (duration env) in
  0 <= fst window /\ snd window <= duration env /\
  snd window - fst window <= duration env / 2 + roundingSlack env.
Proof.
  intros Hr Hd. cbv zeta. unfold Rounded.computeDetailWindow.
  set (d := duration env) in *.
  set (w := rnd (d / 2)).
  set (vs := rnd (h - rnd (rnd (h / d) * w))).
  destruct (rnd_bounds rnd (d / 2) Hr) as [Hw1 Hw2]; [qlra|]. fold w in Hw1, Hw2.
  unfold roundingSlack. fold d. unfold unitRoundoff in *.
  destruct (Qltb vs 0) eqn:E1; [apply Qltb_lt in E1|apply Qltb_ge in E1].
  - assert (Qltb d (Math_min d w) = false) as ->.
    { apply Qltb_ge. minmax; lra. }
    cbn [fst snd]. minmax; qlra.
  - destruct (Qltb d (rnd (vs + w))) eqn:E2;
      [apply Qltb_lt in E2|apply Qltb_ge in E2]; cbn [fst snd].
    + destruct (rnd_bounds rnd (d - w) Hr) as [Hx1 _]; [qlra|].
      unfold unitRoundoff in Hx1. minmax; qlra.
    + destruct (rnd_bounds rnd (vs + w) Hr) as [Hx1 Hx2]; [qlra|].
      unfold unitRoundoff in Hx1, Hx2. qlra.
Qed.

(** An arithmetic that is never exact: every result comes out half a unit
    roundoff too large, relatively. *)
Lemma inflating_roundsToNearest :
  roundsToNearest (fun x => x + x * (1 # 18014398509481984)).
Proof.
  split.
  - intros x y Hxy. lra.
  - intros x. unfold unitRoundoff.
    assert (x + x * (1 # 18014398509481984) - x
            == x * (1 # 18014398509481984)) as -> by ring.
    rewrite Qabs_Qmult. change (Qabs (1 # 18014398509481984))
      with (1 # 18014398509481984).
    pose proof (Qabs_nonneg x). lra.
Qed.

Lemma rounded_window_width_witness :
  let rnd := fun x => x + x * (1 # 18014398509481984) in
  ~ snd (Rounded.computeDetailWindow rnd 6.1 10)
    - fst (Rounded.computeDetailWindow rnd 6.1 10) <= 10 / 2 /\
  snd (Rounded.computeDetailWindow rnd 6.1 10)
  - fst (Rounded.computeDetailWindow rnd 6.1 10)
  <= 10 / 2 + roundingSlack (trackEnv 10 1000).
Proof.
  cbv zeta. split.
  - intros H. vm_compute in H. by apply H.
  - apply (rounded_window_width _ (trackEnv 10 1000) 6.1
             inflating_roundsToNearest).
    reflexivity.
Defined.
